(** * Hippocampus: the knowledge-memory engine, embedded in Rocq.

    The development follows the TypeScript sources:
    - [db/schema.ts]        schema versioning ([initializeSchema]);
    - [db/entities.ts], [db/observations.ts], [db/relationships.ts]
                            the repositories over the SQLite store;
    - [embeddings/embedder.ts]  the semantic index;
    - [mcp/tools/*.ts]      remember, recall, forget, merge, consolidate.

    Conventions of the embedding.
    - A JavaScript [number] that holds a similarity is a rational [Q]; the
      comparisons [>=], [>], [<] of the code are the ones of [Q].  A
      [Float32Array] is a [list Q].
    - A JavaScript string is a [string]; [.length] is [String.length].
    - A SQLite table is the list of its rows in rowid order; a query with no
      [ORDER BY] scans in that order, [ORDER BY ... DESC] is a stable sort.
    - Foreign keys are enforced ([foreign_keys = ON]): an insert checks the
      referenced row, a delete cascades.
    - A function that touches the store is a computation [M A]: it takes the
      world and gives back either a value or a thrown exception, with the
      world as the statements executed so far left it (an exception does not
      roll anything back).
    - [async]/[await] is sequential composition. *)

From Stdlib Require Import QArith Qround.
From stdpp Require Import gmap strings list fin_maps pretty sorting.

Set Default Proof Using "Type".

Local Open Scope string_scope.
Local Open Scope list_scope.
Local Open Scope nat_scope.

(** ** Exceptions and the store monad *)

Inductive exn : Type :=
  | Error (message : string)        (* [throw new Error(...)] *)
  | TypeError (message : string)    (* property access on [undefined] *)
  | SqliteError (message : string)  (* constraint failure raised by the driver *)
  | EmbedderError.                  (* the embedding pipeline rejected *)

Inductive outcome (A : Type) : Type :=
  | Ok (a : A)
  | Throw (e : exn).
Arguments Ok {A} a.
Arguments Throw {A} e.

(** ** Rows of the four tables ([db/schema.ts], SCHEMA_V1_SQL and SCHEMA_V2_SQL) *)

Record Entity : Type := mkEntity {
  e_id : string;
  e_name : string;
  e_type : option string;
  e_created_at : string;
  e_updated_at : string }.

Record Observation : Type := mkObservation {
  o_id : string;
  o_entity_id : string;
  o_content : string;
  o_source : option string;
  o_created_at : string }.

Record StoredEmbedding : Type := mkStoredEmbedding {
  emb_id : string;
  emb_entity_id : string;
  emb_observation_id : string;
  emb_vector : list Q;
  emb_text_content : string;
  emb_created_at : string }.

Record Relationship : Type := mkRelationship {
  r_id : string;
  r_from_entity : string;
  r_to_entity : string;
  r_relation_type : string;
  r_created_at : string }.

Global Instance Entity_eq_dec : EqDecision Entity.
Proof. solve_decision. Defined.
Global Instance Observation_eq_dec : EqDecision Observation.
Proof. solve_decision. Defined.
Global Instance Relationship_eq_dec : EqDecision Relationship.
Proof. solve_decision. Defined.

(** The world a tool call runs in: the four tables, the number of UUIDs drawn
    so far from the generator, and the wall clock [datetime('now')] reads. *)
Record World : Type := mkWorld {
  entities : list Entity;
  observations : list Observation;
  embeddings : list StoredEmbedding;
  relationships : list Relationship;
  rng : nat;
  now : string }.

Definition M (A : Type) : Type := World -> outcome A * World.

Definition ret {A} (a : A) : M A := fun w => (Ok a, w).
Definition throw {A} (e : exn) : M A := fun w => (Throw e, w).
Definition bind {A B} (m : M A) (k : A -> M B) : M B :=
  fun w => match m w with
           | (Ok a, w') => k a w'
           | (Throw e, w') => (Throw e, w')
           end.
(** [p.catch(h)] *)
Definition catch {A} (m : M A) (h : exn -> M A) : M A :=
  fun w => match m w with
           | (Ok a, w') => (Ok a, w')
           | (Throw e, w') => h e w'
           end.
Definition get : M World := fun w => (Ok w, w).
Definition put (w : World) : M unit := fun _ => (Ok tt, w).

Notation "x <- m ;; k" := (bind m (fun x => k))
  (at level 100, m at next level, right associativity).
Notation "m ;;; k" := (bind m (fun _ => k))
  (at level 100, right associativity).

(** A loop [for (const x of xs) body(x)] threading an accumulator. *)
Fixpoint forM {A B} (xs : list A) (acc : B) (body : B -> A -> M B) : M B :=
  match xs with
  | [] => ret acc
  | x :: xs' => acc' <- body acc x ;; forM xs' acc' body
  end.

(** ** JavaScript and SQL helpers *)

(** Truthiness of an optional string: [undefined] and [''] are falsy. *)
Definition truthy (o : option string) : bool :=
  match o with
  | Some s => negb (String.eqb s "")
  | None => false
  end.

(** The double-quote character, for messages. *)
Definition dquote : string := String (Ascii.ascii_of_nat 34) EmptyString.

(** [a ?? b] on an optional value. *)
Definition nullish {A} (o : option A) (d : A) : A := default d o.

(** Stable insertion sort: [x] goes in front of the first [y] with
    [before x y]. *)
Fixpoint insert_by {A} (before : A -> A -> bool) (x : A) (l : list A) : list A :=
  match l with
  | [] => [x]
  | y :: l' => if before x y then x :: l else y :: insert_by before x l'
  end.
Definition sort_by {A} (before : A -> A -> bool) (l : list A) : list A :=
  foldr (insert_by before) [] l.

(** [ORDER BY key DESC] on a text column (binary collation). *)
Definition order_by_desc {A} (key : A -> string) (l : list A) : list A :=
  sort_by (fun x y => String.leb (key y) (key x)) l.

(** [array.slice(0, n)] and SQL [LIMIT n], for a natural [n]. *)
Definition slice0 {A} (n : nat) (l : list A) : list A := take n l.

(** Comparisons of similarities. *)
Definition Qge_bool (x y : Q) : bool := Qle_bool y x.
Definition Qgt_bool (x y : Q) : bool := negb (Qle_bool x y).
Definition Qlt_bool (x y : Q) : bool := negb (Qle_bool y x).

(** [Math.round(x * 1000) / 1000]; [Math.round] rounds half up. *)
Definition Math_round (x : Q) : Z := Qfloor (x + (1 # 2)).
Definition round3 (x : Q) : Q := inject_Z (Math_round (x * 1000)) / 1000.

(** The dot product of two vectors of the embedding dimension
    ([cosineSimilarity] in remember.ts and consolidate.ts, the inner loop
    of [semanticSearch]): stored vectors are unit length, so this is the
    cosine. *)
Definition cosineSimilarity (a b : list Q) : Q :=
  fold_left Qplus (zip_with Qmult a b) 0%Q.

(** ** Updating one table of the world *)

Definition set_entities (f : list Entity -> list Entity) (w : World) : World :=
  mkWorld (f (entities w)) (observations w) (embeddings w) (relationships w) (rng w) (now w).
Definition set_observations (f : list Observation -> list Observation) (w : World) : World :=
  mkWorld (entities w) (f (observations w)) (embeddings w) (relationships w) (rng w) (now w).
Definition set_embeddings (f : list StoredEmbedding -> list StoredEmbedding) (w : World) : World :=
  mkWorld (entities w) (observations w) (f (embeddings w)) (relationships w) (rng w) (now w).
Definition set_relationships (f : list Relationship -> list Relationship) (w : World) : World :=
  mkWorld (entities w) (observations w) (embeddings w) (f (relationships w)) (rng w) (now w).
Definition set_rng (n : nat) (w : World) : World :=
  mkWorld (entities w) (observations w) (embeddings w) (relationships w) n (now w).

Definition modify (f : World -> World) : M unit := fun w => (Ok tt, f w).

(** The first row of a [SELECT] ([.get()]), or [undefined]. *)
Definition first_row {A} (rows : list A) : option A := head rows.

(** ** db/schema.ts *)

(** The database file as [initializeSchema] sees it: which tables exist and
    the rows of [schema_version], in rowid order. *)
Record Database : Type := mkDatabase {
  v1_tables : bool;   (* schema_version, entities, observations *)
  v2_tables : bool;   (* embeddings, relationships *)
  schema_version : list Z }.

Definition SCHEMA_VERSION : Z := 2.

(** [db.exec(SCHEMA_V1_SQL)] and [db.exec(SCHEMA_V2_SQL)]: every statement is
    [CREATE ... IF NOT EXISTS]. *)
Definition exec_SCHEMA_V1 (db : Database) : Database :=
  mkDatabase true (v2_tables db) (schema_version db).
Definition exec_SCHEMA_V2 (db : Database) : Database :=
  mkDatabase (v1_tables db) true (schema_version db).

(** [UPDATE schema_version SET version = ?]: every row gets the value;
    [version] is the primary key, so two rows cannot both take it. *)
Definition update_version (v : Z) (db : Database) : outcome unit * Database :=
  match schema_version db with
  | _ :: _ :: _ => (Throw (SqliteError "UNIQUE constraint failed: schema_version.version"), db)
  | rows => (Ok tt, mkDatabase (v1_tables db) (v2_tables db) ((fun _ => v) <$> rows))
  end.

Definition initializeSchema (db : Database) : outcome unit * Database :=
  let db := exec_SCHEMA_V1 db in
  match first_row (schema_version db) with
  | None =>
      let db := exec_SCHEMA_V2 db in
      (Ok tt, mkDatabase (v1_tables db) (v2_tables db) [SCHEMA_VERSION])
  | Some version =>
      if (version <? 2)%Z then update_version SCHEMA_VERSION (exec_SCHEMA_V2 db)
      else (Ok tt, db)
  end.

Definition getSchemaVersion (db : Database) : Z :=
  default 0%Z (first_row (schema_version db)).

(** ** middleware/rate-limit.ts *)

Record RateLimitEntry : Type := mkRateLimitEntry {
  rl_count : Z;
  rl_resetAt : Z }.

Definition WINDOW_MS : Z := 60 * 1000.

(** What the limiter reads of a request: the two headers and the path. *)
Record LimitedRequest : Type := mkLimitedRequest {
  lr_forwarded_for : option string;
  lr_real_ip : option string;
  lr_path : string }.

(** [a || b] on a header that may be missing. *)
Definition or_else (a : option string) (b : string) : string :=
  if truthy a then default "" a else b.

Definition rate_limit_key (req : LimitedRequest) : string :=
  let ip := or_else (lr_forwarded_for req) (or_else (lr_real_ip req) "unknown") in
  ip +:+ ":" +:+ lr_path req.

(** [Math.ceil(x / d)] on integers, for a positive [d]. *)
Definition ceil_div (x d : Z) : Z := (- ((- x) / d))%Z.

(** The limiter either hands the request on ([await next()]) or answers 429
    with [retryAfter]. *)
Inductive LimitOutcome : Type :=
  | PassedOn
  | TooManyRequests (retryAfter : Z).

Record LimitResponse : Type := mkLimitResponse {
  lo_outcome : LimitOutcome;
  X_RateLimit_Limit : Z;
  X_RateLimit_Remaining : Z;
  X_RateLimit_Reset : Z }.

(** The middleware [createRateLimiter(maxRequests)] on one request at time
    [now] ([Date.now()]), over the [windows] map. *)
Definition createRateLimiter (maxRequests : Z) (req : LimitedRequest) (now : Z)
    (windows : gmap string RateLimitEntry) : LimitResponse * gmap string RateLimitEntry :=
  let key := rate_limit_key req in
  let entry :=
    match windows !! key with
    | Some entry =>
        if (rl_resetAt entry <? now)%Z then mkRateLimitEntry 0 (now + WINDOW_MS) else entry
    | None => mkRateLimitEntry 0 (now + WINDOW_MS)
    end in
  let entry := mkRateLimitEntry (rl_count entry + 1) (rl_resetAt entry) in
  let windows := <[key := entry]> windows in
  let outcome :=
    if (maxRequests <? rl_count entry)%Z
    then TooManyRequests (ceil_div (rl_resetAt entry - now) 1000)
    else PassedOn in
  (mkLimitResponse outcome maxRequests (Z.max 0 (maxRequests - rl_count entry))
     (ceil_div (rl_resetAt entry) 1000),
   windows).

(** The periodic cleanup, run at time [now]. *)
Definition rate_limit_cleanup (now : Z) (windows : gmap string RateLimitEntry)
    : gmap string RateLimitEntry :=
  filter (fun kv : string * RateLimitEntry => ¬ (rl_resetAt kv.2 < now)%Z) windows.

(** The same request served at each of the [times], in turn. *)
Fixpoint serve_all (maxRequests : Z) (req : LimitedRequest) (times : list Z)
    (windows : gmap string RateLimitEntry) : list LimitResponse * gmap string RateLimitEntry :=
  match times with
  | [] => ([], windows)
  | t :: rest =>
      let '(r, windows1) := createRateLimiter maxRequests req t windows in
      let '(rs, windows2) := serve_all maxRequests req rest windows1 in
      (r :: rs, windows2)
  end.

(** With a clock that does not go back, no window ends more than one
    window length after the present. *)
Definition windows_ok (now : Z) (windows : gmap string RateLimitEntry) : Prop :=
  map_Forall (fun _ entry => (rl_resetAt entry <= now + WINDOW_MS)%Z /\ (0 <= rl_count entry)%Z)
    windows.

(** ** mcp/server.ts: the sanitiser of the tool handlers *)

(** The character class [[\x00-\x08\x0B\x0C\x0E-\x1F]]: the control
    characters other than tab, line feed and carriage return. *)
Definition is_control (c : Ascii.ascii) : bool :=
  let n := Ascii.nat_of_ascii c in
  (n <=? 8) || (n =? 11) || (n =? 12) || ((14 <=? n) && (n <=? 31)).

(** [s.replace(/[\x00-\x08\x0B\x0C\x0E-\x1F]/g, '')].  A string is the
    sequence of its bytes in UTF-8, where these characters are single bytes
    and occur in no other character. *)
Fixpoint strip_control (s : string) : string :=
  match s with
  | EmptyString => EmptyString
  | String c rest =>
      if is_control c then strip_control rest else String c (strip_control rest)
  end.

(** The characters of a string, in order. *)
Fixpoint characters (s : string) : list Ascii.ascii :=
  match s with
  | EmptyString => []
  | String c rest => c :: characters rest
  end.

(** ** auth/oauth.ts *)

Definition ACCESS_TOKEN_TTL : Z := 60 * 60 * 1000.
Definition REFRESH_TOKEN_TTL : Z := 30 * 24 * 60 * 60 * 1000.
Definition AUTH_CODE_TTL : Z := 5 * 60 * 1000.

(** The values of the three in-memory maps.  A field that the handler took
    from a request body without checking it may be [undefined]. *)
Record AuthCode : Type := mkAuthCode {
  ac_client_id : option string;
  ac_code_challenge : option string;
  ac_redirect_uri : option string;
  ac_expires_at : Z }.

Record AccessToken : Type := mkAccessToken {
  at_client_id : option string;
  at_expires_at : Z }.

Record RefreshToken : Type := mkRefreshToken {
  rt_client_id : option string;
  rt_access_token : string;
  rt_expires_at : Z }.

(** The maps [authCodes], [accessTokens] and [refreshTokens], and the
    number of identifiers drawn from [randomUUID] so far. *)
Record OAuthStore : Type := mkOAuthStore {
  authCodes : gmap string AuthCode;
  accessTokens : gmap string AccessToken;
  refreshTokens : gmap string RefreshToken;
  drawn : nat }.

(** The fields the token endpoint reads of the parsed body. *)
Record TokenRequest : Type := mkTokenRequest {
  tr_grant_type : option string;
  tr_code : option string;
  tr_code_verifier : option string;
  tr_redirect_uri : option string;
  tr_refresh_token : option string }.

(** The answers of the token endpoint: the token pair (200, with
    [token_type: 'Bearer']) or an error (400). *)
Inductive TokenResponse : Type :=
  | Tokens (access_token : string) (expires_in : Z) (refresh_token : string)
  | BadRequest (error : string) (error_description : option string).

(** The configuration [bearerAuth] reads. *)
Record AuthConfig : Type := mkAuthConfig {
  oauthIssuer : option string;
  config_token : option string }.

(** The answers of [bearerAuth]: [next()], or 401 with its error, its
    description and the [WWW-Authenticate] header when one is set. *)
Inductive AuthResponse : Type :=
  | Authorized
  | Unauthorized (error error_description : string) (www_authenticate : option string).

(** [auth.slice(7)] *)
Definition bearer_token (auth : string) : string :=
  String.substring 7 (String.length auth - 7) auth.

Section OAuth.

(** [sha256 s] is [createHash('sha256').update(s).digest('base64url')] and
    [uuid k] the k-th identifier of [randomUUID]. *)
Variable sha256 : string -> string.
Variable uuid : nat -> string.

(** The two new entries a grant adds; [now1] and [now2] are the two later
    readings of the clock. *)
Definition issue_tokens (client_id : option string) (now1 now2 : Z) (st : OAuthStore)
    : TokenResponse * OAuthStore :=
  let accessToken := uuid (drawn st) in
  let refreshToken := uuid (S (drawn st)) in
  (Tokens accessToken (ACCESS_TOKEN_TTL / 1000) refreshToken,
   mkOAuthStore (authCodes st)
     (<[accessToken := mkAccessToken client_id (now1 + ACCESS_TOKEN_TTL)]> (accessTokens st))
     (<[refreshToken := mkRefreshToken client_id accessToken (now2 + REFRESH_TOKEN_TTL)]>
        (refreshTokens st))
     (S (S (drawn st)))).

(** The handler of [POST /token]; [now], [now1] and [now2] are the readings
    of [Date.now()], in the order the handler takes them. *)
Definition token (req : TokenRequest) (now now1 now2 : Z) (st : OAuthStore)
    : outcome TokenResponse * OAuthStore :=
  if bool_decide (tr_grant_type req = Some "authorization_code") then
    match tr_code req with
    | None => (Ok (BadRequest "invalid_grant" (Some "Invalid or expired authorization code")), st)
    | Some code =>
        match authCodes st !! code with
        | None =>
            (Ok (BadRequest "invalid_grant" (Some "Invalid or expired authorization code")), st)
        | Some authCode =>
            match tr_code_verifier req with
            | None => (Throw (TypeError "ERR_INVALID_ARG_TYPE"), st)
            | Some codeVerifier =>
                if bool_decide (Some (sha256 codeVerifier) ≠ ac_code_challenge authCode) then
                  (Ok (BadRequest "invalid_grant" (Some "PKCE verification failed")), st)
                else if bool_decide (ac_redirect_uri authCode ≠ tr_redirect_uri req) then
                  (Ok (BadRequest "invalid_grant" (Some "redirect_uri mismatch")), st)
                else
                  let st1 := mkOAuthStore (delete code (authCodes st)) (accessTokens st)
                               (refreshTokens st) (drawn st) in
                  if (ac_expires_at authCode <? now)%Z then
                    (Ok (BadRequest "invalid_grant" (Some "Authorization code expired")), st1)
                  else
                    let '(response, st2) := issue_tokens (ac_client_id authCode) now1 now2 st1 in
                    (Ok response, st2)
            end
        end
    end
  else if bool_decide (tr_grant_type req = Some "refresh_token") then
    match tr_refresh_token req ≫= (fun old => (fun stored => (old, stored)) <$> refreshTokens st !! old) with
    | None => (Ok (BadRequest "invalid_grant" (Some "Invalid or expired refresh token")), st)
    | Some (old, stored) =>
        let st1 := mkOAuthStore (authCodes st) (accessTokens st)
                     (delete old (refreshTokens st)) (drawn st) in
        if (rt_expires_at stored <? now)%Z then
          (Ok (BadRequest "invalid_grant" (Some "Invalid or expired refresh token")), st1)
        else
          let st2 := mkOAuthStore (authCodes st1) (delete (rt_access_token stored) (accessTokens st1))
                       (refreshTokens st1) (drawn st1) in
          let '(response, st3) := issue_tokens (rt_client_id stored) now1 now2 st2 in
          (Ok response, st3)
    end
  else (Ok (BadRequest "unsupported_grant_type" None), st).

End OAuth.

(** The middleware [bearerAuth] on the [Authorization] header of a request
    at time [now]. *)
Definition bearerAuth (config : AuthConfig) (auth : option string) (now : Z) (st : OAuthStore)
    : AuthResponse * OAuthStore :=
  if negb (truthy (oauthIssuer config)) then
    if truthy (config_token config) then
      if negb (truthy auth)
         || negb (String.eqb (default "" auth) ("Bearer " +:+ default "" (config_token config)))
      then (Unauthorized "unauthorized" "Invalid or missing token" None, st)
      else (Authorized, st)
    else (Authorized, st)
  else if negb (truthy auth) || negb (String.prefix "Bearer " (default "" auth)) then
    (Unauthorized "unauthorized" "Bearer token required" (Some "Bearer"), st)
  else
    let token := bearer_token (default "" auth) in
    match accessTokens st !! token with
    | None =>
        (Unauthorized "invalid_token" "Unknown or expired token"
           (Some ("Bearer error=" +:+ dquote +:+ "invalid_token" +:+ dquote)), st)
    | Some stored =>
        if (at_expires_at stored <? now)%Z then
          (Unauthorized "invalid_token" "Token expired"
             (Some ("Bearer error=" +:+ dquote +:+ "invalid_token" +:+ dquote)),
           mkOAuthStore (authCodes st) (delete token (accessTokens st)) (refreshTokens st)
             (drawn st))
        else (Authorized, st)
    end.

(** The periodic cleanup of the three maps, run at time [now]. *)
Definition oauth_cleanup (now : Z) (st : OAuthStore) : OAuthStore :=
  mkOAuthStore
    (filter (fun kv : string * AuthCode => ¬ (ac_expires_at kv.2 < now)%Z) (authCodes st))
    (filter (fun kv : string * AccessToken => ¬ (at_expires_at kv.2 < now)%Z) (accessTokens st))
    (filter (fun kv : string * RefreshToken => ¬ (rt_expires_at kv.2 < now)%Z) (refreshTokens st))
    (drawn st).

(** ** Sample data, used to run the definitions on concrete inputs *)

(** A generator of distinct, non-empty identifiers. *)
Definition sample_uuid (k : nat) : string := "id-" +:+ pretty k.

Definition t0 : string := "2026-01-01 00:00:00".

(** Two entities, [k] and [m], one observation and one embedding each, and
    one relationship between them: what two [remember] calls leave behind. *)
Definition sample_world : World :=
  mkWorld
    [ mkEntity "id-0" "k" None t0 t0;
      mkEntity "id-3" "m" None t0 t0 ]
    [ mkObservation "id-1" "id-0" "PhD in atmospheric physics" (Some "chat") t0;
      mkObservation "id-4" "id-3" "likes tea" None t0 ]
    [ mkStoredEmbedding "id-2" "id-0" "id-1" [1; 0]%Q "PhD in atmospheric physics" t0;
      mkStoredEmbedding "id-5" "id-3" "id-4" [0; 1]%Q "likes tea" t0 ]
    [ mkRelationship "id-6" "id-0" "id-3" "relates_to" t0 ]
    7 t0.

(** An embedder that is down, one that knows two directions, a [LIKE] and a
    name matcher that compare for equality. *)
Definition embedder_down (text : string) : option (list Q) := None.
Definition sample_embedder (text : string) : option (list Q) :=
  if String.eqb text "likes tea" then Some [0; 1]%Q else Some [1; 0]%Q.
Definition sample_like (pattern text : string) : bool :=
  String.eqb pattern ("%" +:+ text +:+ "%").
Definition sample_mentions (name content : string) : bool := String.eqb name content.
Definition sample_print (x : Q) : string := "0".

(** One entity with three observations whose vectors make a chain: the
    first and the third are orthogonal, the second is at cosine 0.6 from the
    first and 0.8 from the third. *)
Definition chain_world : World :=
  mkWorld
    [ mkEntity "id-0" "k" None t0 t0 ]
    [ mkObservation "id-1" "id-0" "north" None t0;
      mkObservation "id-3" "id-0" "north-east" None t0;
      mkObservation "id-5" "id-0" "east" None t0 ]
    [ mkStoredEmbedding "id-2" "id-0" "id-1" [1; 0]%Q "north" t0;
      mkStoredEmbedding "id-4" "id-0" "id-3" [3 # 5; 4 # 5]%Q "north-east" t0;
      mkStoredEmbedding "id-6" "id-0" "id-5" [0; 1]%Q "east" t0 ]
    []
    7 t0.

(** Two entities with names long enough to be detected, one observation
    without an embedding, and no relationship. *)
Definition sparse_world : World :=
  mkWorld
    [ mkEntity "id-0" "alice" None t0 t0;
      mkEntity "id-1" "bob" None t0 t0 ]
    [ mkObservation "id-2" "id-0" "met bob" None t0 ]
    []
    []
    3 t0.

(** A hash that tags its input, an OAuth store with one authorization code
    and one pair of tokens, and a request behind a proxy. *)
Definition sample_sha256 (s : string) : string := "sha256:" +:+ s.

Definition sample_oauth : OAuthStore :=
  mkOAuthStore
    {[ "code-1" := mkAuthCode (Some "client") (Some "sha256:verifier")
                     (Some "https://app/cb") 1000%Z ]}
    {[ "access-1" := mkAccessToken (Some "client") 5000%Z ]}
    {[ "refresh-1" := mkRefreshToken (Some "client") "access-1" 9000%Z ]}
    0.

Definition sample_request : LimitedRequest :=
  mkLimitedRequest (Some "203.0.113.7") None "/mcp".

(** ** The engine *)

Section Engine.

(** What the engine takes from outside the repository:
    - [uuid k] is the k-th identifier [crypto.randomUUID] hands out;
    - [embedder text] is the vector the embedding pipeline computes, [None]
      when the pipeline rejects (model missing, inference error);
    - [like pattern text] is SQLite's [text LIKE pattern];
    - [mentions name content] is [pattern.test(content)] for the
      word-boundary, case-insensitive [RegExp] that remember.ts builds from
      a candidate entity name;
    - [toFixed3] and [number_to_string] print a number. *)
Variable uuid : nat -> string.
Variable embedder : string -> option (list Q).
Variable like : string -> string -> bool.
Variable mentions : string -> string -> bool.
(** [x.toFixed(3)] and [String(x)] on a number, used in messages only. *)
Variable toFixed3 : Q -> string.
Variable number_to_string : Q -> string.

Definition randomUUID : M string :=
  fun w => (Ok (uuid (rng w)), set_rng (S (rng w)) w).

(** *** db/entities.ts *)

Definition select_entity_by_id (w : World) (id : string) : option Entity :=
  first_row (filter (fun e => e_id e = id) (entities w)).
Definition select_entity_by_name (w : World) (name : string) : option Entity :=
  first_row (filter (fun e => e_name e = name) (entities w)).

Definition findEntityById (id : string) : M (option Entity) :=
  w <- get ;; ret (select_entity_by_id w id).

Definition findEntityByName (name : string) : M (option Entity) :=
  w <- get ;; ret (select_entity_by_name w name).

(** [INSERT INTO entities]: [id] is the primary key and [name] is UNIQUE. *)
Definition insertEntity (id name : string) (type : option string) : M unit :=
  w <- get ;;
  if bool_decide (id ∈ e_id <$> entities w) then
    throw (SqliteError "UNIQUE constraint failed: entities.id")
  else if bool_decide (name ∈ e_name <$> entities w) then
    throw (SqliteError "UNIQUE constraint failed: entities.name")
  else
    modify (set_entities (fun es => es ++ [mkEntity id name type (now w) (now w)])).

Definition findOrCreateEntity (name : string) (type : option string) : M Entity :=
  existing <- findEntityByName name ;;
  match existing with
  | Some e => ret e
  | None =>
      id <- randomUUID ;;
      insertEntity id name type ;;;
      row <- findEntityById id ;;
      match row with
      | Some e => ret e
      | None => throw (TypeError "Cannot read properties of undefined")
      end
  end.

Definition listEntities (type : option string) (limit : option nat) : M (list Entity) :=
  w <- get ;;
  let limit := nullish limit 100 in
  if truthy type then
    ret (slice0 limit (order_by_desc e_updated_at
           (filter (fun e => e_type e = type) (entities w))))
  else
    ret (slice0 limit (order_by_desc e_updated_at (entities w))).

Definition updateEntityTimestamp (id : string) : M unit :=
  w <- get ;;
  modify (set_entities (fmap (fun e =>
    if bool_decide (e_id e = id)
    then mkEntity (e_id e) (e_name e) (e_type e) (e_created_at e) (now w)
    else e))).

(** [ON DELETE CASCADE]: rows that reference a deleted row go with it. *)
Definition cascade_observation (id : string) (w : World) : World :=
  set_embeddings (filter (fun m => emb_observation_id m ≠ id)) w.

Definition cascade_entity (id : string) (w : World) : World :=
  let gone := o_id <$> filter (fun o => o_entity_id o = id) (observations w) in
  set_relationships (filter (fun r => r_from_entity r ≠ id ∧ r_to_entity r ≠ id))
    (set_embeddings (filter (fun m => emb_entity_id m ≠ id ∧ emb_observation_id m ∉ gone))
       (set_observations (filter (fun o => o_entity_id o ≠ id)) w)).

Definition deleteEntity (id : string) : M bool :=
  w <- get ;;
  let changes := length (filter (fun e => e_id e = id) (entities w)) in
  modify (fun w => cascade_entity id (set_entities (filter (fun e => e_id e ≠ id)) w)) ;;;
  ret (0 <? changes).

(** *** db/observations.ts *)

Definition insertObservation (id entityId content : string) (source : option string) : M unit :=
  w <- get ;;
  if bool_decide (id ∈ o_id <$> observations w) then
    throw (SqliteError "UNIQUE constraint failed: observations.id")
  else if bool_decide (entityId ∉ e_id <$> entities w) then
    throw (SqliteError "FOREIGN KEY constraint failed")
  else
    modify (set_observations (fun os => os ++ [mkObservation id entityId content source (now w)])).

Definition createObservation (entityId content : string) (source : option string) : M Observation :=
  id <- randomUUID ;;
  insertObservation id entityId content source ;;;
  updateEntityTimestamp entityId ;;;
  w <- get ;;
  match first_row (filter (fun o => o_id o = id) (observations w)) with
  | Some o => ret o
  | None => throw (TypeError "Cannot read properties of undefined")
  end.

Definition getObservationsByEntity (entityId : string) : M (list Observation) :=
  w <- get ;;
  ret (order_by_desc o_created_at (filter (fun o => o_entity_id o = entityId) (observations w))).

(** A row of [ObservationWithEntity]: the observation joined with its entity. *)
Definition ObservationWithEntity : Type := Observation * Entity.

Definition join_entity (w : World) (entityId : string) : list Entity :=
  filter (fun e => e_id e = entityId) (entities w).

Definition select_observations (w : World) (query : string) (limit : option nat)
    (type since : option string) : list ObservationWithEntity :=
  let limit := Nat.min (nullish limit 10) 50 in
  let searchTerm := "%" +:+ query +:+ "%" in
  let joined := o ← observations w; e ← join_entity w (o_entity_id o); [(o, e)] in
  let matching := filter (fun oe : ObservationWithEntity =>
      (like searchTerm (o_content oe.1) || like searchTerm (e_name oe.2))
      ∧ (truthy type → e_type oe.2 = type)
      ∧ (truthy since → String.leb (default "" since) (o_created_at oe.1))) joined in
  slice0 limit (order_by_desc (fun oe => o_created_at oe.1) matching).

Definition searchObservations (query : string) (limit : option nat)
    (type since : option string) : M (list ObservationWithEntity) :=
  w <- get ;; ret (select_observations w query limit type since).

(** [new Map(pairs)]: a later pair with the same key overwrites an earlier one. *)
Definition js_map_of {A} (pairs : list (string * A)) : gmap string A :=
  list_to_map (reverse pairs).

Definition getObservationsByIds (ids : list string) : M (list Observation) :=
  match ids with
  | [] => ret []
  | _ =>
      w <- get ;;
      let rows := filter (fun o => o_id o ∈ ids) (observations w) in
      let byId := js_map_of ((fun r => (o_id r, r)) <$> rows) in
      ret (omap (fun id => byId !! id) ids)
  end.

Definition deleteObservationsByEntity (entityId : string) : M nat :=
  w <- get ;;
  let gone := filter (fun o => o_entity_id o = entityId) (observations w) in
  modify (fun w =>
    set_embeddings (filter (fun m => emb_observation_id m ∉ o_id <$> gone))
      (set_observations (filter (fun o => o_entity_id o ≠ entityId)) w)) ;;;
  ret (length gone).

Definition deleteObservation (id : string) : M bool :=
  w <- get ;;
  let changes := length (filter (fun o => o_id o = id) (observations w)) in
  modify (fun w => cascade_observation id (set_observations (filter (fun o => o_id o ≠ id)) w)) ;;;
  ret (0 <? changes).

(** *** db/relationships.ts *)

Definition insertRelationship (id fromEntityId toEntityId relationType : string) : M unit :=
  w <- get ;;
  if bool_decide (id ∈ r_id <$> relationships w) then
    throw (SqliteError "UNIQUE constraint failed: relationships.id")
  else if bool_decide (fromEntityId ∉ e_id <$> entities w ∨ toEntityId ∉ e_id <$> entities w) then
    throw (SqliteError "FOREIGN KEY constraint failed")
  else
    modify (set_relationships (fun rs =>
      rs ++ [mkRelationship id fromEntityId toEntityId relationType (now w)])).

Definition createRelationship (fromEntityId toEntityId relationType : string) : M Relationship :=
  id <- randomUUID ;;
  insertRelationship id fromEntityId toEntityId relationType ;;;
  w <- get ;;
  match first_row (filter (fun r => r_id r = id) (relationships w)) with
  | Some r => ret r
  | None => throw (TypeError "Cannot read properties of undefined")
  end.

(** What [getRelatedEntities] records for a visited entity. *)
Record RelatedEntity : Type := mkRelated {
  rel_depth : nat;
  rel_name : string;
  rel_type : option string }.

(** The prepared statement of [getRelatedEntities], run for [current]: one
    row per relationship that has [current] at either end, joined with the
    entity at the other end. *)
Definition related_id (current : string) (r : Relationship) : string :=
  if bool_decide (r_from_entity r = current) then r_to_entity r else r_from_entity r.

Definition related_rows (w : World) (current : string) : list (string * string * option string) :=
  r ← filter (fun r => r_from_entity r = current ∨ r_to_entity r = current) (relationships w);
  e ← filter (fun e => e_id e = related_id current r) (entities w);
  [(related_id current r, e_name e, e_type e)].

(** One turn of the [while] loop, after [queue.shift()] gave [current]. *)
Definition bfs_visit (w : World) (entityId : string) (maxDepth : nat)
    (current : string * nat) (queue : list (string * nat))
    (visited : gmap string RelatedEntity)
    : list (string * nat) * gmap string RelatedEntity :=
  if bool_decide (is_Some (visited !! current.1)) || (maxDepth <? current.2) then
    (queue, visited)
  else
    let visited' :=
      if bool_decide (current.1 ≠ entityId) then
        match select_entity_by_id w current.1 with
        | Some e => <[current.1 := mkRelated current.2 (e_name e) (e_type e)]> visited
        | None => visited
        end
      else <[current.1 := mkRelated 0 "" None]> visited in
    let queue' :=
      if current.2 <? maxDepth then
        queue ++ ((fun r : string * string * option string => (r.1.1, S current.2)) <$>
                  filter (fun r => visited' !! r.1.1 = None) (related_rows w current.1))
      else queue in
    (queue', visited').

(** The [while (queue.length > 0)] loop.  [fuel] bounds the number of turns;
    [None] means the bound was too small. *)
Fixpoint bfs_loop (w : World) (entityId : string) (maxDepth : nat) (fuel : nat)
    (queue : list (string * nat)) (visited : gmap string RelatedEntity)
    : option (gmap string RelatedEntity) :=
  match queue with
  | [] => Some visited
  | current :: rest =>
      match fuel with
      | 0 => None
      | S fuel' =>
          let '(queue', visited') := bfs_visit w entityId maxDepth current rest visited in
          bfs_loop w entityId maxDepth fuel' queue' visited'
      end
  end.

(** Every turn takes one entry off the queue and only the first visit of a
    node adds entries, one per row of its statement at most. *)
Definition bfs_fuel (w : World) (entityId : string) : nat :=
  S (sum_list ((fun x => length (related_rows w x)) <$> (entityId :: (e_id <$> entities w)))).

Definition getRelatedEntities (w : World) (entityId : string) (maxDepth : nat)
    : option (gmap string RelatedEntity) :=
  visited ← bfs_loop w entityId maxDepth (bfs_fuel w entityId) [(entityId, 0)] ∅;
  Some (delete entityId visited).

Definition relationshipExists (entityIdA entityIdB : string) : M bool :=
  w <- get ;;
  ret (bool_decide (Exists (fun r =>
         (r_from_entity r = entityIdA ∧ r_to_entity r = entityIdB)
         ∨ (r_from_entity r = entityIdB ∧ r_to_entity r = entityIdA)) (relationships w))).

Definition deleteRelationshipsByEntity (entityId : string) : M nat :=
  w <- get ;;
  let gone := filter (fun r => r_from_entity r = entityId ∨ r_to_entity r = entityId) (relationships w) in
  modify (set_relationships (filter (fun r => ¬ (r_from_entity r = entityId ∨ r_to_entity r = entityId)))) ;;;
  ret (length gone).

(** *** embeddings/embedder.ts *)

Definition generateEmbedding (text : string) : M (list Q) :=
  match embedder text with
  | Some v => ret v
  | None => throw EmbedderError
  end.

Definition insertEmbedding (id entityId observationId : string) (vector : list Q)
    (textContent : string) : M unit :=
  w <- get ;;
  if bool_decide (id ∈ emb_id <$> embeddings w) then
    throw (SqliteError "UNIQUE constraint failed: embeddings.id")
  else if bool_decide (entityId ∉ e_id <$> entities w ∨ observationId ∉ o_id <$> observations w) then
    throw (SqliteError "FOREIGN KEY constraint failed")
  else
    modify (set_embeddings (fun ms =>
      ms ++ [mkStoredEmbedding id entityId observationId vector textContent (now w)])).

Definition storeEmbedding (entityId observationId : string) (vector : list Q)
    (textContent : string) : M string :=
  id <- randomUUID ;;
  insertEmbedding id entityId observationId vector textContent ;;;
  ret id.

Record StoredVector : Type := mkStoredVector {
  sv_observation_id : string;
  sv_entity_id : string;
  sv_entity_name : string;
  sv_entity_type : option string;
  sv_content : string;
  sv_source : option string;
  sv_created_at : string;
  sv_vector : list Q }.

(** [embeddings JOIN observations JOIN entities], in scan order. *)
Definition embedding_rows (w : World) : list (StoredEmbedding * Observation * Entity) :=
  m ← embeddings w;
  o ← filter (fun o => o_id o = emb_observation_id m) (observations w);
  e ← filter (fun e => e_id e = emb_entity_id m) (entities w);
  [(m, o, e)].

Definition to_stored_vector (row : StoredEmbedding * Observation * Entity) : StoredVector :=
  let '(m, o, e) := row in
  mkStoredVector (emb_observation_id m) (emb_entity_id m) (e_name e) (e_type e)
    (o_content o) (o_source o) (o_created_at o) (emb_vector m).

Definition select_embeddings (w : World) (entityId : option string) : list StoredVector :=
  let rows :=
    if truthy entityId
    then filter (fun row : StoredEmbedding * Observation * Entity =>
                   Some (emb_entity_id row.1.1) = entityId) (embedding_rows w)
    else embedding_rows w in
  to_stored_vector <$> rows.

Definition getEmbeddingsByEntity (entityId : option string) : M (list StoredVector) :=
  w <- get ;; ret (select_embeddings w entityId).

Record SemanticSearchResult : Type := mkSemanticSearchResult {
  ss_observation_id : string;
  ss_entity_id : string;
  ss_entity_name : string;
  ss_entity_type : option string;
  ss_content : string;
  ss_source : option string;
  ss_created_at : string;
  ss_similarity : Q }.

Definition score (queryVector : list Q) (row : StoredEmbedding * Observation * Entity)
    : SemanticSearchResult :=
  let '(m, o, e) := row in
  mkSemanticSearchResult (emb_observation_id m) (emb_entity_id m) (e_name e) (e_type e)
    (o_content o) (o_source o) (o_created_at o)
    (cosineSimilarity queryVector (emb_vector m)).

(** [scored.sort((a, b) => b.similarity - a.similarity)] *)
Definition sort_by_similarity (l : list SemanticSearchResult) : list SemanticSearchResult :=
  sort_by (fun a b => Qge_bool (ss_similarity a) (ss_similarity b)) l.

(** The scan of [semanticSearch], once the query is embedded. *)
Definition select_scored (w : World) (queryVector : list Q) (limit : nat)
    (type since : option string) : list SemanticSearchResult :=
  let rows := filter (fun row : StoredEmbedding * Observation * Entity =>
      (truthy type → e_type row.2 = type)
      ∧ (truthy since → String.leb (default "" since) (o_created_at row.1.2)))
    (embedding_rows w) in
  let scored := score queryVector <$> rows in
  slice0 limit (sort_by_similarity scored).

Definition semanticSearch (query : string) (limit : option nat)
    (type since : option string) : M (list SemanticSearchResult) :=
  let limit := nullish limit 10 in
  queryVector <- generateEmbedding query ;;
  w <- get ;;
  ret (select_scored w queryVector limit type since).

Definition deleteEmbedding (observationId : string) : M bool :=
  w <- get ;;
  let changes := length (filter (fun m => emb_observation_id m = observationId) (embeddings w)) in
  modify (set_embeddings (filter (fun m => emb_observation_id m ≠ observationId))) ;;;
  ret (0 <? changes).

Definition deleteEmbeddingsByEntity (entityId : string) : M nat :=
  w <- get ;;
  let gone := filter (fun m => emb_entity_id m = entityId) (embeddings w) in
  modify (set_embeddings (filter (fun m => emb_entity_id m ≠ entityId))) ;;;
  ret (length gone).

(** *** mcp/tools/remember.ts *)

Definition DEDUP_THRESHOLD : Q := 85 # 100.

Record RememberInput : Type := mkRememberInput {
  ri_content : string;
  ri_entity : option string;
  ri_type : option string;
  ri_source : option string }.

Record RememberResult : Type := mkRememberResult {
  rr_success : bool;
  rr_entityId : string;
  rr_entityName : string;
  rr_observationId : string;
  rr_relationships_created : list string;
  rr_message : string;
  rr_deduplicated : option bool;
  rr_replaced_observation : option string }.

(** The dedup scan: [bestMatch] is the pair (similarity, index). *)
Fixpoint scan_best_match (vector : list Q) (existing : list StoredVector) (i : nat)
    (bestMatch : option (Q * nat)) : option (Q * nat) :=
  match existing with
  | [] => bestMatch
  | x :: rest =>
      let sim := cosineSimilarity vector (sv_vector x) in
      let bestMatch' :=
        if Qge_bool sim DEDUP_THRESHOLD
           && match bestMatch with
              | None => true
              | Some b => Qgt_bool sim b.1
              end
        then Some (sim, i)
        else bestMatch in
      scan_best_match vector rest (S i) bestMatch'
  end.

Definition SKIP_ENTITIES : list string := ["general"].
Definition MIN_NAME_LENGTH : nat := 3.

(** The body of the loop over the candidates. *)
Definition detect_candidate (sourceEntity : Entity) (content : string)
    (created : list string) (candidate : Entity) : M (list string) :=
  if bool_decide (e_id candidate = e_id sourceEntity) then ret created
  else if bool_decide (e_name candidate ∈ SKIP_ENTITIES) then ret created
  else if String.length (e_name candidate) <? MIN_NAME_LENGTH then ret created
  else if mentions (e_name candidate) content then
    present <- relationshipExists (e_id sourceEntity) (e_id candidate) ;;
    if negb present then
      createRelationship (e_id sourceEntity) (e_id candidate) "relates_to" ;;;
      ret (created ++ [e_name candidate])
    else ret created
  else ret created.

Definition detectAndCreateRelationships (sourceEntity : Entity) (content : string)
    : M (list string) :=
  candidates <- listEntities None (Some 500) ;;
  forM candidates [] (detect_candidate sourceEntity content).

Definition remember (input : RememberInput) : M RememberResult :=
  let entityName := if truthy (ri_entity input) then default "" (ri_entity input) else "general" in
  entity <- findOrCreateEntity entityName (ri_type input) ;;
  vector <- generateEmbedding (ri_content input) ;;
  existing <- getEmbeddingsByEntity (Some (e_id entity)) ;;
  match scan_best_match vector existing 0 None with
  | Some (similarity, index) =>
      match existing !! index with
      | None => throw (TypeError "Cannot read properties of undefined")
      | Some match_ =>
          if String.length (ri_content input) <=? String.length (sv_content match_) then
            ret (mkRememberResult true (e_id entity) (e_name entity)
                   (sv_observation_id match_) []
                   ("Deduplicated: similar observation already exists for " +:+ dquote +:+ e_name entity
                      +:+ dquote +:+ " (similarity: " +:+ toFixed3 similarity +:+ ")")
                   (Some true) None)
          else
            let replacedContent := sv_content match_ in
            deleteEmbedding (sv_observation_id match_) ;;;
            deleteObservation (sv_observation_id match_) ;;;
            observation <- createObservation (e_id entity) (ri_content input) (ri_source input) ;;
            storeEmbedding (e_id entity) (o_id observation) vector (ri_content input) ;;;
            relationshipsCreated <- detectAndCreateRelationships entity (ri_content input) ;;
            ret (mkRememberResult true (e_id entity) (e_name entity)
                   (o_id observation) relationshipsCreated
                   ("Replaced shorter duplicate for " +:+ dquote +:+ e_name entity
                      +:+ dquote +:+ " (similarity: " +:+ toFixed3 similarity +:+ ")")
                   None (Some replacedContent))
      end
  | None =>
      observation <- createObservation (e_id entity) (ri_content input) (ri_source input) ;;
      storeEmbedding (e_id entity) (o_id observation) vector (ri_content input) ;;;
      relationshipsCreated <- detectAndCreateRelationships entity (ri_content input) ;;
      ret (mkRememberResult true (e_id entity) (e_name entity)
             (o_id observation) relationshipsCreated
             ("Remembered: " +:+ dquote +:+ String.substring 0 50 (ri_content input)
                +:+ (if 50 <? String.length (ri_content input) then "..." else "")
                +:+ dquote +:+ " for entity " +:+ dquote +:+ e_name entity +:+ dquote)
             None None)
  end.

(** *** mcp/tools/forget.ts *)

Record ForgetInput : Type := mkForgetInput {
  fi_entity : option string;
  fi_observation_id : option string }.

Record Deleted : Type := mkDeleted {
  d_observations : nat;
  d_embeddings : nat;
  d_relationships : nat;
  d_entity : bool }.

Record ForgetResult : Type := mkForgetResult {
  fr_success : bool;
  fr_message : string;
  fr_deleted : Deleted }.

Definition forget (input : ForgetInput) : M ForgetResult :=
  if negb (truthy (fi_entity input)) && negb (truthy (fi_observation_id input)) then
    ret (mkForgetResult false "Either entity name or observation_id is required."
           (mkDeleted 0 0 0 false))
  else if truthy (fi_observation_id input) then
    let observation_id := default "" (fi_observation_id input) in
    embDeleted <- deleteEmbedding observation_id ;;
    obsDeleted <- deleteObservation observation_id ;;
    ret (mkForgetResult obsDeleted
           (if obsDeleted
            then "Deleted observation " +:+ observation_id +:+ "."
            else "Observation " +:+ observation_id +:+ " not found.")
           (mkDeleted (if obsDeleted then 1 else 0) (if embDeleted then 1 else 0) 0 false))
  else
    let name := default "" (fi_entity input) in
    entity <- findEntityByName name ;;
    match entity with
    | None =>
        ret (mkForgetResult false ("Entity " +:+ dquote +:+ name +:+ dquote +:+ " not found.")
               (mkDeleted 0 0 0 false))
    | Some entity =>
        embCount <- deleteEmbeddingsByEntity (e_id entity) ;;
        obsCount <- deleteObservationsByEntity (e_id entity) ;;
        relCount <- deleteRelationshipsByEntity (e_id entity) ;;
        entityDeleted <- deleteEntity (e_id entity) ;;
        ret (mkForgetResult true
               ("Forgot entity " +:+ dquote +:+ name +:+ dquote +:+ " and all associated data.")
               (mkDeleted obsCount embCount relCount entityDeleted))
    end.

(** *** mcp/tools/recall.ts *)

Definition SIMILARITY_THRESHOLD : Q := 15 # 100.

Record RecallInput : Type := mkRecallInput {
  rc_query : string;
  rc_limit : nat;
  rc_type : option string;
  rc_since : option string }.

Record MemoryResult : Type := mkMemoryResult {
  m_observation_id : string;
  m_entity : string;
  m_type : option string;
  m_content : string;
  m_source : option string;
  m_remembered_at : string;
  m_similarity : option Q }.

Record RecallResult : Type := mkRecallResult {
  rcr_success : bool;
  rcr_count : nat;
  rcr_memories : list MemoryResult }.

Definition formatObservation (obs : ObservationWithEntity) : MemoryResult :=
  mkMemoryResult (o_id obs.1) (e_name obs.2) (e_type obs.2) (o_content obs.1)
    (o_source obs.1) (o_created_at obs.1) None.

Definition formatSemantic (r : SemanticSearchResult) : MemoryResult :=
  mkMemoryResult (ss_observation_id r) (ss_entity_name r) (ss_entity_type r) (ss_content r)
    (ss_source r) (ss_created_at r) (Some (round3 (ss_similarity r))).

(** The two merging loops; the state is the [seen] set and the [memories]
    array. *)
Definition push_semantic (st : gset string * list MemoryResult) (r : SemanticSearchResult)
    : gset string * list MemoryResult :=
  if Qlt_bool (ss_similarity r) SIMILARITY_THRESHOLD then st
  else if bool_decide (ss_observation_id r ∈ st.1) then st
  else ({[ss_observation_id r]} ∪ st.1, st.2 ++ [formatSemantic r]).

Definition push_keyword (st : gset string * list MemoryResult) (obs : ObservationWithEntity)
    : gset string * list MemoryResult :=
  if bool_decide (o_id obs.1 ∈ st.1) then st
  else ({[o_id obs.1]} ∪ st.1, st.2 ++ [formatObservation obs]).

Definition recall (input : RecallInput) : M RecallResult :=
  semanticResults <-
    catch (semanticSearch (rc_query input) (Some (rc_limit input)) (rc_type input) (rc_since input))
          (fun _ => ret []) ;;
  keywordResults <-
    searchObservations (rc_query input) (Some (rc_limit input)) (rc_type input) (rc_since input) ;;
  let st := foldl push_keyword (foldl push_semantic (∅, []) semanticResults) keywordResults in
  let limited := slice0 (rc_limit input) st.2 in
  ret (mkRecallResult true (length limited) limited).

(** *** mcp/tools/merge.ts *)

Record MergeInput : Type := mkMergeInput {
  mi_observation_ids : list string;
  mi_content : string }.

Record MergeResult : Type := mkMergeResult {
  mr_success : bool;
  mr_new_observation_id : string;
  mr_merged_count : nat;
  mr_entity_name : string;
  mr_message : string }.

(** [observations.find(o => o.source !== null)?.source ?? null] *)
Definition first_source (observations : list Observation) : option string :=
  o ← head (filter (fun o => o_source o ≠ None) observations); o_source o.

Definition merge (input : MergeInput) : M MergeResult :=
  observations <- getObservationsByIds (mi_observation_ids input) ;;
  let foundIds : gset string := list_to_set (o_id <$> observations) in
  let missingIds := filter (fun id => id ∉ foundIds) (mi_observation_ids input) in
  if 0 <? length missingIds then
    throw (Error ("Observations not found: " +:+ String.concat ", " missingIds))
  else
    let entityIds : gset string := list_to_set (o_entity_id <$> observations) in
    if 1 <? size entityIds then
      throw (Error "All observations must belong to the same entity. Found observations from multiple entities.")
    else
      match observations with
      | [] => throw (TypeError "Cannot read properties of undefined (reading 'entity_id')")
      | first :: _ =>
          let entityId := o_entity_id first in
          entity <- findEntityById entityId ;;
          match entity with
          | None => throw (Error ("Entity " +:+ entityId +:+ " not found."))
          | Some entity =>
              let source := first_source observations in
              vector <- generateEmbedding (mi_content input) ;;
              newObservation <- createObservation entityId (mi_content input) source ;;
              storeEmbedding entityId (o_id newObservation) vector (mi_content input) ;;;
              forM observations tt (fun _ obs =>
                deleteEmbedding (o_id obs) ;;; deleteObservation (o_id obs) ;;; ret tt) ;;;
              ret (mkMergeResult true (o_id newObservation) (length observations) (e_name entity)
                     ("Merged " +:+ pretty (length observations)
                        +:+ " observations into one for " +:+ dquote +:+ e_name entity
                        +:+ dquote +:+ "."))
          end
      end.

(** *** mcp/tools/consolidate.ts *)

(** [class UnionFind]: the two arrays. *)
Record UnionFind : Type := mkUnionFind {
  uf_parent : list nat;
  uf_rank : list nat }.

Definition UnionFind_new (n : nat) : UnionFind :=
  mkUnionFind (seq 0 n) (replicate n 0).

(** [find(x)] with path compression.  The recursion follows parent pointers;
    [fuel] bounds its depth and [None] means the bound was too small (or [x]
    is not an index of the array, which [consolidate] never asks). *)
Fixpoint find_aux (fuel : nat) (x : nat) (parent : list nat) : option (nat * list nat) :=
  match fuel with
  | 0 => None
  | S fuel' =>
      px ← parent !! x;
      if bool_decide (px ≠ x) then
        '(root, parent') ← find_aux fuel' px parent;
        Some (root, <[x := root]> parent')
      else Some (px, parent)
  end.

Definition uf_find (u : UnionFind) (x : nat) : option (nat * UnionFind) :=
  '(root, parent') ← find_aux (length (uf_parent u)) x (uf_parent u);
  Some (root, mkUnionFind parent' (uf_rank u)).

Definition uf_union (u : UnionFind) (x y : nat) : option UnionFind :=
  '(rx, u1) ← uf_find u x;
  '(ry, u2) ← uf_find u1 y;
  if bool_decide (rx = ry) then Some u2
  else
    rank_x ← uf_rank u2 !! rx;
    rank_y ← uf_rank u2 !! ry;
    if rank_x <? rank_y then
      Some (mkUnionFind (<[rx := ry]> (uf_parent u2)) (uf_rank u2))
    else if rank_y <? rank_x then
      Some (mkUnionFind (<[ry := rx]> (uf_parent u2)) (uf_rank u2))
    else
      Some (mkUnionFind (<[ry := rx]> (uf_parent u2)) (<[rx := S rank_x]> (uf_rank u2))).

(** The index pairs [(i, j)], [i < j < n], in the order of the two nested
    [for] loops. *)
Definition index_pairs (n : nat) : list (nat * nat) :=
  i ← seq 0 n; j ← seq (S i) (n - S i); [(i, j)].

(** The state of the clustering loop: the union-find and the [similarities]
    map, whose key [`${i}:${j}`] is the pair [(i, j)]. *)
Definition cluster_step (threshold : Q) (vectors : list StoredVector)
    (st : UnionFind * gmap (nat * nat) Q) (ij : nat * nat)
    : option (UnionFind * gmap (nat * nat) Q) :=
  vi ← vectors !! ij.1;
  vj ← vectors !! ij.2;
  let sim := cosineSimilarity (sv_vector vi) (sv_vector vj) in
  if Qge_bool sim threshold then
    u' ← uf_union st.1 ij.1 ij.2;
    Some (u', <[ij := sim]> st.2)
  else Some st.

Fixpoint foldM_option {A B} (f : B -> A -> option B) (xs : list A) (acc : B) : option B :=
  match xs with
  | [] => Some acc
  | x :: xs' => acc' ← f acc x; foldM_option f xs' acc'
  end.

(** [groups]: a [Map] from root to members, in insertion order. *)
Fixpoint group_push (root i : nat) (groups : list (nat * list nat)) : list (nat * list nat) :=
  match groups with
  | [] => [(root, [i])]
  | (r, members) :: rest =>
      if bool_decide (r = root) then (r, members ++ [i]) :: rest
      else (r, members) :: group_push root i rest
  end.

Definition group_step (st : UnionFind * list (nat * list nat)) (i : nat)
    : option (UnionFind * list (nat * list nat)) :=
  '(root, u') ← uf_find st.1 i;
  Some (u', group_push root i st.2).

(** The similarity of one pair of members, from the map or computed afresh. *)
Definition pair_similarity (vectors : list StoredVector) (similarities : gmap (nat * nat) Q)
    (a b : nat) : option Q :=
  let key := if a <? b then (a, b) else (b, a) in
  match similarities !! key with
  | Some sim => Some sim
  | None =>
      va ← vectors !! a;
      vb ← vectors !! b;
      Some (cosineSimilarity (sv_vector va) (sv_vector vb))
  end.

(** The two nested loops over the positions [i < j] of [members]; the state
    is [(simSum, simCount)]. *)
Fixpoint sum_with_rest (vectors : list StoredVector) (similarities : gmap (nat * nat) Q)
    (a : nat) (rest : list nat) (acc : Q * nat) : option (Q * nat) :=
  match rest with
  | [] => Some acc
  | b :: rest' =>
      s ← pair_similarity vectors similarities a b;
      sum_with_rest vectors similarities a rest' (acc.1 + s, S acc.2)%Q
  end.

Fixpoint sum_pairs (vectors : list StoredVector) (similarities : gmap (nat * nat) Q)
    (members : list nat) (acc : Q * nat) : option (Q * nat) :=
  match members with
  | [] => Some acc
  | a :: rest =>
      acc' ← sum_with_rest vectors similarities a rest acc;
      sum_pairs vectors similarities rest acc'
  end.

Record ClusterObservation : Type := mkClusterObservation {
  co_observation_id : string;
  co_entity : string;
  co_type : option string;
  co_content : string;
  co_source : option string;
  co_remembered_at : string }.

Record Cluster : Type := mkCluster {
  cl_observations : list ClusterObservation;
  cl_avg_similarity : Q }.

Definition toClusterObservation (v : StoredVector) : ClusterObservation :=
  mkClusterObservation (sv_observation_id v) (sv_entity_name v) (sv_entity_type v)
    (sv_content v) (sv_source v) (sv_created_at v).

Definition build_cluster (vectors : list StoredVector) (similarities : gmap (nat * nat) Q)
    (members : list nat) : option Cluster :=
  '(simSum, simCount) ← sum_pairs vectors similarities members (0%Q, 0);
  observations ← mapM (fun idx => toClusterObservation <$> vectors !! idx) members;
  Some (mkCluster observations
          (if 0 <? simCount then round3 (simSum / inject_Z (Z.of_nat simCount)) else 0%Q)).

(** [clusters.sort((a, b) => b.observations.length - a.observations.length)] *)
Definition sort_by_size (clusters : list Cluster) : list Cluster :=
  sort_by (fun a b => length (cl_observations b) <=? length (cl_observations a)) clusters.

(** The clustering part of [consolidate], from the vectors in scope. *)
Definition cluster_vectors (threshold : Q) (vectors : list StoredVector) : option (list Cluster) :=
  let n := length vectors in
  '(uf, similarities) ← foldM_option (cluster_step threshold vectors) (index_pairs n)
                          (UnionFind_new n, ∅);
  '(_, groups) ← foldM_option group_step (seq 0 n) (uf, []);
  clusters ← mapM (build_cluster vectors similarities)
               (filter (fun members => ¬ (length members < 2)) (groups.*2));
  Some (sort_by_size clusters).

Record ConsolidateInput : Type := mkConsolidateInput {
  ci_entity : option string;
  ci_threshold : option Q }.

Record ConsolidateResult : Type := mkConsolidateResult {
  cr_success : bool;
  cr_total_observations : nat;
  cr_clusters : list Cluster;
  cr_message : string }.

(** [consolidate] only reads the store: it is a function of the world.
    [None] stands for a run that gives no result (see [find_aux]). *)
Definition consolidate (w : World) (input : ConsolidateInput) : option ConsolidateResult :=
  let threshold := nullish (ci_threshold input) (8 # 10) in
  let scope :=
    if truthy (ci_entity input) then
      match select_entity_by_name w (default "" (ci_entity input)) with
      | None => None
      | Some entity => Some (Some (e_id entity))
      end
    else Some None in
  match scope with
  | None =>
      Some (mkConsolidateResult false 0 []
              ("Entity " +:+ dquote +:+ default "" (ci_entity input) +:+ dquote +:+ " not found."))
  | Some entityId =>
      let vectors := select_embeddings w entityId in
      if length vectors <? 2 then
        Some (mkConsolidateResult true (length vectors) []
                (if bool_decide (length vectors = 0)
                 then "No observations found."
                 else "Only one observation — nothing to consolidate."))
      else
        clusters ← cluster_vectors threshold vectors;
        Some (mkConsolidateResult true (length vectors) clusters
                (if bool_decide (length clusters = 0)
                 then "Scanned " +:+ pretty (length vectors)
                        +:+ " observations — no clusters found above threshold "
                        +:+ number_to_string threshold +:+ "."
                 else "Found " +:+ pretty (length clusters) +:+ " cluster(s) across "
                        +:+ pretty (length vectors)
                        +:+ " observations. Review each cluster and use remember + forget to merge."))
  end.

(** *** mcp/tools/update.ts *)

Record UpdateInput : Type := mkUpdateInput {
  ui_entity : string;
  ui_old_content : string;
  ui_new_content : string }.

Record UpdateResult : Type := mkUpdateResult {
  ur_success : bool;
  ur_message : string;
  ur_observationId : option string }.

(** [array.find(p)]: the first element that satisfies [p]. *)
Definition array_find {A} (P : A -> Prop) `{forall x, Decision (P x)} (l : list A) : option A :=
  head (filter P l).

Definition update (input : UpdateInput) : M UpdateResult :=
  entity <- findEntityByName (ui_entity input) ;;
  match entity with
  | None =>
      ret (mkUpdateResult false
             ("Entity " +:+ dquote +:+ ui_entity input +:+ dquote +:+ " not found.") None)
  | Some entity =>
      observations <- getObservationsByEntity (e_id entity) ;;
      match array_find (fun o => o_content o = ui_old_content input) observations with
      | None =>
          ret (mkUpdateResult false
                 ("No observation matching the old content found for entity " +:+ dquote
                    +:+ ui_entity input +:+ dquote +:+ ".") None)
      | Some target =>
          newObs <- createObservation (e_id entity) (ui_new_content input) (o_source target) ;;
          vector <- generateEmbedding (ui_new_content input) ;;
          storeEmbedding (e_id entity) (o_id newObs) vector (ui_new_content input) ;;;
          deleteEmbedding (o_id target) ;;;
          deleteObservation (o_id target) ;;;
          updateEntityTimestamp (e_id entity) ;;;
          ret (mkUpdateResult true
                 ("Updated observation for entity " +:+ dquote +:+ ui_entity input
                    +:+ dquote +:+ ".")
                 (Some (o_id newObs)))
      end
  end.

(** *** embeddings/embedder.ts: backfillEmbeddings *)

(** The rows of [observations LEFT JOIN embeddings ... WHERE emb.id IS NULL]:
    the observations that no embedding refers to. *)
Definition missing_embeddings (w : World) : list Observation :=
  filter (fun o => o_id o ∉ emb_observation_id <$> embeddings w) (observations w).

Definition backfillEmbeddings : M nat :=
  w <- get ;;
  let missing := missing_embeddings w in
  if bool_decide (length missing = 0) then ret 0
  else
    forM missing 0 (fun count obs =>
      vector <- generateEmbedding (o_content obs) ;;
      storeEmbedding (o_entity_id obs) (o_id obs) vector (o_content obs) ;;;
      ret (S count)).

(** *** mcp/tools/export.ts: what is gathered and counted *)

(** A row of [RelationshipWithNames]: the relationship with the names of
    the entities at its two ends. *)
Record RelationshipWithNames : Type := mkRelationshipWithNames {
  rn_relationship : Relationship;
  rn_from_name : string;
  rn_to_name : string }.

Definition select_relationships (w : World) (entityId : string) : list RelationshipWithNames :=
  order_by_desc (fun rn => r_created_at (rn_relationship rn))
    (r ← filter (fun r => r_from_entity r = entityId ∨ r_to_entity r = entityId)
           (relationships w);
     fe ← filter (fun e => e_id e = r_from_entity r) (entities w);
     te ← filter (fun e => e_id e = r_to_entity r) (entities w);
     [mkRelationshipWithNames r (e_name fe) (e_name te)]).

Definition getRelationshipsByEntity (entityId : string) : M (list RelationshipWithNames) :=
  w <- get ;; ret (select_relationships w entityId).

Record EntityData : Type := mkEntityData {
  ed_entity : Entity;
  ed_observations : list Observation;
  ed_relationships : list RelationshipWithNames }.

Definition gatherEntityData (entities : list Entity) : M (list EntityData) :=
  forM entities [] (fun entitiesData entity =>
    observations <- getObservationsByEntity (e_id entity) ;;
    relationships <- getRelationshipsByEntity (e_id entity) ;;
    ret (entitiesData ++ [mkEntityData entity observations relationships])).

(** The two nested loops of [deduplicateRelationships]; the state is the
    [seen] set and the [unique] array. *)
Definition dedup_relationship (st : gset string * list RelationshipWithNames)
    (rel : RelationshipWithNames) : gset string * list RelationshipWithNames :=
  if bool_decide (r_id (rn_relationship rel) ∈ st.1) then st
  else ({[r_id (rn_relationship rel)]} ∪ st.1, st.2 ++ [rel]).

Definition deduplicateRelationships (entitiesData : list EntityData)
    : list RelationshipWithNames :=
  (foldl (fun st ed => foldl dedup_relationship st (ed_relationships ed)) (∅, [])
     entitiesData).2.

Inductive ExportFormat : Type := claude_md | markdown | json.

Definition format_name (format : ExportFormat) : string :=
  match format with
  | claude_md => "claude-md"
  | markdown => "markdown"
  | json => "json"
  end.

Record ExportInput : Type := mkExportInput {
  ei_format : ExportFormat;
  ei_entity : option string;
  ei_type : option string }.

Record ExportResult : Type := mkExportResult {
  er_success : bool;
  er_format : string;
  er_entity_count : nat;
  er_observation_count : nat;
  er_data : string;
  er_message : string }.

(** [exportMemories], over the three formatters of export.ts, which build
    the text from what was gathered ([formatMarkdown] and [formatJson] also
    read the clock). *)
Definition exportMemories
    (formatClaudeMd : list EntityData -> string)
    (formatMarkdown formatJson : list EntityData -> list RelationshipWithNames -> string)
    (input : ExportInput) : M ExportResult :=
  resolved <-
    (if truthy (ei_entity input) then
       entity <- findEntityByName (default "" (ei_entity input)) ;;
       match entity with
       | None => ret None
       | Some entity => ret (Some [entity])
       end
     else
       entities <- listEntities (ei_type input) (Some 10000) ;;
       ret (Some entities)) ;;
  match resolved with
  | None =>
      ret (mkExportResult false (format_name (ei_format input)) 0 0 ""
             ("Entity " +:+ dquote +:+ default "" (ei_entity input) +:+ dquote +:+ " not found."))
  | Some entities =>
      if bool_decide (length entities = 0) then
        ret (mkExportResult true (format_name (ei_format input)) 0 0 ""
               (if truthy (ei_type input)
                then "No entities found with type " +:+ dquote +:+ default "" (ei_type input)
                       +:+ dquote +:+ "."
                else "No entities found."))
      else
        entitiesData <- gatherEntityData entities ;;
        let totalObservations :=
          foldl (fun total ed => total + length (ed_observations ed)) 0 entitiesData in
        let allRelationships := deduplicateRelationships entitiesData in
        let data :=
          match ei_format input with
          | claude_md => formatClaudeMd entitiesData
          | markdown => formatMarkdown entitiesData allRelationships
          | json => formatJson entitiesData allRelationships
          end in
        ret (mkExportResult true (format_name (ei_format input)) (length entities)
               totalObservations data
               ("Exported " +:+ pretty (length entities) +:+ " entities with "
                  +:+ pretty totalObservations +:+ " observations."))
  end.

(** *** db/entities.ts: searchEntities *)

Definition select_entities_like (w : World) (query : string) : list Entity :=
  slice0 10 (order_by_desc e_updated_at
               (filter (fun e => like ("%" +:+ query +:+ "%") (e_name e) = true) (entities w))).

Definition searchEntities (query : string) : M (list Entity) :=
  w <- get ;; ret (select_entities_like w query).

(** *** db/relationships.ts: getRelatedEntities, with the order of the map *)

(** A JavaScript [Map] is iterated in the order its keys were first set.
    These are the loop and the function of [getRelatedEntities] again, with
    the [visited] map as the list of its entries in that order, for the
    caller that iterates over the result. *)
Definition bfs_visit_entries (w : World) (entityId : string) (maxDepth : nat)
    (current : string * nat) (queue : list (string * nat))
    (entries : list (string * RelatedEntity))
    : list (string * nat) * list (string * RelatedEntity) :=
  if bool_decide (current.1 ∈ entries.*1) || (maxDepth <? current.2) then
    (queue, entries)
  else
    let entries' :=
      if bool_decide (current.1 ≠ entityId) then
        match select_entity_by_id w current.1 with
        | Some e => entries ++ [(current.1, mkRelated current.2 (e_name e) (e_type e))]
        | None => entries
        end
      else entries ++ [(current.1, mkRelated 0 "" None)] in
    let queue' :=
      if current.2 <? maxDepth then
        queue ++ ((fun r : string * string * option string => (r.1.1, S current.2)) <$>
                  filter (fun r => r.1.1 ∉ entries'.*1) (related_rows w current.1))
      else queue in
    (queue', entries').

Fixpoint bfs_loop_entries (w : World) (entityId : string) (maxDepth : nat) (fuel : nat)
    (queue : list (string * nat)) (entries : list (string * RelatedEntity))
    : option (list (string * RelatedEntity)) :=
  match queue with
  | [] => Some entries
  | current :: rest =>
      match fuel with
      | 0 => None
      | S fuel' =>
          let '(queue', entries') := bfs_visit_entries w entityId maxDepth current rest entries in
          bfs_loop_entries w entityId maxDepth fuel' queue' entries'
      end
  end.

Definition getRelatedEntities_entries (w : World) (entityId : string) (maxDepth : nat)
    : option (list (string * RelatedEntity)) :=
  entries ← bfs_loop_entries w entityId maxDepth (bfs_fuel w entityId) [(entityId, 0)] [];
  Some (filter (fun kv => kv.1 ≠ entityId) entries).

(** *** mcp/tools/context.ts *)

(** The depth is taken as an integer. *)
Record ContextInput : Type := mkContextInput {
  cx_topic : string;
  cx_depth : option Z }.

Record ObservationInfo : Type := mkObservationInfo {
  oi_content : string;
  oi_source : option string;
  oi_remembered_at : string }.

Record EntityContext : Type := mkEntityContext {
  ec_name : string;
  ec_type : option string;
  ec_observations : list ObservationInfo }.

Record RelationshipInfo : Type := mkRelationshipInfo {
  rli_from : string;
  rli_to : string;
  rli_type : string }.

Record ContextResult : Type := mkContextResult {
  cx_success : bool;
  cx_entity : option EntityContext;
  cx_relationships : list RelationshipInfo;
  cx_related_entities : list EntityContext;
  cx_message : string }.

Definition formatObs (obs : Observation) : ObservationInfo :=
  mkObservationInfo (o_content obs) (o_source obs) (o_created_at obs).

Definition SEMANTIC_THRESHOLD : Q := 2 # 10.

(** The observations of an entity, as [context] shows them. *)
Definition entity_observations (w : World) (entityId : string) : list ObservationInfo :=
  formatObs <$> order_by_desc o_created_at
                  (filter (fun o => o_entity_id o = entityId) (observations w)).

(** Finding the entity: exact name, then [LIKE], then the best semantic hit
    when the embedder answers and the hit reaches the threshold. *)
Definition context_entity (w : World) (topic : string) : option Entity :=
  match select_entity_by_name w topic with
  | Some entity => Some entity
  | None =>
      match select_entities_like w topic with
      | entity :: _ => Some entity
      | [] =>
          let semanticResults :=
            match embedder topic with
            | Some queryVector => select_scored w queryVector 5 None None
            | None => []
            end in
          match semanticResults with
          | r :: _ =>
              if Qge_bool (ss_similarity r) SEMANTIC_THRESHOLD
              then select_entity_by_id w (ss_entity_id r)
              else None
          | [] => None
          end
      end
  end.

(** [context] only reads the store: it is a function of the world; [None]
    stands for a run of the graph walk that gives no result (see
    [bfs_loop]). *)
Definition context (w : World) (input : ContextInput) : option ContextResult :=
  let depth := Z.to_nat (Z.min (Z.max (nullish (cx_depth input) 1%Z) 0) 3) in
  match context_entity w (cx_topic input) with
  | None =>
      Some (mkContextResult false None [] []
              ("No entity found for topic " +:+ dquote +:+ cx_topic input +:+ dquote +:+ "."))
  | Some entity =>
      let observations := entity_observations w (e_id entity) in
      let relationships :=
        (fun r => mkRelationshipInfo (rn_from_name r) (rn_to_name r)
                    (r_relation_type (rn_relationship r)))
          <$> select_relationships w (e_id entity) in
      relatedMap ← getRelatedEntities_entries w (e_id entity) depth;
      let relatedEntities :=
        (fun kv : string * RelatedEntity =>
           mkEntityContext (rel_name kv.2) (rel_type kv.2) (entity_observations w kv.1))
          <$> relatedMap in
      Some (mkContextResult true
              (Some (mkEntityContext (e_name entity) (e_type entity) observations))
              relationships relatedEntities
              ("Found " +:+ dquote +:+ e_name entity +:+ dquote +:+ " with "
                 +:+ pretty (length observations) +:+ " observations, "
                 +:+ pretty (length relationships) +:+ " relationships, and "
                 +:+ pretty (length relatedEntities) +:+ " related entities."))
  end.

(** ** What holds of every stored state *)

(** The constraints of the schema, which SQLite enforces on every insert,
    update and delete: primary keys, the UNIQUE entity name, and the foreign
    keys. *)
Record store_ok (w : World) : Prop := mkStoreOk {
  pk_entities : NoDup (e_id <$> entities w);
  unique_names : NoDup (e_name <$> entities w);
  pk_observations : NoDup (o_id <$> observations w);
  pk_embeddings : NoDup (emb_id <$> embeddings w);
  pk_relationships : NoDup (r_id <$> relationships w);
  fk_observations :
    Forall (fun o => o_entity_id o ∈ e_id <$> entities w) (observations w);
  fk_embeddings :
    Forall (fun m => emb_entity_id m ∈ e_id <$> entities w
                     ∧ emb_observation_id m ∈ o_id <$> observations w) (embeddings w);
  fk_relationships :
    Forall (fun r => r_from_entity r ∈ e_id <$> entities w
                     ∧ r_to_entity r ∈ e_id <$> entities w) (relationships w) }.

(** Every identifier in the store was handed out by the generator: it is one
    of the first [rng w] draws. *)
Definition all_ids (w : World) : list string :=
  (e_id <$> entities w) ++ (o_id <$> observations w)
  ++ (emb_id <$> embeddings w) ++ (r_id <$> relationships w).

Definition ids_generated (w : World) : Prop :=
  Forall (fun id => id ∈ uuid <$> seq 0 (rng w)) (all_ids w).

(** The generator never repeats itself and never gives the empty string. *)
Definition uuid_ok : Prop :=
  (forall j k, uuid j = uuid k -> j = k) /\ (forall k, uuid k <> "").

(** [updateEntityTimestamp] on the rows of [entities]. *)
Definition touch (id stamp : string) (es : list Entity) : list Entity :=
  (fun e => if bool_decide (e_id e = id)
            then mkEntity (e_id e) (e_name e) (e_type e) (e_created_at e) stamp
            else e) <$> es.

(** The observations a [merge] call asks for, and whether they belong to
    more than one entity. *)
Definition requested (w : World) (ids : list string) : list Observation :=
  filter (fun o => o_id o ∈ ids) (observations w).
Definition spans_entities (w : World) (ids : list string) : Prop :=
  exists o1 o2, o1 ∈ requested w ids /\ o2 ∈ requested w ids
                /\ o_entity_id o1 <> o_entity_id o2.


(** Removing duplicates by observation id: the first occurrence stays. *)
Fixpoint dedup_by_id (l : list MemoryResult) : list MemoryResult :=
  match l with
  | [] => []
  | m :: l' =>
      m :: filter (fun m' => m_observation_id m' ≠ m_observation_id m) (dedup_by_id l')
  end.


(** *** The union-find of consolidate *)

(** [root_of parent x r]: following the parent pointers from [x] ends at the
    root [r]. *)
Inductive root_of (parent : list nat) : nat -> nat -> Prop :=
  | root_here x : parent !! x = Some x -> root_of parent x x
  | root_up x y r : parent !! x = Some y -> y <> x -> root_of parent y r -> root_of parent x r.

Definition rank_at (rank : list nat) (x : nat) : nat := default 0 (rank !! x).

(** The two arrays of a union-find over [n] elements: parents are indices,
    and the rank grows strictly along every parent pointer. *)
Record uf_wf (n : nat) (parent rank : list nat) : Prop := mkUfWf {
  wf_parent_length : length parent = n;
  wf_rank_length : length rank = n;
  wf_parent_range : forall x y, parent !! x = Some y -> y < n;
  wf_rank_order :
    forall x y, parent !! x = Some y -> y <> x -> rank_at rank x < rank_at rank y }.

(** Two elements are in the same set when they have the same root. *)
Definition same_set (parent : list nat) (x y : nat) : Prop :=
  exists r, root_of parent x r /\ root_of parent y r.

(** The number of elements ranked above [x]: it bounds the parent pointers
    between [x] and its root. *)
Definition ranked_above (n : nat) (rank : list nat) (x : nat) : nat :=
  length (filter (fun y => rank_at rank x < rank_at rank y) (seq 0 n)).

(** *** What consolidate clusters *)

(** The pairs the clustering loop unions: [i < j], both vectors present,
    cosine at or above the threshold. *)
Definition similar (threshold : Q) (vectors : list StoredVector) (i j : nat) : Prop :=
  i < j /\ exists vi vj, vectors !! i = Some vi /\ vectors !! j = Some vj
    /\ (threshold <= cosineSimilarity (sv_vector vi) (sv_vector vj))%Q.


(** The pairs of [similar] among those the loop has gone over. *)
Definition joined (threshold : Q) (vectors : list StoredVector) (seen : list (nat * nat))
    (a b : nat) : Prop :=
  (a, b) ∈ seen /\ similar threshold vectors a b.










(** *** The graph [getRelatedEntities] walks *)

(** Two entities are linked when some relationship has them at its two ends,
    whichever is [from_entity] and whichever is [to_entity]. *)
Definition linked (w : World) (a b : string) : Prop :=
  exists r, r ∈ relationships w
    /\ ((r_from_entity r = a /\ r_to_entity r = b)
        \/ (r_from_entity r = b /\ r_to_entity r = a)).

(** [walk w a n b]: there are [n] links in a row from [a] to [b]. *)
Inductive walk (w : World) (a : string) : nat -> string -> Prop :=
  | walk_here : walk w a 0 a
  | walk_step n b c : walk w a n b -> linked w b c -> walk w a (S n) c.

(** [d] is the length of a shortest walk from [a] to [b]. *)
Definition hop_distance (w : World) (a b : string) (d : nat) : Prop :=
  walk w a d b /\ forall n, walk w a n b -> d <= n.

(** The ids the prepared statement returns for [current]. *)
Definition adjacent (w : World) (current : string) : list string :=
  (fun r : string * string * option string => r.1.1) <$> related_rows w current.

(** The work still ahead of the loop: the entries of the queue, and the rows
    of every node not visited yet. *)
Definition pending (w : World) (visited : gmap string RelatedEntity) (nodes : list string) : nat :=
  sum_list ((fun x => if visited !! x is None then length (related_rows w x) else 0) <$> nodes).

(** What holds of the queue and of the visited map at every turn of the loop;
    [d] is the depth the loop is working on. *)
Record bfs_inv (w : World) (seed : string) (maxDepth d : nat)
    (queue : list (string * nat)) (visited : gmap string RelatedEntity) : Prop := mkBfsInv {
  inv_sorted :
    exists l1 l2, queue = l1 ++ l2
      /\ Forall (fun p => p.2 = d) l1 /\ Forall (fun p => p.2 = S d) l2;
  inv_queue :
    forall u j, (u, j) ∈ queue ->
      walk w seed j u /\ j <= maxDepth /\ (u = seed \/ u ∈ e_id <$> entities w);
  inv_visited :
    forall v rel, visited !! v = Some rel ->
      hop_distance w seed v (rel_depth rel)
      /\ rel_depth rel <= d /\ rel_depth rel <= maxDepth
      /\ ((v = seed /\ rel = mkRelated 0 "" None)
          \/ (v <> seed /\ exists e, select_entity_by_id w v = Some e
                /\ rel = mkRelated (rel_depth rel) (e_name e) (e_type e)));
  inv_frontier :
    forall v rel u, visited !! v = Some rel -> rel_depth rel < maxDepth ->
      u ∈ adjacent w v -> visited !! u = None -> (u, S (rel_depth rel)) ∈ queue;
  inv_seed :
    visited !! seed = None -> queue = [(seed, 0)] /\ visited = ∅ }.






(** What [getObservationsByIds] returns; the world is left as it is. *)
Definition fetch (w : World) (ids : list string) : list Observation :=
  omap (fun id => js_map_of ((fun r => (o_id r, r)) <$> requested w ids) !! id) ids.

(** The world after the deleting loop of [merge] went over [ids]. *)
Definition delete_all (ids : list string) (w : World) : World :=
  mkWorld (entities w)
    (filter (fun o => o_id o ∉ ids) (observations w))
    (filter (fun m => emb_observation_id m ∉ ids) (embeddings w))
    (relationships w) (rng w) (now w).

(** The observation [update] replaces: the first one with exactly the old
    content among the observations of the entity, newest first. *)
Definition update_target (w : World) (entityId old_content : string) : option Observation :=
  array_find (fun o => o_content o = old_content)
    (order_by_desc o_created_at (filter (fun o => o_entity_id o = entityId) (observations w))).

(** The candidates that auto-detection links to [source]: another entity,
    not the default one, with a name of three characters or more that the
    content mentions, and not linked to [source] yet in either direction. *)
Definition between (a b : string) (r : Relationship) : Prop :=
  (r_from_entity r = a /\ r_to_entity r = b) \/ (r_from_entity r = b /\ r_to_entity r = a).

Global Instance between_dec (a b : string) (r : Relationship) : Decision (between a b r).
Proof. unfold between. apply _. Defined.

Definition detectable (w : World) (source : Entity) (content : string) (candidate : Entity)
    : Prop :=
  e_id candidate ≠ e_id source
  /\ (e_name candidate ∉ SKIP_ENTITIES)
  /\ (¬ (String.length (e_name candidate) < MIN_NAME_LENGTH))
  /\ mentions (e_name candidate) content = true
  /\ ¬ Exists (between (e_id source) (e_id candidate)) (relationships w).

Global Instance detectable_dec (w : World) (source : Entity) (content : string)
    (candidate : Entity) : Decision (detectable w source content candidate).
Proof. unfold detectable. apply _. Defined.



(** The embeddings a backfill adds for the observations [l], and the world
    it leaves. *)
Definition backfilled (w : World) (l : list Observation) : list StoredEmbedding :=
  imap (fun k o => mkStoredEmbedding (uuid (rng w + k)) (o_entity_id o) (o_id o)
                     (default [] (embedder (o_content o))) (o_content o) (now w)) l.

Definition with_embeddings (w : World) (l : list Observation) : World :=
  mkWorld (entities w) (observations w) (embeddings w ++ backfilled w l)
    (relationships w) (rng w + length l) (now w).

(** A run of [union] calls on a union-find. *)
Definition union_all (pairs : list (nat * nat)) (u : UnionFind) : option UnionFind :=
  foldM_option (fun u p => uf_union u p.1 p.2) pairs u.

(** [find(a) === find(b)] *)
Definition same_root (u : UnionFind) (a b : nat) : Prop :=
  exists r u1 u2, uf_find u a = Some (r, u1) /\ uf_find u b = Some (r, u2).

(** What [gatherEntityData] collects for one entity. *)
Definition gathered (w : World) (e : Entity) : EntityData :=
  mkEntityData e
    (order_by_desc o_created_at (filter (fun o => o_entity_id o = e_id e) (observations w)))
    (select_relationships w (e_id e)).

(** The ids of a list of relationship rows. *)
Definition relationship_ids (l : list RelationshipWithNames) : list string :=
  (fun rel => r_id (rn_relationship rel)) <$> l.




(** What [context] answers when it finds no entity. *)
Definition context_not_found (topic : string) : ContextResult :=
  mkContextResult false None [] []
    ("No entity found for topic " +:+ dquote +:+ topic +:+ dquote +:+ ".").

(** *** Values the statements name *)

(** What [forget] answers when it is given neither argument. *)
Definition forget_rejected : ForgetResult :=
  mkForgetResult false "Either entity name or observation_id is required." (mkDeleted 0 0 0 false).


(** * Properties *)

(** ** The monad *)

Lemma bind_Ok {A B} (m : M A) (k : A -> M B) w a w' :
  m w = (Ok a, w') -> bind m k w = k a w'.
Proof. intros H. unfold bind. by rewrite H. Qed.

Lemma bind_Throw {A B} (m : M A) (k : A -> M B) w e w' :
  m w = (Throw e, w') -> bind m k w = (Throw e, w').
Proof. intros H. unfold bind. by rewrite H. Qed.


Ltac run := unfold bind, ret, get, modify, throw, catch; simpl.

(** Solvers that search the context must not pick up the parameters of the
    engine. *)
Ltac forget_parameters :=
  try clear embedder; try clear like; try clear mentions;
  try clear toFixed3; try clear number_to_string; try clear uuid.

(** ** Rows and keys *)

Lemma filter_all {A} (P : A -> Prop) `{forall x, Decision (P x)} (l : list A) :
  (forall x, x ∈ l -> P x) -> filter P l = l.
Proof.
  induction l as [|x l IH]; intros Hl; [done|].
  rewrite filter_cons_True by (apply Hl; left).
  f_equal. apply IH. intros y Hy. apply Hl. by right.
Qed.

Lemma filter_none {A} (P : A -> Prop) `{forall x, Decision (P x)} (l : list A) :
  (forall x, x ∈ l -> ~ P x) -> filter P l = [].
Proof.
  induction l as [|x l IH]; intros Hl; [done|].
  rewrite filter_cons_False by (apply Hl; left).
  apply IH. intros y Hy. apply Hl. by right.
Qed.

Lemma filter_key_nil {A} (f : A -> string) (id : string) (l : list A) :
  id ∉ f <$> l -> filter (fun x => f x = id) l = [].
Proof.
  induction l as [|x l IH]; simpl; [done|].
  intros Hn. apply not_elem_of_cons in Hn as [Hx Hl].
  rewrite filter_cons_False by congruence. auto.
Qed.

Lemma filter_key_app_new {A} (f : A -> string) (id : string) (l : list A) (x : A) :
  id ∉ f <$> l -> f x = id -> filter (fun y => f y = id) (l ++ [x]) = [x].
Proof.
  intros Hn Hx. rewrite filter_app, filter_key_nil by done.
  simpl. by rewrite filter_cons_True, filter_nil.
Qed.

Lemma e_id_touch id stamp es : e_id <$> touch id stamp es = e_id <$> es.
Proof.
  unfold touch. rewrite <- list_fmap_compose. apply list_fmap_ext.
  intros _ e _. simpl. by case_bool_decide.
Qed.

(** ** The creating statements succeed on fresh identifiers *)

Lemma createObservation_Ok (entityId content : string) (source : option string) (w : World) :
  uuid (rng w) ∉ o_id <$> observations w ->
  entityId ∈ e_id <$> entities w ->
  createObservation entityId content source w
  = (Ok (mkObservation (uuid (rng w)) entityId content source (now w)),
     mkWorld (touch entityId (now w) (entities w))
       (observations w ++ [mkObservation (uuid (rng w)) entityId content source (now w)])
       (embeddings w) (relationships w) (S (rng w)) (now w)).
Proof.
  intros Hfresh Hfk.
  unfold createObservation, randomUUID, insertObservation, updateEntityTimestamp.
  run. rewrite bool_decide_false by done. simpl.
  rewrite bool_decide_false by (intros H; by apply H). simpl.
  rewrite filter_key_app_new by done. simpl. done.
Qed.

Lemma storeEmbedding_Ok (entityId observationId : string) (vector : list Q)
    (text : string) (w : World) :
  uuid (rng w) ∉ emb_id <$> embeddings w ->
  entityId ∈ e_id <$> entities w ->
  observationId ∈ o_id <$> observations w ->
  storeEmbedding entityId observationId vector text w
  = (Ok (uuid (rng w)),
     mkWorld (entities w) (observations w)
       (embeddings w ++ [mkStoredEmbedding (uuid (rng w)) entityId observationId vector text (now w)])
       (relationships w) (S (rng w)) (now w)).
Proof.
  intros Hfresh He Ho.
  unfold storeEmbedding, randomUUID, insertEmbedding.
  run. rewrite bool_decide_false by done. simpl.
  rewrite bool_decide_false by (intros [H|H]; by apply H). done.
Qed.

Lemma createRelationship_Ok (a b type : string) (w : World) :
  uuid (rng w) ∉ r_id <$> relationships w ->
  a ∈ e_id <$> entities w ->
  b ∈ e_id <$> entities w ->
  createRelationship a b type w
  = (Ok (mkRelationship (uuid (rng w)) a b type (now w)),
     mkWorld (entities w) (observations w) (embeddings w)
       (relationships w ++ [mkRelationship (uuid (rng w)) a b type (now w)])
       (S (rng w)) (now w)).
Proof.
  intros Hfresh Ha Hb.
  unfold createRelationship, randomUUID, insertRelationship.
  run. rewrite bool_decide_false by done. simpl.
  rewrite bool_decide_false by (intros [H|H]; by apply H). simpl.
  rewrite filter_key_app_new by done. done.
Qed.

(** ** forget *)

(** C3 (as amended): [forget] never raises.  When neither argument is given
    it returns [success: false] with a message and leaves the world as it
    was.  When both are given, the observation id takes precedence: the call
    is the deletion by observation id, the entity name being ignored. *)
Theorem forget_both_or_neither (input : ForgetInput) (w : World) :
  (exists r w', forget input w = (Ok r, w'))
  /\ (truthy (fi_entity input) = false -> truthy (fi_observation_id input) = false ->
      forget input w = (Ok forget_rejected, w))
  /\ (truthy (fi_entity input) = true -> truthy (fi_observation_id input) = true ->
      forget input w = forget (mkForgetInput None (fi_observation_id input)) w).
Proof.
  destruct input as [e o]; simpl. unfold forget; simpl.
  destruct (truthy e) eqn:He, (truthy o) eqn:Ho; simpl.
  - split_and!; [run; eauto | done | done].
  - split_and!; [| done | done].
    run. destruct (select_entity_by_name w (default "" e)); simpl; eauto.
  - split_and!; [run; eauto | done | done].
  - split_and!; [run; eauto | done | done].
Qed.

(** ** Sorting *)

Lemma insert_by_sorted {A} (before : A -> A -> bool) (x : A) (l : list A) :
  (forall a b, before a b = true \/ before b a = true) ->
  Sorted (fun a b => before a b = true) l ->
  Sorted (fun a b => before a b = true) (insert_by before x l).
Proof.
  intros Htotal. induction l as [|y l IH]; intros Hs; simpl.
  - repeat constructor.
  - destruct (before x y) eqn:Hxy.
    + constructor; [done|]. by constructor.
    + apply Sorted_inv in Hs as [Hs Hhd]. constructor; [by apply IH|].
      destruct l as [|z l]; simpl.
      * constructor. destruct (Htotal x y); congruence.
      * destruct (before x z); constructor.
        -- destruct (Htotal x y); congruence.
        -- by inversion Hhd.
Qed.

Lemma sort_by_sorted {A} (before : A -> A -> bool) (l : list A) :
  (forall a b, before a b = true \/ before b a = true) ->
  Sorted (fun a b => before a b = true) (sort_by before l).
Proof.
  intros Htotal. induction l as [|x l IH]; simpl; [constructor|].
  by apply insert_by_sorted.
Qed.


Lemma insert_by_length {A} (before : A -> A -> bool) (x : A) (l : list A) :
  length (insert_by before x l) = S (length l).
Proof. induction l as [|y l IH]; simpl; [done|]. destruct (before x y); simpl; lia. Qed.

Lemma sort_by_length {A} (before : A -> A -> bool) (l : list A) :
  length (sort_by before l) = length l.
Proof. induction l as [|x l IH]; simpl; [done|]. rewrite insert_by_length. lia. Qed.

Lemma Sorted_take {A} (R : relation A) (n : nat) (l : list A) :
  Sorted R l -> Sorted R (take n l).
Proof.
  revert n. induction l as [|x l IH]; intros n Hs; destruct n; simpl; try constructor.
  - apply IH. by apply Sorted_inv in Hs as [Hs _].
  - apply Sorted_inv in Hs as [_ Hhd]. destruct l, n; simpl; constructor. by inversion Hhd.
Qed.


(** ** Fresh identifiers *)

Lemma fresh_uuid (w : World) (k : nat) :
  uuid_ok -> ids_generated w -> rng w <= k -> uuid k ∉ all_ids w.
Proof.
  intros [Hinj _] Hgen Hk Hin.
  unfold ids_generated in Hgen. rewrite Forall_forall in Hgen.
  apply Hgen in Hin. apply list_elem_of_fmap in Hin as (j & Heq & Hj).
  apply elem_of_seq in Hj. apply Hinj in Heq. lia.
Qed.

Lemma fresh_uuid_observations w k :
  uuid_ok -> ids_generated w -> rng w <= k -> uuid k ∉ o_id <$> observations w.
Proof.
  intros Hu Hg Hk Hin. apply (fresh_uuid w k Hu Hg Hk).
  unfold all_ids. rewrite !elem_of_app. auto.
Qed.

Lemma fresh_uuid_embeddings w k :
  uuid_ok -> ids_generated w -> rng w <= k -> uuid k ∉ emb_id <$> embeddings w.
Proof.
  intros Hu Hg Hk Hin. apply (fresh_uuid w k Hu Hg Hk).
  unfold all_ids. rewrite !elem_of_app. auto.
Qed.



(** ** Sets of identifiers *)

Lemma size_gt_1 (X : gset string) :
  1 < size X <-> exists x y, x ∈ X /\ y ∈ X /\ x <> y.
Proof.
  forget_parameters. split.
  - intros Hs. destruct (size_pos_elem_of X) as [x Hx]; [lia|].
    assert (size (X ∖ {[x]}) = size X - 1) as Hd.
    { rewrite size_difference by set_solver. by rewrite size_singleton. }
    destruct (size_pos_elem_of (X ∖ {[x]})) as [y Hy]; [lia|].
    exists x, y. set_solver.
  - intros (x & y & Hx & Hy & Hne).
    assert (({[x]} ∪ {[y]} : gset string) ⊆ X) as Hsub by set_solver.
    apply subseteq_size in Hsub.
    rewrite size_union, !size_singleton in Hsub by set_solver. lia.
Qed.

Lemma key_unique {A} (f : A -> string) (l : list A) (x y : A) :
  NoDup (f <$> l) -> x ∈ l -> y ∈ l -> f x = f y -> x = y.
Proof.
  induction l as [|z l IH]; simpl; intros Hnd Hx Hy Heq.
  - by apply elem_of_nil in Hx.
  - apply NoDup_cons in Hnd as [Hz Hnd].
    apply elem_of_cons in Hx as [Hx|Hx]; apply elem_of_cons in Hy as [Hy|Hy].
    + congruence.
    + exfalso. apply Hz. rewrite <- Hx, Heq. by apply list_elem_of_fmap_2.
    + exfalso. apply Hz. rewrite <- Hy, <- Heq. by apply list_elem_of_fmap_2.
    + auto.
Qed.

(** ** getObservationsByIds *)

Lemma getObservationsByIds_run (ids : list string) (w : World) :
  getObservationsByIds ids w = (Ok (fetch w ids), w).
Proof. destruct ids; reflexivity. Qed.

Lemma js_map_of_Some (rows : list Observation) (k : string) (o : Observation) :
  js_map_of ((fun r => (o_id r, r)) <$> rows) !! k = Some o -> o ∈ rows /\ o_id o = k.
Proof.
  unfold js_map_of. intros H. apply elem_of_list_to_map_2 in H.
  rewrite elem_of_reverse in H. apply list_elem_of_fmap in H as (r & Heq & Hr).
  by inversion Heq; subst.
Qed.

Lemma js_map_of_is_Some (rows : list Observation) (k : string) :
  k ∈ o_id <$> rows -> is_Some (js_map_of ((fun r => (o_id r, r)) <$> rows) !! k).
Proof.
  intros Hk. apply not_eq_None_Some. intros Hn.
  unfold js_map_of in Hn. apply not_elem_of_list_to_map in Hn. apply Hn.
  rewrite fmap_reverse, elem_of_reverse, <- list_fmap_compose. exact Hk.
Qed.

Lemma elem_of_requested w ids o :
  o ∈ requested w ids <-> o_id o ∈ ids /\ o ∈ observations w.
Proof. unfold requested. by rewrite list_elem_of_filter. Qed.

Lemma fetch_requested w ids o : o ∈ fetch w ids -> o ∈ requested w ids.
Proof.
  unfold fetch. rewrite list_elem_of_omap. intros (id & _ & H).
  by apply js_map_of_Some in H as [H _].
Qed.

Lemma requested_fetch w ids o :
  NoDup (o_id <$> observations w) -> o ∈ requested w ids -> o ∈ fetch w ids.
Proof.
  intros Hnd Ho. pose proof Ho as Ho'. apply elem_of_requested in Ho' as [Hid Hobs].
  unfold fetch. rewrite list_elem_of_omap. exists (o_id o). split; [done|].
  destruct (js_map_of_is_Some (requested w ids) (o_id o)) as [o' Ho'].
  { by apply list_elem_of_fmap_2. }
  rewrite Ho'. f_equal. apply js_map_of_Some in Ho' as [Hin Heq].
  apply elem_of_requested in Hin as [_ Hin].
  by apply (key_unique o_id (observations w)).
Qed.

Lemma fetch_found w ids id :
  id ∈ ids -> (id ∈ o_id <$> fetch w ids <-> id ∈ o_id <$> observations w).
Proof.
  intros Hid. split.
  - intros H. apply list_elem_of_fmap in H as (o & -> & Ho).
    apply fetch_requested, elem_of_requested in Ho as [_ Ho].
    by apply list_elem_of_fmap_2.
  - intros H. apply list_elem_of_fmap in H as (o & -> & Ho).
    destruct (js_map_of_is_Some (requested w ids) (o_id o)) as [o' Ho'].
    { apply list_elem_of_fmap_2. by apply elem_of_requested. }
    pose proof (js_map_of_Some _ _ _ Ho') as [_ Heq]. rewrite <- Heq.
    apply list_elem_of_fmap_2. unfold fetch. rewrite list_elem_of_omap. eauto.
Qed.

Lemma fetch_ids w ids :
  (forall id, id ∈ ids -> id ∈ o_id <$> observations w) -> o_id <$> fetch w ids = ids.
Proof.
  intros Hall. unfold fetch.
  set (byId := js_map_of _).
  assert (forall l : list string, (forall id, id ∈ l -> id ∈ ids) ->
                    o_id <$> omap (fun id => byId !! id) l = l) as Hgen.
  { induction l as [|id l IH]; intros Hl; simpl; [done|].
    destruct (js_map_of_is_Some (requested w ids) id) as [o Ho].
    { assert (id ∈ ids) as Hid by (apply Hl; left).
      specialize (Hall id Hid). apply list_elem_of_fmap in Hall as (o & -> & Ho).
      apply list_elem_of_fmap_2. by apply elem_of_requested. }
    fold byId in Ho. rewrite Ho. simpl.
    apply js_map_of_Some in Ho as [_ ->]. f_equal. apply IH.
    intros id' Hid'. apply Hl. by right. }
  by apply Hgen.
Qed.

Lemma select_entity_by_id_Some (w : World) (id : string) :
  id ∈ e_id <$> entities w ->
  exists e, select_entity_by_id w id = Some e /\ e_id e = id /\ e ∈ entities w.
Proof.
  intros Hin. unfold select_entity_by_id, first_row.
  apply list_elem_of_fmap in Hin as (e & -> & He).
  assert (e ∈ filter (fun e' => e_id e' = e_id e) (entities w)) as Hf
    by (by apply list_elem_of_filter).
  destruct (filter _ (entities w)) as [|e' l] eqn:Hfl; [by apply elem_of_nil in Hf|].
  exists e'. simpl. split; [done|].
  assert (e' ∈ filter (fun e' => e_id e' = e_id e) (entities w)) as He'
    by (rewrite Hfl; left).
  by apply list_elem_of_filter in He'.
Qed.

(** ** merge *)

Lemma delete_loop (l : list Observation) (w : World) :
  forM l tt (fun _ obs =>
    deleteEmbedding (o_id obs) ;;; deleteObservation (o_id obs) ;;; ret tt) w
  = (Ok tt, delete_all (o_id <$> l) w).
Proof.
  revert w. induction l as [|o l IH]; intros w; simpl.
  - unfold ret, delete_all. destruct w; simpl. f_equal. f_equal.
    + symmetry. apply filter_all. intros. apply not_elem_of_nil.
    + symmetry. apply filter_all. intros. apply not_elem_of_nil.
  - unfold bind at 1. unfold deleteEmbedding, deleteObservation. run.
    rewrite IH. f_equal. unfold delete_all, cascade_observation, set_embeddings,
      set_observations; simpl. f_equal.
    + rewrite list_filter_filter. apply list_filter_iff.
      intros x. rewrite not_elem_of_cons. tauto.
    + rewrite !list_filter_filter. apply list_filter_iff.
      intros x. rewrite not_elem_of_cons. tauto.
Qed.

(** C6 (as amended).  On a store that satisfies its constraints:
    - if a requested id is missing, or the requested observations belong to
      more than one entity, [merge] raises and the world is exactly as
      before;
    - if the list of ids is not empty, every id is present, all belong to
      one entity and the embedder answers, then (identifiers being fresh)
      [merge] returns, having created exactly one observation, which carries
      the first non-null source of the originals in the order of the
      requested ids, having stored its embedding, and having deleted every
      original observation and its embedding. *)
Theorem merge_all_or_nothing (input : MergeInput) (w : World) :
  store_ok w ->
  let ids := mi_observation_ids input in
  let content := mi_content input in
  (((exists id, id ∈ ids /\ id ∉ o_id <$> observations w) \/ spans_entities w ids) ->
   exists e, merge input w = (Throw e, w))
  /\ (forall v, ids <> [] -> uuid_ok -> ids_generated w -> embedder content = Some v ->
      (forall id, id ∈ ids -> id ∈ o_id <$> observations w) ->
      ~ spans_entities w ids ->
      exists originals entity,
        o_id <$> originals = ids
        /\ Forall (fun o => o ∈ observations w /\ o_entity_id o = e_id entity) originals
        /\ entity ∈ entities w
        /\ let new := mkObservation (uuid (rng w)) (e_id entity) content
                         (first_source originals) (now w) in
           let new_embedding := mkStoredEmbedding (uuid (S (rng w))) (e_id entity)
                                  (uuid (rng w)) v content (now w) in
           exists message,
             merge input w
             = (Ok (mkMergeResult true (uuid (rng w)) (length ids) (e_name entity) message),
                mkWorld (touch (e_id entity) (now w) (entities w))
                  (filter (fun o => o_id o ∉ ids) (observations w) ++ [new])
                  (filter (fun m => emb_observation_id m ∉ ids) (embeddings w) ++ [new_embedding])
                  (relationships w) (S (S (rng w))) (now w))).
Proof.
  intros Hok ids content.
  assert (forall id, id ∈ ids -> id ∉ o_id <$> observations w ->
            (0 <? length (filter (fun id => id ∉ (list_to_set (o_id <$> fetch w ids) : gset string)) ids))
            = true) as Hmissing.
  { intros id Hid Hno. apply Nat.ltb_lt.
    assert (id ∈ filter (fun id => id ∉ (list_to_set (o_id <$> fetch w ids) : gset string)) ids) as Hin.
    { apply list_elem_of_filter. split; [|done].
      rewrite elem_of_list_to_set. by rewrite fetch_found. }
    destruct (filter _ ids); [by apply elem_of_nil in Hin | simpl; lia]. }
  assert (1 < size (list_to_set (o_entity_id <$> fetch w ids) : gset string)
          <-> spans_entities w ids) as Hspan.
  { rewrite size_gt_1. unfold spans_entities. split.
    - intros (x & y & Hx & Hy & Hne).
      apply elem_of_list_to_set, list_elem_of_fmap in Hx as (o1 & -> & H1).
      apply elem_of_list_to_set, list_elem_of_fmap in Hy as (o2 & -> & H2).
      exists o1, o2. split_and!; [by apply fetch_requested | by apply fetch_requested | done].
    - intros (o1 & o2 & H1 & H2 & Hne).
      exists (o_entity_id o1), (o_entity_id o2). split_and!; [| | done].
      + apply elem_of_list_to_set, list_elem_of_fmap_2, requested_fetch; [apply Hok | done].
      + apply elem_of_list_to_set, list_elem_of_fmap_2, requested_fetch; [apply Hok | done]. }
  split.
  - intros Hbad. unfold merge.
    rewrite (bind_Ok _ _ _ _ _ (getObservationsByIds_run _ _)).
    fold ids.
    destruct (0 <? length (filter _ ids)) eqn:Hm; [unfold throw; eauto|].
    destruct (1 <? size _) eqn:Hs; [unfold throw; eauto|].
    exfalso. destruct Hbad as [(id & Hid & Hno) | Hsp].
    + discriminate (Hmissing id Hid Hno).
    + apply Hspan in Hsp. apply Nat.ltb_lt in Hsp. rewrite Hsp in Hs. done.
  - intros v Hne Hu Hgen Hemb Hall Hnspan.
    pose proof (fetch_ids w ids Hall) as Hids.
    destruct (fetch w ids) as [|first rest] eqn:Hfetch; [by symmetry in Hids|].
    assert (forall o, o ∈ first :: rest -> o ∈ observations w) as Hobs.
    { intros o Ho. rewrite <- Hfetch in Ho.
      by apply fetch_requested, elem_of_requested in Ho as [_ Ho]. }
    assert (o_entity_id first ∈ e_id <$> entities w) as Hfk.
    { pose proof (fk_observations w Hok) as Hf. rewrite Forall_forall in Hf.
      apply Hf, Hobs. left. }
    destruct (select_entity_by_id_Some w _ Hfk) as (entity & Hsel & Heid & Hent).
    exists (first :: rest), entity. split_and!; [done | | done |].
    { apply Forall_forall. intros o Ho. split; [by apply Hobs|].
      rewrite Heid. destruct (decide (o_entity_id o = o_entity_id first)) as [|Hd]; [done|].
      exfalso. apply Hnspan. exists o, first.
      split_and!; [| | done]; apply fetch_requested; rewrite Hfetch; [done | left]. }
    assert ((1 <? size (list_to_set (o_entity_id <$> first :: rest) : gset string)) = false)
      as Hsize.
    { apply Nat.ltb_ge. apply Nat.nlt_ge. by rewrite Hspan. }
    assert (uuid (rng w) ∉ o_id <$> observations w) as Hfresh1
      by (by apply fresh_uuid_observations).
    assert (uuid (S (rng w)) ∉ emb_id <$> embeddings w) as Hfresh2
      by (apply fresh_uuid_embeddings; [done | done | lia]).
    cbv zeta. eexists. unfold merge.
    rewrite (bind_Ok _ _ _ _ _ (getObservationsByIds_run _ _)).
    fold ids. rewrite Hfetch.
    assert (filter (fun id => id ∉ (list_to_set (o_id <$> first :: rest) : gset string)) ids = [])
      as ->.
    { apply filter_none. intros id Hid Hn. apply Hn.
      apply elem_of_list_to_set. rewrite Hids. done. }
    rewrite Hsize. cbn [length Nat.ltb Nat.leb].
    unfold findEntityById. unfold bind at 1. unfold bind at 1. unfold get, ret.
    rewrite Hsel. unfold generateEmbedding. fold content. rewrite Hemb.
    unfold bind at 1. unfold ret at 1.
    rewrite (bind_Ok _ _ _ _ _ (createObservation_Ok _ _ _ _ Hfresh1 Hfk)).
    cbn [o_id].
    erewrite bind_Ok; cycle 1.
    { apply storeEmbedding_Ok; cbn [rng embeddings entities observations].
      - exact Hfresh2.
      - by rewrite e_id_touch.
      - rewrite fmap_app, elem_of_app. right. simpl. left. }
    cbn [rng embeddings entities observations relationships now].
    rewrite (bind_Ok _ _ _ _ _ (delete_loop _ _)).
    unfold ret. rewrite Hids. unfold delete_all.
    cbn [rng embeddings entities observations relationships now].
    rewrite !filter_app. rewrite <- Heid.
    assert (uuid (rng w) ∉ ids) as Hnew by (intros Hin; by apply Hfresh1, Hall).
    rewrite !(filter_cons_True _ _ []) by done. rewrite !filter_nil.
    assert (length ids = S (length rest)) as -> by (by rewrite <- Hids, length_fmap).
    reflexivity.
Qed.

(** C10: with an empty list of ids both validation checks pass (nothing is
    missing, the set of entity ids is empty), and reading [observations[0]]
    raises a [TypeError] before any statement has changed the store. *)
Theorem merge_empty_ids_raises (content : string) (w : World) :
  filter (fun id => id ∉ (∅ : gset string)) ([] : list string) = []
  /\ size (list_to_set (o_entity_id <$> ([] : list Observation)) : gset string) = 0
  /\ merge (mkMergeInput [] content) w
     = (Throw (TypeError "Cannot read properties of undefined (reading 'entity_id')"), w).
Proof. split_and!; reflexivity. Qed.

(** ** The dedup scan of remember *)







(** ** remember *)

Lemma elem_of_embedding_rows (w : World) (m : StoredEmbedding) (o : Observation) (e : Entity) :
  (m, o, e) ∈ embedding_rows w <->
  m ∈ embeddings w
  /\ (o ∈ observations w /\ o_id o = emb_observation_id m)
  /\ (e ∈ entities w /\ e_id e = emb_entity_id m).
Proof.
  unfold embedding_rows. rewrite list_elem_of_bind. split.
  - intros (m' & Hin & Hm). apply list_elem_of_bind in Hin as (o' & Hin & Ho).
    apply list_elem_of_bind in Hin as (e' & Hin & He).
    apply list_elem_of_singleton in Hin. injection Hin as -> -> ->.
    apply list_elem_of_filter in Ho, He. tauto.
  - intros (Hm & [Ho Hoid] & [He Heid]). exists m. split; [|done].
    apply list_elem_of_bind. exists o. split; [|by apply list_elem_of_filter].
    apply list_elem_of_bind. exists e. split; [|by apply list_elem_of_filter].
    by apply list_elem_of_singleton.
Qed.

Lemma truthy_Some (id : string) : id <> "" -> truthy (Some id) = true.
Proof. intros H. simpl. apply negb_true_iff. by apply String.eqb_neq. Qed.


Lemma findOrCreateEntity_existing (name : string) (type : option string) (w : World) (e : Entity) :
  select_entity_by_name w name = Some e -> findOrCreateEntity name type w = (Ok e, w).
Proof. intros H. unfold findOrCreateEntity, findEntityByName. run. by rewrite H. Qed.


Lemma elem_of_insert_by {A} (before : A -> A -> bool) (x y : A) (l : list A) :
  y ∈ insert_by before x l <-> y = x \/ y ∈ l.
Proof.
  induction l as [|z l IH]; simpl.
  - rewrite list_elem_of_singleton, elem_of_nil. tauto.
  - destruct (before x z); rewrite !elem_of_cons; [tauto|]. rewrite IH. tauto.
Qed.

Lemma elem_of_sort_by {A} (before : A -> A -> bool) (y : A) (l : list A) :
  y ∈ sort_by before l <-> y ∈ l.
Proof.
  induction l as [|x l IH]; simpl; [done|].
  rewrite elem_of_insert_by, elem_of_cons, IH. tauto.
Qed.





Lemma select_entity_by_name_elem (w : World) (name : string) (e : Entity) :
  select_entity_by_name w name = Some e -> e ∈ entities w.
Proof.
  unfold select_entity_by_name, first_row. intros H.
  destruct (filter _ (entities w)) as [|e' l] eqn:Hf; [discriminate|].
  injection H as ->.
  assert (e ∈ filter (fun e' => e_name e' = name) (entities w)) as Hin by (rewrite Hf; left).
  by apply list_elem_of_filter in Hin as [_ Hin].
Qed.


Lemma generateEmbedding_Ok (text : string) (v : list Q) (w : World) :
  embedder text = Some v -> generateEmbedding text w = (Ok v, w).
Proof. intros H. unfold generateEmbedding. by rewrite H. Qed.





(** ** getRelatedEntities *)

Lemma elem_of_adjacent (w : World) (a b : string) :
  b ∈ adjacent w a <-> linked w a b /\ b ∈ e_id <$> entities w.
Proof.
  unfold adjacent, related_rows, linked. rewrite list_elem_of_fmap. split.
  - intros ([[id name] type] & -> & Hrow). simpl.
    apply list_elem_of_bind in Hrow as (r & Hrow & Hr).
    apply list_elem_of_bind in Hrow as (e & Hrow & He).
    apply list_elem_of_singleton in Hrow. injection Hrow as -> -> ->.
    apply list_elem_of_filter in Hr as [Hends Hr].
    apply list_elem_of_filter in He as [Hid He].
    split.
    + exists r. split; [done|]. unfold related_id. case_bool_decide; [by left|].
      destruct Hends as [|Hto]; [done|]. by right.
    + rewrite <- Hid. by apply list_elem_of_fmap_2.
  - intros [(r & Hr & Hends) Hb]. apply list_elem_of_fmap in Hb as (e & -> & He).
    assert (related_id a r = e_id e) as Hrel.
    { unfold related_id. case_bool_decide as Hfrom; destruct Hends as [[? ?]|[? ?]]; congruence. }
    exists (e_id e, e_name e, e_type e). split; [done|].
    apply list_elem_of_bind. exists r. split.
    + apply list_elem_of_bind. exists e. split; [rewrite Hrel; by left|].
      by apply list_elem_of_filter.
    + apply list_elem_of_filter. split; [|done]. destruct Hends as [[? ?]|[? ?]]; auto.
Qed.

(** With the foreign keys in place the statement returns exactly the linked
    entities, in either direction. *)
Lemma adjacent_linked (w : World) (a b : string) :
  store_ok w -> (b ∈ adjacent w a <-> linked w a b).
Proof.
  forget_parameters. intros Hok. rewrite elem_of_adjacent. split; [tauto|].
  intros Hl. split; [done|]. destruct Hl as (r & Hr & Hends).
  pose proof (fk_relationships w Hok) as Hfk. rewrite Forall_forall in Hfk.
  destruct (Hfk r Hr) as [Hfrom Hto]. destruct Hends as [[? <-]|[<- ?]]; done.
Qed.

Lemma linked_sym (w : World) (a b : string) : linked w a b -> linked w b a.
Proof. forget_parameters. intros (r & Hr & Hends). exists r. tauto. Qed.

Lemma pending_insert_le (w : World) (visited : gmap string RelatedEntity)
    (v : string) (rel : RelatedEntity) (nodes : list string) :
  pending w (<[v := rel]> visited) nodes <= pending w visited nodes.
Proof.
  unfold pending. induction nodes as [|x nodes IH]; [done|].
  rewrite !fmap_cons. cbn [sum_list_with]. unfold id at 1 3.
  destruct (decide (v = x)) as [->|Hne].
  - rewrite lookup_insert_eq. destruct (visited !! x); lia.
  - rewrite lookup_insert_ne by done. lia.
Qed.

Lemma pending_insert_lt (w : World) (visited : gmap string RelatedEntity)
    (v : string) (rel : RelatedEntity) (nodes : list string) :
  v ∈ nodes -> visited !! v = None ->
  pending w (<[v := rel]> visited) nodes + length (related_rows w v) <= pending w visited nodes.
Proof.
  intros Hin Hnone. induction nodes as [|x nodes IH]; [by apply elem_of_nil in Hin|].
  pose proof (pending_insert_le w visited v rel nodes) as Hle.
  unfold pending in *. rewrite !fmap_cons. cbn [sum_list_with]. unfold id at 1 3.
  destruct (decide (v = x)) as [->|Hne].
  - rewrite lookup_insert_eq, Hnone. lia.
  - rewrite lookup_insert_ne by done.
    apply elem_of_cons in Hin as [|Hin]; [done|]. specialize (IH Hin). lia.
Qed.

(** The entries the loop pushes after the first visit of [v] at depth [k]. *)
Lemma elem_of_pushed (w : World) (visited : gmap string RelatedEntity) (v u : string) (k j : nat) :
  (u, j) ∈ (fun r : string * string * option string => (r.1.1, S k)) <$>
             filter (fun r => visited !! r.1.1 = None) (related_rows w v)
  <-> j = S k /\ u ∈ adjacent w v /\ visited !! u = None.
Proof.
  unfold adjacent. rewrite !list_elem_of_fmap. split.
  - intros (r & Heq & Hr). injection Heq as -> ->.
    apply list_elem_of_filter in Hr as [Hnone Hr]. eauto.
  - intros (-> & (r & -> & Hr) & Hnone). exists r. split; [done|].
    by apply list_elem_of_filter.
Qed.

Lemma bfs_inv_level (w : World) (seed : string) (maxDepth d : nat) (v : string) (k : nat)
    (rest : list (string * nat)) (visited : gmap string RelatedEntity) :
  bfs_inv w seed maxDepth d ((v, k) :: rest) visited ->
  (exists l1 l2, rest = l1 ++ l2
     /\ Forall (fun p => p.2 = k) l1 /\ Forall (fun p => p.2 = S k) l2)
  /\ d <= k.
Proof.
  intros Hinv. destruct (inv_sorted _ _ _ _ _ _ Hinv) as (l1 & l2 & Hq & H1 & H2).
  destruct l1 as [|p l1]; simpl in Hq.
  - subst l2. apply Forall_cons in H2 as [Hk H2]. simpl in Hk. subst k.
    split; [|lia]. exists rest, []. rewrite app_nil_r. split_and!; [done | done | constructor].
  - injection Hq as <- ->. apply Forall_cons in H1 as [Hk H1]. simpl in Hk. subst k.
    split; [|lia]. eauto.
Qed.

Lemma bfs_queue_depth (k : nat) (l1 l2 : list (string * nat)) (u : string) (j : nat) :
  Forall (fun p => p.2 = k) l1 -> Forall (fun p => p.2 = S k) l2 ->
  (u, j) ∈ l1 ++ l2 -> k <= j.
Proof.
  intros H1 H2 Hin. rewrite Forall_forall in H1, H2.
  apply elem_of_app in Hin as [Hin|Hin].
  - apply H1 in Hin. simpl in Hin. lia.
  - apply H2 in Hin. simpl in Hin. lia.
Qed.

(** Every node nearer to the seed than the head of the queue is visited. *)
Lemma bfs_nearer_visited (w : World) (seed : string) (maxDepth d : nat) (v : string) (k : nat)
    (rest : list (string * nat)) (visited : gmap string RelatedEntity) :
  store_ok w ->
  bfs_inv w seed maxDepth d ((v, k) :: rest) visited ->
  forall n x, walk w seed n x -> n < k ->
    exists rel, visited !! x = Some rel /\ rel_depth rel <= n.
Proof.
  intros Hok Hinv.
  destruct (bfs_inv_level _ _ _ _ _ _ _ _ Hinv) as [(l1 & l2 & Hrest & H1 & H2) Hd].
  destruct (inv_queue _ _ _ _ _ _ Hinv v k) as (_ & Hmax & _); [left|].
  induction 1 as [|n b c Hwalk IH Hlink]; intros Hlt.
  - destruct (visited !! seed) as [rel|] eqn:Hseed.
    + exists rel. split; [done|].
      destruct (inv_visited _ _ _ _ _ _ Hinv seed rel Hseed) as ([_ Hmin] & _).
      apply Hmin. constructor.
    + destruct (inv_seed _ _ _ _ _ _ Hinv Hseed) as [Hq _]. injection Hq as _ -> _. lia.
  - destruct IH as (relb & Hb & Hdb); [lia|].
    destruct (visited !! c) as [relc|] eqn:Hc.
    + exists relc. split; [done|].
      destruct (inv_visited _ _ _ _ _ _ Hinv c relc Hc) as ([_ Hmin] & _).
      apply Hmin. by econstructor.
    + exfalso.
      assert ((c, S (rel_depth relb)) ∈ (v, k) :: rest) as Hin.
      { apply (inv_frontier _ _ _ _ _ _ Hinv b relb c); [done | lia | | done].
        by apply adjacent_linked. }
      apply elem_of_cons in Hin as [Heq|Hin].
      * injection Heq as _ Heq. lia.
      * rewrite Hrest in Hin. apply (bfs_queue_depth k l1 l2) in Hin; [lia | done | done].
Qed.

(** Once the queue is empty, every node within [maxDepth] hops is visited. *)
Lemma bfs_all_visited (w : World) (seed : string) (maxDepth d : nat)
    (visited : gmap string RelatedEntity) :
  store_ok w ->
  bfs_inv w seed maxDepth d [] visited ->
  forall n x, walk w seed n x -> n <= maxDepth ->
    exists rel, visited !! x = Some rel /\ rel_depth rel <= n.
Proof.
  intros Hok Hinv. induction 1 as [|n b c Hwalk IH Hlink]; intros Hle.
  - destruct (visited !! seed) as [rel|] eqn:Hseed.
    + exists rel. split; [done|].
      destruct (inv_visited _ _ _ _ _ _ Hinv seed rel Hseed) as ([_ Hmin] & _).
      apply Hmin. constructor.
    + by destruct (inv_seed _ _ _ _ _ _ Hinv Hseed) as [Hq _].
  - destruct IH as (relb & Hb & Hdb); [lia|].
    destruct (visited !! c) as [relc|] eqn:Hc.
    + exists relc. split; [done|].
      destruct (inv_visited _ _ _ _ _ _ Hinv c relc Hc) as ([_ Hmin] & _).
      apply Hmin. by econstructor.
    + exfalso.
      assert ((c, S (rel_depth relb)) ∈ ([] : list (string * nat))) as Hin.
      { apply (inv_frontier _ _ _ _ _ _ Hinv b relb c); [done | lia | | done].
        by apply adjacent_linked. }
      by apply elem_of_nil in Hin.
Qed.

(** A turn that finds its node visited only drops the entry. *)
Lemma bfs_step_seen (w : World) (seed : string) (maxDepth d : nat) (v : string) (k : nat)
    (rest : list (string * nat)) (visited : gmap string RelatedEntity) (rel : RelatedEntity) :
  bfs_inv w seed maxDepth d ((v, k) :: rest) visited ->
  visited !! v = Some rel ->
  bfs_inv w seed maxDepth k rest visited.
Proof.
  intros Hinv Hv.
  destruct (bfs_inv_level _ _ _ _ _ _ _ _ Hinv) as [Hsorted Hd].
  constructor.
  - exact Hsorted.
  - intros u j Hin. apply (inv_queue _ _ _ _ _ _ Hinv). by right.
  - intros x relx Hx.
    destruct (inv_visited _ _ _ _ _ _ Hinv x relx Hx) as (? & ? & ? & ?).
    split_and!; [done | lia | done | done].
  - intros x relx u Hx Hlt Hadj Hu.
    pose proof (inv_frontier _ _ _ _ _ _ Hinv x relx u Hx Hlt Hadj Hu) as Hin.
    apply elem_of_cons in Hin as [Heq|Hin]; [|done].
    injection Heq as -> _. congruence.
  - intros Hseed. destruct (inv_seed _ _ _ _ _ _ Hinv Hseed) as [_ ->].
    by rewrite lookup_empty in Hv.
Qed.

(** The first visit of a node records its hop distance and pushes its
    unvisited neighbours one level down. *)
Lemma bfs_step_mark (w : World) (seed : string) (maxDepth d : nat) (v : string) (k : nat)
    (rest : list (string * nat)) (visited : gmap string RelatedEntity) (rel : RelatedEntity) :
  store_ok w ->
  bfs_inv w seed maxDepth d ((v, k) :: rest) visited ->
  visited !! v = None ->
  rel_depth rel = k ->
  ((v = seed /\ rel = mkRelated 0 "" None)
   \/ (v <> seed /\ exists e, select_entity_by_id w v = Some e
         /\ rel = mkRelated (rel_depth rel) (e_name e) (e_type e))) ->
  bfs_inv w seed maxDepth k
    (if k <? maxDepth then
       rest ++ ((fun r : string * string * option string => (r.1.1, S k)) <$>
                filter (fun r => <[v := rel]> visited !! r.1.1 = None) (related_rows w v))
     else rest)
    (<[v := rel]> visited).
Proof.
  intros Hok Hinv Hv Hdepth Hshape.
  destruct (bfs_inv_level _ _ _ _ _ _ _ _ Hinv) as [(l1 & l2 & Hrest & H1 & H2) Hd].
  destruct (inv_queue _ _ _ _ _ _ Hinv v k) as (Hwalk & Hmax & Hnode); [left|].
  assert (forall n, walk w seed n v -> k <= n) as Hmin.
  { intros n Hn. destruct (le_lt_dec k n) as [|Hlt]; [done|].
    destruct (bfs_nearer_visited _ _ _ _ _ _ _ _ Hok Hinv n v Hn Hlt) as (r & Hr & _).
    congruence. }
  constructor.
  - destruct (k <? maxDepth); [|by eauto].
    exists l1, (l2 ++ ((fun r : string * string * option string => (r.1.1, S k)) <$>
                 filter (fun r => <[v := rel]> visited !! r.1.1 = None) (related_rows w v))).
    split_and!; [by rewrite Hrest, app_assoc | done |].
    apply Forall_app. split; [done|]. apply Forall_forall. intros [u j] Hin.
    apply elem_of_pushed in Hin as [-> _]. done.
  - intros u j Hin.
    assert ((u, j) ∈ rest \/ (k < maxDepth /\ j = S k /\ u ∈ adjacent w v)) as [Hold|Hnew].
    { destruct (k <? maxDepth) eqn:Hk; [|by left].
      apply elem_of_app in Hin as [|Hin]; [by left|]. right.
      apply elem_of_pushed in Hin as (? & ? & _). apply Nat.ltb_lt in Hk. done. }
    + apply (inv_queue _ _ _ _ _ _ Hinv). by right.
    + destruct Hnew as (Hk & -> & Hadj). apply elem_of_adjacent in Hadj as [Hlink Hu].
      split_and!; [by econstructor | lia | by right].
  - intros x relx Hx. apply lookup_insert_Some in Hx as [[<- <-]|[Hne Hx]].
    + split_and!; [by rewrite Hdepth | lia | lia | done].
    + destruct (inv_visited _ _ _ _ _ _ Hinv x relx Hx) as (? & ? & ? & ?).
      split_and!; [done | lia | done | done].
  - intros x relx u Hx Hlt Hadj Hu.
    apply lookup_insert_None in Hu as [Hu Hne].
    apply lookup_insert_Some in Hx as [[<- <-]|[Hnex Hx]].
    + rewrite Hdepth in *. apply Nat.ltb_lt in Hlt as Hk. rewrite Hk.
      apply elem_of_app. right. apply elem_of_pushed. split_and!; [done | done |].
      by apply lookup_insert_None.
    + pose proof (inv_frontier _ _ _ _ _ _ Hinv x relx u Hx Hlt Hadj Hu) as Hin.
      apply elem_of_cons in Hin as [Heq|Hin]; [by injection Heq as -> _|].
      destruct (k <? maxDepth); [|done]. apply elem_of_app. by left.
  - intros Hseed. apply lookup_insert_None in Hseed as [Hseed Hne].
    destruct (inv_seed _ _ _ _ _ _ Hinv Hseed) as [Hq _]. by injection Hq as -> _.
Qed.

(** One turn of the loop keeps the invariant and lessens the work ahead. *)
Lemma bfs_visit_inv (w : World) (seed : string) (maxDepth d : nat) (v : string) (k : nat)
    (rest : list (string * nat)) (visited : gmap string RelatedEntity) :
  store_ok w ->
  bfs_inv w seed maxDepth d ((v, k) :: rest) visited ->
  exists queue' visited',
    bfs_visit w seed maxDepth (v, k) rest visited = (queue', visited')
    /\ bfs_inv w seed maxDepth k queue' visited'
    /\ length queue' + pending w visited' (seed :: (e_id <$> entities w))
       <= length rest + pending w visited (seed :: (e_id <$> entities w)).
Proof.
  intros Hok Hinv.
  destruct (inv_queue _ _ _ _ _ _ Hinv v k) as (Hwalk & Hmax & Hnode); [left|].
  assert ((maxDepth <? k) = false) as Hle by (by apply Nat.ltb_ge).
  unfold bfs_visit. cbn [fst snd]. rewrite Hle, orb_false_r.
  destruct (visited !! v) as [rel|] eqn:Hv.
  - rewrite bool_decide_true by eauto.
    exists rest, visited. split_and!; [done | by eapply bfs_step_seen | lia].
  - rewrite bool_decide_false by (by intros [? ?]).
    assert (exists rel,
              (if bool_decide (v <> seed) then
                 match select_entity_by_id w v with
                 | Some e => <[v := mkRelated k (e_name e) (e_type e)]> visited
                 | None => visited
                 end
               else <[v := mkRelated 0 "" None]> visited) = <[v := rel]> visited
              /\ rel_depth rel = k
              /\ ((v = seed /\ rel = mkRelated 0 "" None)
                  \/ (v <> seed /\ exists e, select_entity_by_id w v = Some e
                        /\ rel = mkRelated (rel_depth rel) (e_name e) (e_type e))))
      as (rel & -> & Hdepth & Hshape).
    { case_bool_decide as Hseed.
      - destruct Hnode as [|Hnode]; [done|].
        destruct (select_entity_by_id_Some w v Hnode) as (e & -> & _ & _).
        exists (mkRelated k (e_name e) (e_type e)). split_and!; [done | done |].
        right. eauto.
      - subst v.
        destruct (inv_seed _ _ _ _ _ _ Hinv Hv) as [Hq _]. injection Hq as -> _.
        exists (mkRelated 0 "" None). split_and!; [done | done | by left]. }
    eexists _, _. split; [done|]. split; [by apply (bfs_step_mark _ _ _ d)|].
    assert (v ∈ seed :: (e_id <$> entities w)) as Hin.
    { destruct Hnode as [->|Hnode]; [left | by right]. }
    pose proof (pending_insert_lt w visited v rel _ Hin Hv) as Hpending.
    assert (length (filter (fun r : string * string * option string =>
                              <[v := rel]> visited !! r.1.1 = None) (related_rows w v))
            <= length (related_rows w v)) as Hfilter by apply length_filter.
    destruct (k <? maxDepth); [|lia].
    rewrite length_app, length_fmap. lia.
Qed.

(** The loop ends within its fuel, with the invariant and an empty queue. *)
Lemma bfs_loop_inv (w : World) (seed : string) (maxDepth : nat) (fuel d : nat)
    (queue : list (string * nat)) (visited : gmap string RelatedEntity) :
  store_ok w ->
  bfs_inv w seed maxDepth d queue visited ->
  length queue + pending w visited (seed :: (e_id <$> entities w)) <= fuel ->
  exists d' result,
    bfs_loop w seed maxDepth fuel queue visited = Some result
    /\ bfs_inv w seed maxDepth d' [] result.
Proof.
  intros Hok. revert d queue visited.
  induction fuel as [|fuel IH]; intros d queue visited Hinv Hfuel.
  - destruct queue; [|simpl in Hfuel; lia]. exists d, visited. done.
  - destruct queue as [|[v k] rest]; [by exists d, visited|].
    destruct (bfs_visit_inv _ _ _ _ _ _ _ _ Hok Hinv) as (queue' & visited' & Hstep & Hinv' & Hless).
    simpl. rewrite Hstep. apply (IH k); [done|]. simpl in Hfuel. lia.
Qed.

Lemma bfs_inv_initial (w : World) (seed : string) (maxDepth : nat) :
  bfs_inv w seed maxDepth 0 [(seed, 0)] ∅.
Proof.
  constructor.
  - exists [(seed, 0)], []. split_and!; [done | by repeat constructor | constructor].
  - intros u j Hin. apply list_elem_of_singleton in Hin. injection Hin as -> ->.
    split_and!; [constructor | lia | by left].
  - intros v rel Hv. by rewrite lookup_empty in Hv.
  - intros v rel u Hv. by rewrite lookup_empty in Hv.
  - done.
Qed.

Lemma pending_empty (w : World) (nodes : list string) :
  pending w ∅ nodes = sum_list ((fun x => length (related_rows w x)) <$> nodes).
Proof.
  unfold pending. f_equal; apply list_fmap_ext; intros _ x _; by rewrite lookup_empty.
Qed.

(** C5: on a store that satisfies its foreign keys, [getRelatedEntities]
    returns a map; the prepared statement it runs follows a relationship
    from either end, so the graph it walks is undirected; the seed is not in
    the map; an entity id is in the map exactly when it is not the seed and
    lies within [maxDepth] hops of it, and the depth recorded for it is the
    length of a shortest walk from the seed (with the name and type of the
    entity); with [maxDepth = 0] the map is empty. *)
Theorem getRelatedEntities_shortest_paths (w : World) (seed : string) (maxDepth : nat) :
  store_ok w ->
  exists result,
    getRelatedEntities w seed maxDepth = Some result
    /\ (forall a b, b ∈ adjacent w a <-> linked w a b)
    /\ (forall a b, linked w a b -> linked w b a)
    /\ result !! seed = None
    /\ (forall id rel,
          result !! id = Some rel <->
          id <> seed
          /\ hop_distance w seed id (rel_depth rel)
          /\ rel_depth rel <= maxDepth
          /\ exists e, select_entity_by_id w id = Some e
               /\ rel = mkRelated (rel_depth rel) (e_name e) (e_type e))
    /\ (maxDepth = 0 -> result = ∅).
Proof.
  intros Hok.
  assert (length [(seed, 0)] + pending w ∅ (seed :: (e_id <$> entities w)) <= bfs_fuel w seed)
    as Hfuel by (rewrite pending_empty; unfold bfs_fuel; simpl; lia).
  destruct (bfs_loop_inv w seed maxDepth (bfs_fuel w seed) 0 [(seed, 0)] ∅ Hok
              (bfs_inv_initial w seed maxDepth) Hfuel) as (d & visited & Hloop & Hinv).
  assert (forall id rel,
            delete seed visited !! id = Some rel <->
            id <> seed
            /\ hop_distance w seed id (rel_depth rel)
            /\ rel_depth rel <= maxDepth
            /\ exists e, select_entity_by_id w id = Some e
                 /\ rel = mkRelated (rel_depth rel) (e_name e) (e_type e)) as Hiff.
  { intros id rel. rewrite lookup_delete_Some. split.
    - intros [Hne Hid].
      destruct (inv_visited _ _ _ _ _ _ Hinv id rel Hid) as (Hdist & _ & Hmax & [[? _]|[_ He]]);
        [congruence|].
      done.
    - intros (Hne & [Hwalk Hmin] & Hmax & e & He & Hrel). split; [done|].
      destruct (bfs_all_visited _ _ _ _ _ Hok Hinv _ _ Hwalk Hmax) as (rel' & Hid & Hle).
      destruct (inv_visited _ _ _ _ _ _ Hinv id rel' Hid)
        as ([Hwalk' _] & _ & _ & [[? _]|[_ (e' & He' & Hrel')]]); [done|].
      assert (rel_depth rel' = rel_depth rel) as Heq by (apply Hmin in Hwalk'; lia).
      rewrite Hid. f_equal. rewrite Hrel, Hrel', Heq. congruence. }
  exists (delete seed visited). unfold getRelatedEntities. rewrite Hloop. simpl.
  split_and!.
  - done.
  - intros a b. by apply adjacent_linked.
  - apply linked_sym.
  - apply lookup_delete_eq.
  - exact Hiff.
  - intros ->. apply map_empty. intros id.
    destruct (delete seed visited !! id) as [rel|] eqn:Hid; [|done].
    apply Hiff in Hid as (Hne & [Hwalk _] & Hmax & _).
    assert (rel_depth rel = 0) as H0 by lia. rewrite H0 in Hwalk.
    inversion Hwalk. congruence.
Qed.

(** ** Union-find *)

Lemma root_of_unique (parent : list nat) (x r r' : nat) :
  root_of parent x r -> root_of parent x r' -> r = r'.
Proof.
  induction 1 as [x Hx|x y r Hx Hne Hr IH]; inversion 1; subst; try congruence.
  apply IH. congruence.
Qed.

Lemma root_of_root (parent : list nat) (x r : nat) :
  root_of parent x r -> parent !! r = Some r.
Proof. induction 1; auto. Qed.

Lemma root_of_rank (n : nat) (parent rank : list nat) (x r : nat) :
  uf_wf n parent rank -> root_of parent x r -> x <> r -> rank_at rank x < rank_at rank r.
Proof.
  intros Hwf. induction 1 as [x Hx|x y r Hx Hne Hr IH]; intros Hxr; [done|].
  pose proof (wf_rank_order _ _ _ Hwf x y Hx Hne) as Hlt.
  destruct (decide (y = r)) as [->|Hyr]; [done|]. specialize (IH Hyr). lia.
Qed.

Lemma filter_length_lt {A} (P Q : A -> Prop) `{forall x, Decision (P x)}
    `{forall x, Decision (Q x)} (l : list A) (z : A) :
  (forall x, P x -> Q x) -> z ∈ l -> Q z -> ~ P z ->
  length (filter P l) < length (filter Q l).
Proof.
  intros Himpl Hz HQ HP.
  assert (forall k : list A, length (filter P k) <= length (filter Q k)) as Hle.
  { induction k as [|x k IH]; [done|]. rewrite !filter_cons.
    destruct (decide (P x)) as [Hp|Hp].
    - rewrite decide_True by auto. simpl. lia.
    - destruct (decide (Q x)); simpl; lia. }
  induction l as [|x l IH]; [by apply elem_of_nil in Hz|].
  rewrite !filter_cons. apply elem_of_cons in Hz as [<-|Hz].
  - rewrite decide_False, decide_True by done. simpl. specialize (Hle l). lia.
  - specialize (IH Hz). destruct (decide (P x)) as [Hp|Hp].
    + rewrite decide_True by auto. simpl. lia.
    + destruct (decide (Q x)); simpl; lia.
Qed.

Lemma ranked_above_lt (n : nat) (rank : list nat) (x y : nat) :
  y < n -> rank_at rank x < rank_at rank y ->
  ranked_above n rank y < ranked_above n rank x.
Proof.
  intros Hy Hlt. unfold ranked_above.
  apply (filter_length_lt _ _ _ y); [intros; lia | | done | lia].
  apply elem_of_seq. lia.
Qed.

Lemma ranked_above_bound (n : nat) (rank : list nat) (x : nat) :
  x < n -> ranked_above n rank x < n.
Proof.
  intros Hx. unfold ranked_above.
  pose proof (length_filter_lt (fun y => rank_at rank x < rank_at rank y) (seq 0 n) x) as Hlt.
  rewrite length_seq in Hlt. apply Hlt; [apply elem_of_seq; lia | lia].
Qed.

(** Pointing a node at its root keeps the structure and every root. *)
Lemma compress_one (n : nat) (parent rank : list nat) (z r : nat) :
  uf_wf n parent rank -> root_of parent z r -> z <> r ->
  uf_wf n (<[z := r]> parent) rank
  /\ forall y s, root_of (<[z := r]> parent) y s <-> root_of parent y s.
Proof.
  intros Hwf Hz Hne.
  assert (z < length parent) as Hlen by (inversion Hz; by eapply lookup_lt_Some).
  pose proof (root_of_root _ _ _ Hz) as Hr.
  split.
  - constructor.
    + rewrite length_insert. apply Hwf.
    + apply Hwf.
    + intros x y Hx. destruct (decide (x = z)) as [->|Hxz].
      * rewrite list_lookup_insert_eq in Hx by done. injection Hx as <-.
        by apply (wf_parent_range _ _ _ Hwf r r).
      * rewrite list_lookup_insert_ne in Hx by done. by apply (wf_parent_range _ _ _ Hwf x).
    + intros x y Hx Hyx. destruct (decide (x = z)) as [->|Hxz].
      * rewrite list_lookup_insert_eq in Hx by done. injection Hx as <-.
        by apply (root_of_rank n parent).
      * rewrite list_lookup_insert_ne in Hx by done. by apply (wf_rank_order _ _ _ Hwf).
  - intros y s. split.
    + induction 1 as [x Hx|x y' s Hx Hne' Hs IH].
      * destruct (decide (x = z)) as [->|Hxz].
        -- rewrite list_lookup_insert_eq in Hx by done. congruence.
        -- rewrite list_lookup_insert_ne in Hx by done. by constructor.
      * destruct (decide (x = z)) as [->|Hxz].
        -- rewrite list_lookup_insert_eq in Hx by done. injection Hx as <-.
           assert (s = r) as -> by (eapply root_of_unique; [exact IH | by constructor]).
           done.
        -- rewrite list_lookup_insert_ne in Hx by done. by econstructor.
    + assert (parent !! z <> Some z) as Hnz.
      { intros Hzz. apply Hne. eapply root_of_unique; [by constructor | exact Hz]. }
      induction 1 as [x Hx|x y' s Hx Hne' Hs IH].
      * constructor. rewrite list_lookup_insert_ne by congruence. done.
      * destruct (decide (x = z)) as [->|Hxz].
        -- assert (s = r) as ->.
           { eapply root_of_unique; [|exact Hz]. by econstructor. }
           apply (root_up _ z r r); [by rewrite list_lookup_insert_eq | done |].
           constructor. by rewrite list_lookup_insert_ne.
        -- apply (root_up _ x y' s); [by rewrite list_lookup_insert_ne | done | done].
Qed.

(** [find] returns the root, within its fuel, and keeps every root. *)
Lemma find_aux_spec (n : nat) (parent rank : list nat) (fuel x : nat) :
  uf_wf n parent rank -> x < n -> ranked_above n rank x < fuel ->
  exists r parent',
    find_aux fuel x parent = Some (r, parent')
    /\ root_of parent x r
    /\ uf_wf n parent' rank
    /\ forall y s, root_of parent' y s <-> root_of parent y s.
Proof.
  intros Hwf. revert x. induction fuel as [|fuel IH]; intros x Hx Hfuel; [lia|].
  destruct (lookup_lt_is_Some_2 parent x) as [px Hpx];
    [by rewrite (wf_parent_length _ _ _ Hwf)|].
  simpl. rewrite Hpx. simpl. case_bool_decide as Hne.
  - pose proof (wf_parent_range _ _ _ Hwf x px Hpx) as Hrange.
    pose proof (wf_rank_order _ _ _ Hwf x px Hpx Hne) as Hrank.
    pose proof (ranked_above_lt n rank x px Hrange Hrank) as Habove.
    destruct (IH px Hrange) as (r & parent1 & Hfind & Hroot & Hwf1 & Hsame); [lia|].
    rewrite Hfind. simpl.
    assert (root_of parent x r) as Hxr by (by econstructor).
    assert (x <> r) as Hxne.
    { intros ->. apply root_of_root in Hroot. congruence. }
    destruct (compress_one n parent1 rank x r Hwf1) as [Hwf2 Hsame2];
      [by apply Hsame | done |].
    exists r, (<[x := r]> parent1). split_and!; [done | done | done |].
    intros y s. by rewrite Hsame2, Hsame.
  - exists x, parent. assert (px = x) as -> by (by destruct (decide (px = x))).
    split_and!; [done | by constructor | done | done].
Qed.

Lemma uf_find_spec (n : nat) (u : UnionFind) (x : nat) :
  uf_wf n (uf_parent u) (uf_rank u) -> x < n ->
  exists r u',
    uf_find u x = Some (r, u')
    /\ root_of (uf_parent u) x r
    /\ uf_rank u' = uf_rank u
    /\ uf_wf n (uf_parent u') (uf_rank u')
    /\ forall y s, root_of (uf_parent u') y s <-> root_of (uf_parent u) y s.
Proof.
  intros Hwf Hx.
  destruct (find_aux_spec n (uf_parent u) (uf_rank u) (length (uf_parent u)) x Hwf Hx)
    as (r & parent' & Hfind & Hroot & Hwf' & Hsame).
  { rewrite (wf_parent_length _ _ _ Hwf). by apply ranked_above_bound. }
  unfold uf_find. rewrite Hfind. simpl. eauto 10.
Qed.

Lemma same_set_roots (parent parent' : list nat) (a b : nat) :
  (forall y s, root_of parent' y s <-> root_of parent y s) ->
  (same_set parent' a b <-> same_set parent a b).
Proof.
  intros Hsame. unfold same_set. split; intros (r & Ha & Hb); exists r; split; by apply Hsame.
Qed.

(** Hanging the root [a] under the root [b]. *)
Lemma link_roots (n : nat) (parent rank rank' : list nat) (a b : nat) :
  uf_wf n parent rank ->
  parent !! a = Some a -> parent !! b = Some b -> a <> b ->
  length rank' = n ->
  (forall x, x <> b -> rank_at rank' x = rank_at rank x) ->
  rank_at rank b <= rank_at rank' b ->
  rank_at rank a < rank_at rank' b ->
  uf_wf n (<[a := b]> parent) rank'
  /\ forall y s, root_of (<[a := b]> parent) y s
       <-> (root_of parent y s /\ s <> a) \/ (root_of parent y a /\ s = b).
Proof.
  intros Hwf Ha Hb Hab Hlen Hsame Hle Hlt.
  assert (a < length parent) as Halen by (by eapply lookup_lt_Some).
  split.
  - constructor.
    + rewrite length_insert. apply Hwf.
    + done.
    + intros x y Hx. destruct (decide (x = a)) as [->|Hxa].
      * rewrite list_lookup_insert_eq in Hx by done. injection Hx as <-.
        by apply (wf_parent_range _ _ _ Hwf b b).
      * rewrite list_lookup_insert_ne in Hx by done. by apply (wf_parent_range _ _ _ Hwf x).
    + intros x y Hx Hyx. destruct (decide (x = a)) as [->|Hxa].
      * rewrite list_lookup_insert_eq in Hx by done. injection Hx as <-.
        rewrite (Hsame a) by done. done.
      * rewrite list_lookup_insert_ne in Hx by done.
        assert (x <> b) as Hxb by congruence.
        pose proof (wf_rank_order _ _ _ Hwf x y Hx Hyx) as Hord.
        rewrite (Hsame x) by done.
        destruct (decide (y = b)) as [->|Hyb]; [lia|]. rewrite (Hsame y) by done. done.
  - intros y s. split.
    + induction 1 as [x Hx|x y' s Hx Hne Hs IH].
      * destruct (decide (x = a)) as [->|Hxa].
        -- rewrite list_lookup_insert_eq in Hx by done. congruence.
        -- rewrite list_lookup_insert_ne in Hx by done. left. split; [by constructor | done].
      * destruct (decide (x = a)) as [->|Hxa].
        -- rewrite list_lookup_insert_eq in Hx by done. injection Hx as <-.
           right. split; [by constructor|].
           destruct IH as [[Hbs _]|[Hba _]].
           ++ eapply root_of_unique; [exact Hbs | by constructor].
           ++ exfalso. apply Hab. eapply root_of_unique; [exact Hba | by constructor].
        -- rewrite list_lookup_insert_ne in Hx by done.
           destruct IH as [[Hys Hsa]|[Hya ->]].
           ++ left. split; [by econstructor | done].
           ++ right. split; [by econstructor | done].
    + intros [[Hys Hsa]|[Hya ->]].
      * induction Hys as [x Hx|x y' s Hx Hne Hs IH].
        -- constructor. by rewrite list_lookup_insert_ne.
        -- apply (root_up _ x y' s); [|done|by apply IH].
           rewrite list_lookup_insert_ne; [done|]. congruence.
      * remember a as a' eqn:Heq. induction Hya as [x Hx|x y' s Hx Hne Hs IH]; subst.
        -- apply (root_up _ a b b); [by rewrite list_lookup_insert_eq | done |].
           constructor. by rewrite list_lookup_insert_ne.
        -- apply (root_up _ x y' b); [|done|by apply IH].
           rewrite list_lookup_insert_ne; [done|]. congruence.
Qed.

(** The sets after hanging the root of [x0] under the root of [y0]. *)
Lemma same_set_link (parent parent' : list nat) (a b x0 y0 : nat) :
  a <> b -> root_of parent x0 a -> root_of parent y0 b ->
  (forall y s, root_of parent' y s
     <-> (root_of parent y s /\ s <> a) \/ (root_of parent y a /\ s = b)) ->
  forall x y,
    same_set parent' x y
    <-> same_set parent x y
        \/ (same_set parent x x0 /\ same_set parent y0 y)
        \/ (same_set parent x y0 /\ same_set parent x0 y).
Proof.
  intros Hab Hx0 Hy0 Hlink x y. unfold same_set. split.
  - intros (s & Hx & Hy). apply Hlink in Hx, Hy.
    destruct Hx as [[Hx Hsa]|[Hx ->]], Hy as [[Hy Hsa']|[Hy Hsb]].
    + left. eauto.
    + subst s. right. right. split; [exists b | exists a]; done.
    + right. left. split; [exists a | exists b]; done.
    + left. eauto.
  - intros [(s & Hx & Hy)|[[(s & Hx & Hx0') (t & Hy0' & Hy)]|[(s & Hx & Hy0') (t & Hx0' & Hy)]]].
    + destruct (decide (s = a)) as [->|Hsa].
      * exists b. split; apply Hlink; right; done.
      * exists s. split; apply Hlink; left; done.
    + pose proof (root_of_unique _ _ _ _ Hx0' Hx0) as ->.
      pose proof (root_of_unique _ _ _ _ Hy0' Hy0) as ->.
      exists b. split; apply Hlink; [right | left]; done.
    + pose proof (root_of_unique _ _ _ _ Hy0' Hy0) as ->.
      pose proof (root_of_unique _ _ _ _ Hx0' Hx0) as ->.
      exists b. split; apply Hlink; [left | right]; done.
Qed.

Lemma rank_at_insert (rank : list nat) (x v : nat) :
  x < length rank -> rank_at (<[x := v]> rank) x = v.
Proof. intros H. unfold rank_at. by rewrite list_lookup_insert_eq. Qed.

Lemma rank_at_insert_ne (rank : list nat) (x y v : nat) :
  x <> y -> rank_at (<[x := v]> rank) y = rank_at rank y.
Proof. intros H. unfold rank_at. by rewrite list_lookup_insert_ne. Qed.

(** [union] joins the sets of its two arguments and touches no other. *)
Lemma uf_union_spec (n : nat) (u : UnionFind) (x y : nat) :
  uf_wf n (uf_parent u) (uf_rank u) -> x < n -> y < n ->
  exists u',
    uf_union u x y = Some u'
    /\ uf_wf n (uf_parent u') (uf_rank u')
    /\ forall a b,
         same_set (uf_parent u') a b
         <-> same_set (uf_parent u) a b
             \/ (same_set (uf_parent u) a x /\ same_set (uf_parent u) y b)
             \/ (same_set (uf_parent u) a y /\ same_set (uf_parent u) x b).
Proof.
  forget_parameters. intros Hwf Hx Hy.
  destruct (uf_find_spec n u x Hwf Hx) as (rx & u1 & Hfx & Hrx & Hrank1 & Hwf1 & Hsame1).
  destruct (uf_find_spec n u1 y Hwf1 Hy) as (ry & u2 & Hfy & Hry & Hrank2 & Hwf2 & Hsame2).
  assert (forall z s, root_of (uf_parent u2) z s <-> root_of (uf_parent u) z s) as Hsame
    by (intros z s; by rewrite Hsame2, Hsame1).
  assert (root_of (uf_parent u2) x rx) as Hx2 by (by apply Hsame).
  assert (root_of (uf_parent u2) y ry) as Hy2 by (by apply Hsame2).
  assert (forall a b, same_set (uf_parent u2) a b <-> same_set (uf_parent u) a b) as Hsets
    by (intros a b; by apply same_set_roots).
  unfold uf_union. rewrite Hfx. simpl. rewrite Hfy. simpl.
  case_bool_decide as Heq.
  - subst ry. exists u2. split_and!; [done | done |].
    intros a b. rewrite Hsets. split; [by left|].
    intros [H|[[(s & Ha & Hs) (t & Ht & Hb)]|[(s & Ha & Hs) (t & Ht & Hb)]]]; [done| |].
    + apply Hsame in Hx2, Hy2.
      pose proof (root_of_unique _ _ _ _ Hs Hx2) as ->.
      pose proof (root_of_unique _ _ _ _ Ht Hy2) as ->. by exists rx.
    + apply Hsame in Hx2, Hy2.
      pose proof (root_of_unique _ _ _ _ Hs Hy2) as ->.
      pose proof (root_of_unique _ _ _ _ Ht Hx2) as ->. by exists rx.
  - pose proof (root_of_root _ _ _ Hx2) as Hrootx.
    pose proof (root_of_root _ _ _ Hy2) as Hrooty.
    assert (rx < length (uf_rank u2)) as Hlx.
    { rewrite (wf_rank_length _ _ _ Hwf2). by apply (wf_parent_range _ _ _ Hwf2 rx rx). }
    assert (ry < length (uf_rank u2)) as Hly.
    { rewrite (wf_rank_length _ _ _ Hwf2). by apply (wf_parent_range _ _ _ Hwf2 ry ry). }
    destruct (lookup_lt_is_Some_2 _ _ Hlx) as [rank_x Hrkx].
    destruct (lookup_lt_is_Some_2 _ _ Hly) as [rank_y Hrky].
    rewrite Hrkx, Hrky. simpl.
    assert (rank_at (uf_rank u2) rx = rank_x) as Hax by (unfold rank_at; by rewrite Hrkx).
    assert (rank_at (uf_rank u2) ry = rank_y) as Hay by (unfold rank_at; by rewrite Hrky).
    destruct (rank_x <? rank_y) eqn:Hlt; [|destruct (rank_y <? rank_x) eqn:Hgt].
    + apply Nat.ltb_lt in Hlt.
      destruct (link_roots n (uf_parent u2) (uf_rank u2) (uf_rank u2) rx ry)
        as [Hwf' Hlink];
        [exact Hwf2 | exact Hrootx | exact Hrooty | exact Heq | apply Hwf2 | done | lia | lia |].
      eexists. split; [done|]. split; [exact Hwf'|]. cbn [uf_parent].
      intros a b. rewrite (same_set_link _ _ rx ry x y Heq Hx2 Hy2 Hlink).
      by rewrite !Hsets.
    + apply Nat.ltb_lt in Hgt.
      destruct (link_roots n (uf_parent u2) (uf_rank u2) (uf_rank u2) ry rx)
        as [Hwf' Hlink];
        [exact Hwf2 | exact Hrooty | exact Hrootx | by apply not_eq_sym | apply Hwf2
        | done | lia | lia |].
      eexists. split; [done|]. split; [exact Hwf'|]. cbn [uf_parent].
      intros a b. rewrite (same_set_link _ _ ry rx y x (not_eq_sym Heq) Hy2 Hx2 Hlink).
      rewrite !Hsets. tauto.
    + apply Nat.ltb_ge in Hlt, Hgt.
      destruct (link_roots n (uf_parent u2) (uf_rank u2) (<[rx := S rank_x]> (uf_rank u2)) ry rx)
        as [Hwf' Hlink]; [exact Hwf2 | exact Hrooty | exact Hrootx | by apply not_eq_sym | ..].
      * rewrite length_insert. apply Hwf2.
      * intros z Hz. by apply rank_at_insert_ne.
      * rewrite rank_at_insert by done. lia.
      * rewrite rank_at_insert by done. lia.
      * eexists. split; [done|]. split; [exact Hwf'|]. cbn [uf_parent].
        intros a b. rewrite (same_set_link _ _ ry rx y x (not_eq_sym Heq) Hy2 Hx2 Hlink).
        rewrite !Hsets. tauto.
Qed.

(** ** Connected components *)

Lemma rtsc_mono {A} (R R' : relation A) (a b : A) :
  (forall x y, R x y -> R' x y) -> rtsc R a b -> rtsc R' a b.
Proof.
  intros Hsub. induction 1 as [a|a c b Hac Hcb IH]; [reflexivity|].
  etrans; [|exact IH]. destruct Hac as [H|H]; [apply rtsc_lr | apply rtsc_rl]; auto.
Qed.

(** The components after one more edge [(i, j)]. *)
Lemma rtsc_add_edge {A} (R R' : relation A) (i j : A) :
  (forall x y, R' x y <-> R x y \/ (x = i /\ y = j)) ->
  forall a b,
    rtsc R' a b
    <-> rtsc R a b \/ (rtsc R a i /\ rtsc R j b) \/ (rtsc R a j /\ rtsc R i b).
Proof.
  intros HR a b. split.
  - induction 1 as [a|a c b Hac Hcb IH]; [left; reflexivity|].
    assert (rtsc R a c \/ (a = i /\ c = j) \/ (a = j /\ c = i)) as Hstep.
    { destruct Hac as [H|H]; apply HR in H as [H|[-> ->]];
        [left; by apply rtsc_lr | right; by left | left; by apply rtsc_rl | right; by right]. }
    destruct Hstep as [Hs|[[-> ->]|[-> ->]]]; destruct IH as [IH|[[H1 H2]|[H1 H2]]].
    + left. by etrans.
    + right. left. split; [by etrans | done].
    + right. right. split; [by etrans | done].
    + right. left. split; [reflexivity | done].
    + left. etrans; [symmetry; exact H1 | exact H2].
    + by left.
    + right. right. split; [reflexivity | done].
    + by left.
    + left. etrans; [symmetry; exact H1 | exact H2].
  - assert (forall x y, rtsc R x y -> rtsc R' x y) as Hmono.
    { intros x y. apply rtsc_mono. intros ? ? ?. apply HR. by left. }
    assert (rtsc R' i j) as Hij by (apply rtsc_lr, HR; by right).
    intros [H|[[H1 H2]|[H1 H2]]].
    + by apply Hmono.
    + etrans; [by apply Hmono|]. etrans; [exact Hij|]. by apply Hmono.
    + etrans; [by apply Hmono|]. etrans; [symmetry; exact Hij|]. by apply Hmono.
Qed.


Lemma root_of_fresh (n a r : nat) : root_of (seq 0 n) a r -> r = a /\ a < n.
Proof.
  inversion 1 as [x Hx|x y s Hx Hne Hs]; subst.
  - apply lookup_seq in Hx. lia.
  - apply lookup_seq in Hx. lia.
Qed.




(** ** The grouping loop *)






(** ** The clusters *)




Section Memo.
Variable vectors : list StoredVector.
Variable similarities : gmap (nat * nat) Q.
Hypothesis memo :
  forall i j sim, similarities !! (i, j) = Some sim ->
    exists vi vj, vectors !! i = Some vi /\ vectors !! j = Some vj
      /\ sim = cosineSimilarity (sv_vector vi) (sv_vector vj).



End Memo.








Lemma insert_by_Permutation {A} (before : A -> A -> bool) (x : A) (l : list A) :
  insert_by before x l ≡ₚ x :: l.
Proof.
  induction l as [|y l IH]; simpl; [done|].
  destruct (before x y); [done|]. rewrite IH. apply Permutation_swap.
Qed.

Lemma sort_by_Permutation {A} (before : A -> A -> bool) (l : list A) :
  sort_by before l ≡ₚ l.
Proof.
  induction l as [|x l IH]; simpl; [done|].
  rewrite insert_by_Permutation. by constructor.
Qed.










(** ** recall *)

Lemma dedup_by_id_elem (l : list MemoryResult) (m : MemoryResult) :
  m ∈ dedup_by_id l -> m ∈ l.
Proof.
  induction l as [|a l IH]; simpl; [done|].
  rewrite !elem_of_cons, list_elem_of_filter. intros [->|[_ H]]; auto.
Qed.









Lemma order_by_desc_sorted {A} (key : A -> string) (l : list A) :
  Sorted (fun a b => String.leb (key b) (key a) = true) (order_by_desc key l).
Proof. apply sort_by_sorted. intros a b. apply String.leb_total. Qed.



(** * Further properties of the repositories and the tools *)

(** ** Helpers on rows *)

Lemma first_row_filter_Some {A} (P : A -> Prop) `{forall x, Decision (P x)} (l : list A) (x : A) :
  first_row (filter P l) = Some x -> x ∈ l /\ P x.
Proof.
  intros Hhead. apply head_Some_elem_of in Hhead. by apply list_elem_of_filter in Hhead as [? ?].
Qed.

Lemma first_row_filter_None {A} (P : A -> Prop) `{forall x, Decision (P x)} (l : list A) :
  first_row (filter P l) = None -> forall x, x ∈ l -> ~ P x.
Proof.
  intros Hhead x Hx HP. apply head_None in Hhead.
  assert (x ∈ filter P l) as Hin by (by apply list_elem_of_filter).
  rewrite Hhead in Hin. by apply elem_of_nil in Hin.
Qed.

Lemma select_entity_by_name_None (w : World) (name : string) :
  select_entity_by_name w name = None -> name ∉ e_name <$> entities w.
Proof.
  intros Hnone Hin. apply list_elem_of_fmap in Hin as (e & -> & He).
  by apply (first_row_filter_None _ _ Hnone e He).
Qed.

Lemma changes_positive {A} (f : A -> string) (id : string) (l : list A) :
  (0 <? length (filter (fun x => f x = id) l)) = bool_decide (id ∈ f <$> l).
Proof.
  forget_parameters.
  induction l as [|x l IH]; [done|].
  rewrite fmap_cons. destruct (decide (f x = id)) as [Heq|Hne].
  - rewrite filter_cons_True by done. simpl. symmetry. apply bool_decide_eq_true_2.
    subst id. left.
  - rewrite filter_cons_False by done. rewrite IH. apply bool_decide_ext.
    rewrite elem_of_cons. naive_solver.
Qed.

Lemma NoDup_fmap_filter {A} (f : A -> string) (P : A -> Prop) `{forall x, Decision (P x)}
    (l : list A) :
  NoDup (f <$> l) -> NoDup (f <$> filter P l).
Proof.
  intros Hnd. eapply sublist_NoDup; [exact Hnd|].
  apply fmap_sublist, sublist_filter.
Qed.

Lemma filter_key_absent {A} (f : A -> string) (id : string) (l : list A) :
  id ∉ f <$> l -> filter (fun x => f x ≠ id) l = l.
Proof.
  intros Hnot. apply filter_all. intros x Hx Heq. apply Hnot.
  apply list_elem_of_fmap. by exists x.
Qed.

(** ** db/entities.ts: findOrCreateEntity *)

Lemma findOrCreateEntity_created (name : string) (type : option string) (w : World) :
  select_entity_by_name w name = None ->
  uuid (rng w) ∉ e_id <$> entities w ->
  findOrCreateEntity name type w
  = (Ok (mkEntity (uuid (rng w)) name type (now w) (now w)),
     mkWorld (entities w ++ [mkEntity (uuid (rng w)) name type (now w) (now w)])
       (observations w) (embeddings w) (relationships w) (S (rng w)) (now w)).
Proof.
  intros Hsel Hfresh.
  pose proof (select_entity_by_name_None _ _ Hsel) as Hname.
  unfold findOrCreateEntity, findEntityByName, randomUUID, insertEntity, findEntityById.
  run. rewrite Hsel. simpl.
  rewrite bool_decide_false by done. rewrite bool_decide_false by done. simpl.
  unfold select_entity_by_id. simpl.
  by rewrite (filter_key_app_new e_id (uuid (rng w)) (entities w)).
Qed.

(** X1: [findOrCreateEntity] returns the entity of that name, creating it when
    there is none; once it has run, running it again, with whatever type,
    returns the same entity and changes nothing.  The type of an entity that
    exists already is not updated. *)
Theorem findOrCreateEntity_idempotent (name : string) (type : option string) (w : World) :
  uuid (rng w) ∉ e_id <$> entities w ->
  exists e w',
    findOrCreateEntity name type w = (Ok e, w')
    /\ e_name e = name
    /\ select_entity_by_name w' name = Some e
    /\ (forall type', findOrCreateEntity name type' w' = (Ok e, w'))
    /\ (forall e0, select_entity_by_name w name = Some e0 -> e = e0 /\ w' = w)
    /\ (select_entity_by_name w name = None ->
        e = mkEntity (uuid (rng w)) name type (now w) (now w)
        /\ w' = mkWorld (entities w ++ [e]) (observations w) (embeddings w)
                  (relationships w) (S (rng w)) (now w)).
Proof.
  intros Hfresh.
  destruct (select_entity_by_name w name) as [e0|] eqn:Hsel.
  - exists e0, w. split_and!.
    + by apply findOrCreateEntity_existing.
    + by apply first_row_filter_Some in Hsel as [_ ?].
    + done.
    + intros type'. by apply findOrCreateEntity_existing.
    + intros e1 [= <-]. done.
    + done.
  - pose proof (select_entity_by_name_None _ _ Hsel) as Hname.
    set (e := mkEntity (uuid (rng w)) name type (now w) (now w)).
    set (w' := mkWorld (entities w ++ [e]) (observations w) (embeddings w)
                 (relationships w) (S (rng w)) (now w)).
    assert (select_entity_by_name w' name = Some e) as Hsel'.
    { unfold select_entity_by_name, w'. simpl.
      by rewrite (filter_key_app_new e_name name (entities w) e). }
    assert (findOrCreateEntity name type w = (Ok e, w')) as Hrun
      by (by apply findOrCreateEntity_created).
    exists e, w'. split_and!; try done.
    intros type'. by apply findOrCreateEntity_existing.
Qed.

(** ** db/relationships.ts: relationshipExists and createRelationship *)

(** [relationshipExists] only reads the store, does not depend on the order
    of its two arguments, and answers whether some relationship joins the
    two entities in either direction. *)
Theorem relationshipExists_symmetric (a b : string) (w : World) :
  exists present,
    relationshipExists a b w = (Ok present, w)
    /\ relationshipExists b a w = (Ok present, w)
    /\ (present = true <-> linked w a b).
Proof.
  forget_parameters.
  eexists. split; [reflexivity|]. split.
  - unfold relationshipExists. run. do 2 f_equal. apply bool_decide_ext.
    rewrite !Exists_exists. naive_solver.
  - rewrite bool_decide_eq_true, Exists_exists. unfold linked. naive_solver.
Qed.

(** X2: a relationship between two stored entities is inserted as given and is
    seen by [relationshipExists] from both ends; when one of the two
    entities is not stored the insert fails on the foreign key and no
    relationship is added. *)
Theorem createRelationship_round_trip (a b type : string) (w : World) :
  uuid (rng w) ∉ r_id <$> relationships w ->
  (a ∈ e_id <$> entities w -> b ∈ e_id <$> entities w ->
   exists r w',
     createRelationship a b type w = (Ok r, w')
     /\ r = mkRelationship (uuid (rng w)) a b type (now w)
     /\ relationships w' = relationships w ++ [r]
     /\ relationshipExists a b w' = (Ok true, w')
     /\ relationshipExists b a w' = (Ok true, w'))
  /\ (a ∉ e_id <$> entities w \/ b ∉ e_id <$> entities w ->
      createRelationship a b type w
      = (Throw (SqliteError "FOREIGN KEY constraint failed"), set_rng (S (rng w)) w)).
Proof.
  forget_parameters.
  intros Hfresh. split.
  - intros Ha Hb. rewrite (createRelationship_Ok a b type w Hfresh Ha Hb).
    eexists _, _. split; [reflexivity|]. split; [reflexivity|]. split; [reflexivity|].
    unfold relationshipExists. run. split; do 2 f_equal; apply bool_decide_eq_true_2;
      apply Exists_app; right; constructor; simpl; tauto.
  - intros Hmissing. unfold createRelationship, randomUUID, insertRelationship. run.
    rewrite bool_decide_false by done. by rewrite bool_decide_true by done.
Qed.

(** ** db/observations.ts: getObservationsByIds *)

Lemma omap_lookup_ids (byId : gmap string Observation) (stored : list string) (l : list string) :
  (forall k o, byId !! k = Some o -> o_id o = k) ->
  (forall k, k ∈ l -> (is_Some (byId !! k) <-> k ∈ stored)) ->
  o_id <$> omap (fun id => byId !! id) l = filter (fun id => id ∈ stored) l.
Proof.
  intros Hkey Hdom. induction l as [|k l IH]; [done|].
  assert (o_id <$> omap (fun id => byId !! id) l = filter (fun id => id ∈ stored) l) as IH'.
  { apply IH. intros k' Hk'. apply Hdom. by right. }
  cbn [omap list_omap]. destruct (byId !! k) as [o|] eqn:Hk.
  - rewrite fmap_cons, IH', (Hkey _ _ Hk). rewrite filter_cons_True; [done|].
    apply Hdom; [left | by rewrite Hk].
  - rewrite filter_cons_False; [exact IH'|].
    intros Hin. apply Hdom in Hin; [|left]. rewrite Hk in Hin. by destruct Hin.
Qed.

(** X3: [getObservationsByIds] only reads the store and keeps the order of the
    request: the ids of the rows it returns are the requested ids that are
    stored, in the order and with the repetitions of the request; the ids
    that are not stored are dropped silently. *)
Theorem getObservationsByIds_requested_order (ids : list string) (w : World) :
  exists rows,
    getObservationsByIds ids w = (Ok rows, w)
    /\ o_id <$> rows = filter (fun id => id ∈ o_id <$> observations w) ids
    /\ Forall (fun o => o ∈ observations w) rows.
Proof.
  exists (fetch w ids). split; [apply getObservationsByIds_run|]. split.
  - unfold fetch. apply omap_lookup_ids.
    + intros k o Hk. by apply js_map_of_Some in Hk as [_ ?].
    + intros k Hk. split.
      * intros [o Ho]. apply js_map_of_Some in Ho as [Ho <-].
        apply elem_of_requested in Ho as [_ Ho]. apply list_elem_of_fmap. by exists o.
      * intros Hin. apply js_map_of_is_Some.
        apply list_elem_of_fmap in Hin as (o & -> & Ho).
        apply list_elem_of_fmap. exists o. split; [done|]. by apply elem_of_requested.
  - apply Forall_forall. intros o Ho. apply fetch_requested in Ho.
    by apply elem_of_requested in Ho as [_ ?].
Qed.

(** ** mcp/tools/forget.ts *)

Lemma filter_iff_elem {A} (P Q : A -> Prop) `{forall x, Decision (P x)}
    `{forall x, Decision (Q x)} (l : list A) :
  (forall x, x ∈ l -> (P x <-> Q x)) -> filter P l = filter Q l.
Proof.
  induction l as [|x l IH]; intros Hl; [done|].
  assert (filter P l = filter Q l) as IH' by (apply IH; intros y Hy; apply Hl; by right).
  destruct (decide (P x)) as [HP|HP].
  - rewrite !filter_cons_True; [by rewrite IH' | by apply Hl; [left|] | done].
  - rewrite !filter_cons_False; [done | | done]. intros HQ. apply HP. apply Hl; [left | done].
Qed.

Lemma filter_idem {A} (P : A -> Prop) `{forall x, Decision (P x)} (l : list A) :
  filter P (filter P l) = filter P l.
Proof. apply filter_all. intros x Hx. by apply list_elem_of_filter in Hx as [? _]. Qed.

Lemma elem_of_key {A} (f : A -> string) (x : A) (l : list A) : x ∈ l -> f x ∈ f <$> l.
Proof. intros Hx. apply list_elem_of_fmap. by exists x. Qed.

(** X4: deleting by observation id: the observation and the embeddings of that
    observation go, nothing else changes, and the constraints of the schema
    still hold; [success] tells whether the observation was stored, and an
    id that is not stored leaves the store as it was.  The count of deleted
    embeddings is 1 whenever at least one went. *)
Theorem forget_observation (name : option string) (oid : string) (w : World) :
  oid <> "" ->
  let stored := bool_decide (oid ∈ o_id <$> observations w) in
  let indexed := bool_decide (oid ∈ emb_observation_id <$> embeddings w) in
  let w' := mkWorld (entities w) (filter (fun o => o_id o ≠ oid) (observations w))
              (filter (fun m => emb_observation_id m ≠ oid) (embeddings w))
              (relationships w) (rng w) (now w) in
  (exists message,
     forget (mkForgetInput name (Some oid)) w
     = (Ok (mkForgetResult stored message
              (mkDeleted (if stored then 1 else 0) (if indexed then 1 else 0) 0 false)), w'))
  /\ (store_ok w -> store_ok w')
  /\ (store_ok w -> stored = false -> w' = w).
Proof.
  intros Hid stored indexed w'. split_and!.
  - unfold forget. cbn [fi_entity fi_observation_id]. rewrite (truthy_Some oid Hid).
    rewrite andb_false_r. cbn [negb default from_option id].
    unfold deleteEmbedding, deleteObservation. run.
    unfold cascade_observation, set_embeddings, set_observations. simpl.
    rewrite filter_idem, !changes_positive. fold stored indexed. unfold id.
    destruct stored; eauto.
  - intros Hok. constructor; simpl.
    + apply Hok.
    + apply Hok.
    + apply NoDup_fmap_filter, Hok.
    + apply NoDup_fmap_filter, Hok.
    + apply Hok.
    + apply Forall_forall. intros o Ho. apply list_elem_of_filter in Ho as [_ Ho].
      pose proof (fk_observations _ Hok) as Hfk. rewrite Forall_forall in Hfk. by apply Hfk.
    + apply Forall_forall. intros m Hm. apply list_elem_of_filter in Hm as [Hne Hm].
      pose proof (fk_embeddings _ Hok) as Hfk. rewrite Forall_forall in Hfk.
      destruct (Hfk m Hm) as [He Ho]. split; [done|].
      apply list_elem_of_fmap in Ho as (o & Hoid & Ho).
      apply list_elem_of_fmap. exists o. split; [done|].
      apply list_elem_of_filter. split; [congruence | done].
    + apply Hok.
  - intros Hok Hstored. apply bool_decide_eq_false in Hstored.
    unfold w'. rewrite (filter_key_absent o_id oid _ Hstored).
    rewrite (filter_all (fun m => emb_observation_id m ≠ oid)); [by destruct w|].
    intros m Hm Heq. apply Hstored. rewrite <- Heq.
    pose proof (fk_embeddings _ Hok) as Hfk. rewrite Forall_forall in Hfk.
    by apply Hfk.
Qed.

(** X5: deleting by entity name: an unknown name is reported with [success:
    false] and nothing is deleted.  A known entity goes with every
    observation, embedding and relationship that refers to it; the counts
    are those of the rows that referred to it; afterwards the name is not
    found any more and the constraints of the schema still hold. *)
Theorem forget_entity (name : string) (w : World) :
  name <> "" -> store_ok w ->
  (select_entity_by_name w name = None ->
   exists message,
     forget (mkForgetInput (Some name) None) w
     = (Ok (mkForgetResult false message (mkDeleted 0 0 0 false)), w))
  /\ (forall e, select_entity_by_name w name = Some e ->
      let mine := filter (fun o => o_entity_id o = e_id e) (observations w) in
      exists message w',
        forget (mkForgetInput (Some name) None) w
        = (Ok (mkForgetResult true message
                 (mkDeleted (length mine)
                    (length (filter (fun m => emb_entity_id m = e_id e) (embeddings w)))
                    (length (filter (fun r => r_from_entity r = e_id e \/ r_to_entity r = e_id e)
                               (relationships w)))
                    true)), w')
        /\ entities w' = filter (fun x => e_id x ≠ e_id e) (entities w)
        /\ observations w' = filter (fun o => o_entity_id o ≠ e_id e) (observations w)
        /\ (forall m, m ∈ embeddings w' <->
              m ∈ embeddings w /\ emb_entity_id m ≠ e_id e
              /\ emb_observation_id m ∉ o_id <$> mine)
        /\ relationships w'
           = filter (fun r => ¬ (r_from_entity r = e_id e \/ r_to_entity r = e_id e))
               (relationships w)
        /\ select_entity_by_name w' name = None
        /\ store_ok w').
Proof.
  forget_parameters.
  intros Hname Hok. split.
  - intros Hnone. unfold forget. cbn [fi_entity fi_observation_id].
    rewrite (truthy_Some name Hname). cbn [truthy negb andb default from_option id].
    unfold findEntityByName. run. unfold id. rewrite Hnone. eauto.
  - intros e Hsel mine.
    destruct (first_row_filter_Some _ _ _ Hsel) as [He Hename].
    unfold forget. cbn [fi_entity fi_observation_id].
    rewrite (truthy_Some name Hname). cbn [truthy negb andb default from_option id].
    unfold findEntityByName, deleteEmbeddingsByEntity, deleteObservationsByEntity,
      deleteRelationshipsByEntity, deleteEntity.
    run. unfold id. rewrite Hsel. simpl.
    rewrite changes_positive. rewrite bool_decide_eq_true_2 by by apply elem_of_key.
    match goal with |- context [(Ok _, ?W)] => set (w' := W) end.
    assert (entities w' = filter (fun x => e_id x ≠ e_id e) (entities w)) as He' by done.
    assert (observations w' = filter (fun o => o_entity_id o ≠ e_id e) (observations w)) as Ho'
      by apply filter_idem.
    assert (forall m, m ∈ embeddings w' <->
              m ∈ embeddings w /\ emb_entity_id m ≠ e_id e
              /\ emb_observation_id m ∉ o_id <$> mine) as Hm'.
    { intros m. unfold w', cascade_entity. simpl.
      rewrite (filter_none (fun o => o_entity_id o = e_id e)
                 (filter (fun o => o_entity_id o ≠ e_id e) (observations w)))
        by (intros o Ho; by apply list_elem_of_filter in Ho as [? _]).
      rewrite !list_elem_of_filter. fold mine. rewrite fmap_nil.
      pose proof (not_elem_of_nil (emb_observation_id m)). tauto. }
    assert (relationships w'
            = filter (fun r => ¬ (r_from_entity r = e_id e \/ r_to_entity r = e_id e))
                (relationships w)) as Hr'.
    { unfold w', cascade_entity. simpl. apply filter_all.
      intros r Hr. apply list_elem_of_filter in Hr as [Hr _]. tauto. }
    assert (forall k, k ∈ e_id <$> entities w -> k ≠ e_id e -> k ∈ e_id <$> entities w') as Hkeep.
    { intros k Hk Hne. rewrite He'. apply list_elem_of_fmap in Hk as (x & -> & Hx).
      apply elem_of_key. by apply list_elem_of_filter. }
    pose proof (fk_observations _ Hok) as Hfko. rewrite Forall_forall in Hfko.
    pose proof (fk_embeddings _ Hok) as Hfkm. rewrite Forall_forall in Hfkm.
    pose proof (fk_relationships _ Hok) as Hfkr. rewrite Forall_forall in Hfkr.
    eexists _, w'. split; [reflexivity|]. split_and!; try done.
    + unfold select_entity_by_name. rewrite He'.
      rewrite (filter_none (fun x => e_name x = name)); [done|].
      intros x Hx Hxname. apply list_elem_of_filter in Hx as [Hne Hx]. apply Hne.
      f_equal. apply (key_unique e_name (entities w)); [apply Hok | done | done | congruence].
    + constructor.
      * rewrite He'. apply NoDup_fmap_filter, Hok.
      * rewrite He'. apply NoDup_fmap_filter, Hok.
      * rewrite Ho'. apply NoDup_fmap_filter, Hok.
      * unfold w', cascade_entity. simpl. do 3 apply NoDup_fmap_filter. apply Hok.
      * rewrite Hr'. apply NoDup_fmap_filter, Hok.
      * apply Forall_forall. intros o Ho. rewrite Ho' in Ho.
        apply list_elem_of_filter in Ho as [Hne Ho]. apply Hkeep; [by apply Hfko | done].
      * apply Forall_forall. intros m Hm. apply Hm' in Hm as (Hm & Hne & Hgone).
        destruct (Hfkm m Hm) as [Hentity Hobs]. split; [by apply Hkeep|].
        apply list_elem_of_fmap in Hobs as (o & Hoid & Ho). rewrite Hoid, Ho'.
        apply elem_of_key. apply list_elem_of_filter. split; [|done].
        intros Hmine. apply Hgone. rewrite Hoid. apply elem_of_key.
        by apply list_elem_of_filter.
      * apply Forall_forall. intros r Hr. rewrite Hr' in Hr.
        apply list_elem_of_filter in Hr as [Hne Hr].
        destruct (Hfkr r Hr) as [Hfrom Hto]. split; apply Hkeep; try done; tauto.
Qed.

(** ** db/entities.ts and db/observations.ts: the listing queries *)

(** X6: [listEntities] only reads the store; it returns at most [limit] entities
    (100 when no limit is given), the most recently updated first, all of
    the requested type when a non-empty type is given; an empty type is no
    filter.  When the limit is not reached, every entity is listed. *)
Theorem listEntities_bounds (type : option string) (limit : option nat) (w : World) :
  exists rows,
    listEntities type limit w = (Ok rows, w)
    /\ length rows <= nullish limit 100
    /\ Sorted (fun a b => String.leb (e_updated_at b) (e_updated_at a) = true) rows
    /\ (forall e, e ∈ rows -> e ∈ entities w /\ (truthy type = true -> e_type e = type))
    /\ (truthy type = false -> length (entities w) <= nullish limit 100 ->
        rows ≡ₚ entities w).
Proof.
  unfold listEntities. run. destruct (truthy type) eqn:Htype.
  - eexists. split; [reflexivity|]. unfold slice0. split_and!.
    + rewrite length_take. lia.
    + apply Sorted_take, order_by_desc_sorted.
    + intros e He. apply elem_of_take in He as (i & He & _).
      apply list_elem_of_lookup_2 in He. apply elem_of_sort_by in He.
      apply list_elem_of_filter in He as [? ?]. done.
    + done.
  - eexists. split; [reflexivity|]. unfold slice0. split_and!.
    + rewrite length_take. lia.
    + apply Sorted_take, order_by_desc_sorted.
    + intros e He. apply elem_of_take in He as (i & He & _).
      apply list_elem_of_lookup_2 in He. apply elem_of_sort_by in He. done.
    + intros _ Hlen. rewrite take_ge.
      * apply sort_by_Permutation.
      * unfold order_by_desc. by rewrite sort_by_length.
Qed.


(** ** mcp/tools/remember.ts and merge.ts: a failing embedder *)

(** X8: [remember] resolves the entity before it embeds the content: when the
    embedder rejects, the call raises and stores no observation, embedding
    or relationship, but an entity that did not exist has been created and
    stays, without observations. *)
Theorem remember_embedder_failure (input : RememberInput) (w : World) :
  embedder (ri_content input) = None ->
  uuid (rng w) ∉ e_id <$> entities w ->
  let name := if truthy (ri_entity input) then default "" (ri_entity input) else "general" in
  exists w',
    remember input w = (Throw EmbedderError, w')
    /\ observations w' = observations w
    /\ embeddings w' = embeddings w
    /\ relationships w' = relationships w
    /\ (forall e, select_entity_by_name w name = Some e -> w' = w)
    /\ (select_entity_by_name w name = None ->
        entities w'
        = entities w ++ [mkEntity (uuid (rng w)) name (ri_type input) (now w) (now w)]).
Proof.
  intros Hdown Hfresh name. unfold remember. fold name.
  destruct (select_entity_by_name w name) as [e|] eqn:Hsel.
  - rewrite (bind_Ok _ _ _ _ _ (findOrCreateEntity_existing _ (ri_type input) _ _ Hsel)).
    unfold generateEmbedding. rewrite Hdown. exists w. by split_and!.
  - rewrite (bind_Ok _ _ _ _ _ (findOrCreateEntity_created _ (ri_type input) _ Hsel Hfresh)).
    unfold generateEmbedding. rewrite Hdown. eexists. by split_and!.
Qed.

(** What [merge] does once its two checks have passed. *)
Lemma merge_validated (input : MergeInput) (w : World) :
  store_ok w ->
  mi_observation_ids input <> [] ->
  (forall id, id ∈ mi_observation_ids input -> id ∈ o_id <$> observations w) ->
  ~ spans_entities w (mi_observation_ids input) ->
  exists first rest entity,
    fetch w (mi_observation_ids input) = first :: rest
    /\ select_entity_by_id w (o_entity_id first) = Some entity
    /\ merge input w
       = (vector <- generateEmbedding (mi_content input) ;;
          newObservation <- createObservation (o_entity_id first) (mi_content input)
                              (first_source (first :: rest)) ;;
          storeEmbedding (o_entity_id first) (o_id newObservation) vector (mi_content input) ;;;
          forM (first :: rest) tt (fun _ obs =>
            deleteEmbedding (o_id obs) ;;; deleteObservation (o_id obs) ;;; ret tt) ;;;
          ret (mkMergeResult true (o_id newObservation) (length (first :: rest)) (e_name entity)
                 ("Merged " +:+ pretty (length (first :: rest))
                    +:+ " observations into one for " +:+ dquote +:+ e_name entity
                    +:+ dquote +:+ "."))) w.
Proof.
  intros Hok Hne Hall Hnspan. set (ids := mi_observation_ids input) in *.
  pose proof (fetch_ids w ids Hall) as Hids.
  destruct (fetch w ids) as [|first rest] eqn:Hfetch; [by symmetry in Hids|].
  assert (o_entity_id first ∈ e_id <$> entities w) as Hfk.
  { pose proof (fk_observations w Hok) as Hf. rewrite Forall_forall in Hf. apply Hf.
    assert (first ∈ fetch w ids) as Hin by (rewrite Hfetch; left).
    by apply fetch_requested, elem_of_requested in Hin as [_ ?]. }
  destruct (select_entity_by_id_Some w _ Hfk) as (entity & Hsel & _ & _).
  exists first, rest, entity. split; [done|]. split; [done|].
  unfold merge. rewrite (bind_Ok _ _ _ _ _ (getObservationsByIds_run _ _)).
  fold ids. rewrite Hfetch.
  assert (filter (fun id => id ∉ (list_to_set (o_id <$> first :: rest) : gset string)) ids = [])
    as ->.
  { apply filter_none. intros id Hid Hn. apply Hn.
    apply elem_of_list_to_set. rewrite Hids. done. }
  assert ((1 <? size (list_to_set (o_entity_id <$> first :: rest) : gset string)) = false) as ->.
  { apply Nat.ltb_ge. apply Nat.nlt_ge. intros Hsize. apply Hnspan.
    apply size_gt_1 in Hsize as (x & y & Hx & Hy & Hxy).
    apply elem_of_list_to_set, list_elem_of_fmap in Hx as (o1 & -> & H1).
    apply elem_of_list_to_set, list_elem_of_fmap in Hy as (o2 & -> & H2).
    exists o1, o2. rewrite <- Hfetch in H1, H2.
    split_and!; [by apply fetch_requested | by apply fetch_requested | done]. }
  cbn [length Nat.ltb Nat.leb].
  unfold findEntityById. unfold bind at 1. unfold bind at 1. unfold get, ret at 1.
  rewrite Hsel. reflexivity.
Qed.

(** X9: [merge] embeds the new content before it writes anything: when the
    embedder rejects, a call that passed the two checks raises and leaves
    the store as it was, the originals included. *)
Theorem merge_embedder_failure (input : MergeInput) (w : World) :
  store_ok w ->
  mi_observation_ids input <> [] ->
  (forall id, id ∈ mi_observation_ids input -> id ∈ o_id <$> observations w) ->
  ~ spans_entities w (mi_observation_ids input) ->
  embedder (mi_content input) = None ->
  merge input w = (Throw EmbedderError, w).
Proof.
  intros Hok Hne Hall Hnspan Hdown.
  destruct (merge_validated input w Hok Hne Hall Hnspan) as (first & rest & entity & _ & _ & ->).
  unfold generateEmbedding. by rewrite Hdown.
Qed.

(** ** mcp/tools/update.ts *)

Lemma touch_touch (id stamp : string) (es : list Entity) :
  touch id stamp (touch id stamp es) = touch id stamp es.
Proof.
  unfold touch. rewrite <- list_fmap_compose. apply list_fmap_ext.
  intros _ e _. cbn [compose]. destruct (decide (e_id e = id)) as [He|He].
  - rewrite (bool_decide_eq_true_2 _ He). cbn [e_id]. by rewrite (bool_decide_eq_true_2 _ He).
  - rewrite (bool_decide_eq_false_2 _ He). by rewrite (bool_decide_eq_false_2 _ He).
Qed.

Lemma update_target_elem (w : World) (entityId old_content : string) (target : Observation) :
  update_target w entityId old_content = Some target ->
  target ∈ observations w /\ o_entity_id target = entityId /\ o_content target = old_content.
Proof.
  intros Htarget. apply first_row_filter_Some in Htarget as [Hin Hcontent].
  apply elem_of_sort_by in Hin. apply list_elem_of_filter in Hin as [? ?]. done.
Qed.

(** X10: [update] changes nothing when it fails to find its target: an unknown
    entity, or an entity none of whose observations has exactly the old
    content, gives [success: false] and the store stays as it was. *)
Theorem update_not_found (input : UpdateInput) (w : World) :
  (select_entity_by_name w (ui_entity input) = None ->
   exists message, update input w = (Ok (mkUpdateResult false message None), w))
  /\ (forall e, select_entity_by_name w (ui_entity input) = Some e ->
      (forall o, o ∈ observations w -> o_entity_id o = e_id e ->
         o_content o <> ui_old_content input) ->
      exists message, update input w = (Ok (mkUpdateResult false message None), w)).
Proof.
  split.
  - intros Hsel. unfold update, findEntityByName. run. rewrite Hsel. eauto.
  - intros e Hsel Hnone. unfold update, findEntityByName, getObservationsByEntity. run.
    rewrite Hsel. simpl. unfold array_find.
    rewrite (filter_none (fun o => o_content o = ui_old_content input)); [simpl; eauto|].
    intros o Ho. apply elem_of_sort_by in Ho. apply list_elem_of_filter in Ho as [He Ho].
    by apply Hnone.
Qed.

(** What [update] does once it has found its target. *)
Lemma update_found (input : UpdateInput) (w : World) (entity : Entity) (target : Observation) :
  select_entity_by_name w (ui_entity input) = Some entity ->
  update_target w (e_id entity) (ui_old_content input) = Some target ->
  update input w
  = (newObs <- createObservation (e_id entity) (ui_new_content input) (o_source target) ;;
     vector <- generateEmbedding (ui_new_content input) ;;
     storeEmbedding (e_id entity) (o_id newObs) vector (ui_new_content input) ;;;
     deleteEmbedding (o_id target) ;;;
     deleteObservation (o_id target) ;;;
     updateEntityTimestamp (e_id entity) ;;;
     ret (mkUpdateResult true
            ("Updated observation for entity " +:+ dquote +:+ ui_entity input +:+ dquote +:+ ".")
            (Some (o_id newObs)))) w.
Proof.
  intros Hsel Htarget. unfold update, findEntityByName, getObservationsByEntity.
  unfold bind at 1. unfold bind at 1. unfold get, ret at 1. rewrite Hsel.
  unfold bind at 1. unfold bind at 1. unfold get, ret at 1.
  unfold update_target in Htarget. by rewrite Htarget.
Qed.

(** X11: a successful [update] replaces one observation: the target and its
    embeddings go, a new observation with the new content and the source of
    the target is stored with its embedding, the entity is stamped, and
    nothing else changes; the result carries the id of the new observation.
    When several observations have the old content, only the first of them,
    newest first, is replaced. *)
Theorem update_replaces_target (input : UpdateInput) (w : World) (entity : Entity)
    (target : Observation) (vector : list Q) :
  uuid_ok -> ids_generated w ->
  select_entity_by_name w (ui_entity input) = Some entity ->
  update_target w (e_id entity) (ui_old_content input) = Some target ->
  embedder (ui_new_content input) = Some vector ->
  let new := mkObservation (uuid (rng w)) (e_id entity) (ui_new_content input)
               (o_source target) (now w) in
  let new_embedding := mkStoredEmbedding (uuid (S (rng w))) (e_id entity) (uuid (rng w))
                         vector (ui_new_content input) (now w) in
  target ∈ observations w
  /\ o_content target = ui_old_content input
  /\ exists message,
       update input w
       = (Ok (mkUpdateResult true message (Some (uuid (rng w)))),
          mkWorld (touch (e_id entity) (now w) (entities w))
            (filter (fun o => o_id o ≠ o_id target) (observations w) ++ [new])
            (filter (fun m => emb_observation_id m ≠ o_id target) (embeddings w)
               ++ [new_embedding])
            (relationships w) (S (S (rng w))) (now w)).
Proof.
  intros Hu Hgen Hsel Htarget Hemb new new_embedding.
  destruct (update_target_elem _ _ _ _ Htarget) as (Hin & Hentity & Hcontent).
  split; [done|]. split; [done|].
  pose proof (select_entity_by_name_elem _ _ _ Hsel) as Hent.
  assert (e_id entity ∈ e_id <$> entities w) as Hid by (by apply elem_of_key).
  assert (uuid (rng w) ∉ o_id <$> observations w) as Hfresh1
    by (by apply fresh_uuid_observations).
  assert (uuid (S (rng w)) ∉ emb_id <$> embeddings w) as Hfresh2
    by (apply fresh_uuid_embeddings; [done | done | lia]).
  assert (o_id target ≠ uuid (rng w)) as Hne.
  { intros Heq. apply Hfresh1. rewrite <- Heq. by apply elem_of_key. }
  eexists. rewrite (update_found _ _ _ _ Hsel Htarget).
  rewrite (bind_Ok _ _ _ _ _ (createObservation_Ok _ _ _ _ Hfresh1 Hid)).
  rewrite (bind_Ok _ _ _ _ _ (generateEmbedding_Ok _ _ _ Hemb)).
  cbn [o_id].
  erewrite bind_Ok; cycle 1.
  { apply storeEmbedding_Ok; cbn [rng embeddings entities observations].
    - exact Hfresh2.
    - by rewrite e_id_touch.
    - rewrite fmap_app, elem_of_app. right. simpl. left. }
  cbn [rng embeddings entities observations relationships now].
  unfold deleteEmbedding, deleteObservation, updateEntityTimestamp. run.
  unfold cascade_observation, set_embeddings, set_observations, set_entities. simpl.
  rewrite filter_idem, !filter_app.
  rewrite !(filter_cons_True _ _ []) by (simpl; congruence). rewrite !filter_nil.
  fold (touch (e_id entity) (now w) (entities w)).
  fold (touch (e_id entity) (now w) (touch (e_id entity) (now w) (entities w))).
  rewrite touch_touch. reflexivity.
Qed.

(** X12: [update] stores the new observation before it embeds it: when the
    embedder rejects, the call raises with the new observation already
    stored, without an embedding, and the target still there. *)
Theorem update_embedder_failure (input : UpdateInput) (w : World) (entity : Entity)
    (target : Observation) :
  uuid_ok -> ids_generated w ->
  select_entity_by_name w (ui_entity input) = Some entity ->
  update_target w (e_id entity) (ui_old_content input) = Some target ->
  embedder (ui_new_content input) = None ->
  update input w
  = (Throw EmbedderError,
     mkWorld (touch (e_id entity) (now w) (entities w))
       (observations w ++ [mkObservation (uuid (rng w)) (e_id entity) (ui_new_content input)
                             (o_source target) (now w)])
       (embeddings w) (relationships w) (S (rng w)) (now w)).
Proof.
  intros Hu Hgen Hsel Htarget Hdown.
  pose proof (select_entity_by_name_elem _ _ _ Hsel) as Hent.
  assert (e_id entity ∈ e_id <$> entities w) as Hid by (by apply elem_of_key).
  assert (uuid (rng w) ∉ o_id <$> observations w) as Hfresh1
    by (by apply fresh_uuid_observations).
  rewrite (update_found _ _ _ _ Hsel Htarget).
  rewrite (bind_Ok _ _ _ _ _ (createObservation_Ok _ _ _ _ Hfresh1 Hid)).
  unfold generateEmbedding. by rewrite Hdown.
Qed.

(** ** mcp/tools/remember.ts: auto-detected relationships *)








(** ** mcp/tools/remember.ts: a new observation *)




(** ** embeddings/embedder.ts: backfillEmbeddings *)

Lemma with_embeddings_cons (w : World) (o : Observation) (l : list Observation) :
  with_embeddings (with_embeddings w [o]) l = with_embeddings w (o :: l).
Proof.
  unfold with_embeddings, backfilled. simpl. f_equal; [|lia].
  rewrite <- app_assoc. f_equal. simpl. rewrite Nat.add_0_r. f_equal.
  apply imap_ext. intros k x _. simpl. do 2 f_equal. lia.
Qed.

Lemma backfill_loop (l : list Observation) (count : nat) (w : World) :
  uuid_ok ->
  (forall k, rng w <= k -> uuid k ∉ emb_id <$> embeddings w) ->
  (forall o, o ∈ l -> o_entity_id o ∈ e_id <$> entities w
                      /\ o_id o ∈ o_id <$> observations w
                      /\ is_Some (embedder (o_content o))) ->
  forM l count (fun count obs =>
    vector <- generateEmbedding (o_content obs) ;;
    storeEmbedding (o_entity_id obs) (o_id obs) vector (o_content obs) ;;;
    ret (S count)) w
  = (Ok (count + length l), with_embeddings w l).
Proof.
  intros Hu. revert count w. induction l as [|o l IH]; intros count w Hfresh Hall.
  - simpl. unfold ret, with_embeddings, backfilled. simpl.
    rewrite !Nat.add_0_r, app_nil_r. by destruct w.
  - destruct (Hall o) as (He & Ho & [v Hv]); [left|].
    cbn [forM].
    assert ((vector <- generateEmbedding (o_content o) ;;
             storeEmbedding (o_entity_id o) (o_id o) vector (o_content o) ;;;
             ret (S count)) w = (Ok (S count), with_embeddings w [o])) as Hstep.
    { rewrite (bind_Ok _ _ _ _ _ (generateEmbedding_Ok _ _ _ Hv)).
      rewrite (bind_Ok _ _ _ _ _ (storeEmbedding_Ok _ _ _ _ _ (Hfresh _ (Nat.le_refl _)) He Ho)).
      unfold ret, with_embeddings, backfilled. simpl.
      by rewrite Hv, Nat.add_0_r, Nat.add_1_r. }
    rewrite (bind_Ok _ _ _ _ _ Hstep). rewrite IH.
    + rewrite with_embeddings_cons. simpl. do 2 f_equal. lia.
    + intros k Hk. unfold with_embeddings, backfilled in *. cbn [rng embeddings] in *.
      simpl in Hk. rewrite fmap_app, elem_of_app. intros [Hin|Hin].
      * by apply (Hfresh k); [lia|].
      * simpl in Hin. apply list_elem_of_singleton in Hin. apply (proj1 Hu) in Hin. lia.
    + intros o' Ho'. apply Hall. by right.
Qed.

Lemma backfilled_ids (w : World) (l : list Observation) :
  emb_observation_id <$> backfilled w l = o_id <$> l.
Proof.
  unfold backfilled. generalize (rng w). induction l as [|o l IH]; intros n; [done|].
  rewrite imap_cons, !fmap_cons. cbn [emb_observation_id]. f_equal.
  rewrite <- (IH (S n)). f_equal. apply imap_ext.
  intros k x _. cbn [compose]. do 2 f_equal. lia.
Qed.

(** X15: when the embedder accepts every observation that has no embedding, the
    backfill gives each of them one and returns how many there were; the
    embeddings that were there stay, nothing else changes, no observation
    is left without an embedding, and a second backfill finds nothing to
    do. *)
Theorem backfillEmbeddings_completes (w : World) :
  store_ok w -> uuid_ok -> ids_generated w ->
  (forall o, o ∈ missing_embeddings w -> is_Some (embedder (o_content o))) ->
  let w' := with_embeddings w (missing_embeddings w) in
  backfillEmbeddings w = (Ok (length (missing_embeddings w)), w')
  /\ emb_observation_id <$> embeddings w'
     = (emb_observation_id <$> embeddings w) ++ (o_id <$> missing_embeddings w)
  /\ (forall o, o ∈ observations w' -> o_id o ∈ emb_observation_id <$> embeddings w')
  /\ backfillEmbeddings w' = (Ok 0, w').
Proof.
  intros Hok Hu Hgen Hall w'.
  assert (emb_observation_id <$> embeddings w'
          = (emb_observation_id <$> embeddings w) ++ (o_id <$> missing_embeddings w)) as Hids.
  { unfold w', with_embeddings. cbn [embeddings]. by rewrite fmap_app, backfilled_ids. }
  assert (forall o, o ∈ observations w' -> o_id o ∈ emb_observation_id <$> embeddings w')
    as Hcomplete.
  { intros o Ho. rewrite Hids. apply elem_of_app.
    destruct (decide (o_id o ∈ emb_observation_id <$> embeddings w)) as [Hin|Hnot];
      [by left | right].
    apply elem_of_key. by apply list_elem_of_filter. }
  assert (missing_embeddings w' = []) as Hnone.
  { unfold missing_embeddings. apply filter_none. intros o Ho Hnot. by apply Hnot, Hcomplete. }
  split_and!; try done.
  - unfold backfillEmbeddings. unfold bind at 1. unfold get.
    case_bool_decide as Hlen.
    + apply nil_length_inv in Hlen. unfold w'. rewrite Hlen.
      unfold ret, with_embeddings, backfilled. simpl.
      rewrite Nat.add_0_r, app_nil_r. by destruct w.
    + rewrite backfill_loop; [done | done | |].
      * intros k Hk. by apply fresh_uuid_embeddings.
      * intros o Ho. split_and!; [| |by apply Hall].
        -- pose proof (fk_observations _ Hok) as Hfk. rewrite Forall_forall in Hfk.
           apply Hfk. by apply list_elem_of_filter in Ho as [_ ?].
        -- apply elem_of_key. by apply list_elem_of_filter in Ho as [_ ?].
  - unfold backfillEmbeddings. unfold bind at 1. unfold get. rewrite Hnone. reflexivity.
Qed.

(** ** mcp/tools/consolidate.ts: the union-find on its own *)

Lemma same_root_same_set (n : nat) (u : UnionFind) (a b : nat) :
  uf_wf n (uf_parent u) (uf_rank u) -> a < n -> b < n ->
  (same_root u a b <-> same_set (uf_parent u) a b).
Proof.
  intros Hwf Ha Hb.
  destruct (uf_find_spec n u a Hwf Ha) as (ra & ua & Hfa & Hra & _).
  destruct (uf_find_spec n u b Hwf Hb) as (rb & ub & Hfb & Hrb & _).
  unfold same_root. rewrite Hfa, Hfb. split.
  - intros (r & u1 & u2 & [= -> _] & [= -> _]). by exists r.
  - intros (r & Ha' & Hb').
    pose proof (root_of_unique _ _ _ _ Hra Ha') as ->.
    pose proof (root_of_unique _ _ _ _ Hrb Hb') as ->. eauto.
Qed.

Lemma union_all_inv (n : nat) (pairs seen : list (nat * nat)) (u : UnionFind) :
  uf_wf n (uf_parent u) (uf_rank u) ->
  (forall a b, a < n -> b < n ->
     (same_set (uf_parent u) a b <-> rtsc (fun x y => (x, y) ∈ seen) a b)) ->
  Forall (fun p => p.1 < n /\ p.2 < n) pairs ->
  exists u',
    union_all pairs u = Some u'
    /\ uf_wf n (uf_parent u') (uf_rank u')
    /\ forall a b, a < n -> b < n ->
         (same_set (uf_parent u') a b <-> rtsc (fun x y => (x, y) ∈ seen ++ pairs) a b).
Proof.
  revert seen u. induction pairs as [|[i j] pairs IH]; intros seen u Hwf Hsets Hall.
  - exists u. split; [done|]. split; [done|]. rewrite app_nil_r. exact Hsets.
  - apply Forall_cons in Hall as [[Hi Hj] Hall]. cbn [fst snd] in Hi, Hj.
    destruct (uf_union_spec n u i j Hwf Hi Hj) as (u1 & Hunion & Hwf1 & Hsets1).
    destruct (IH (seen ++ [(i, j)]) u1 Hwf1) as (u' & Hrun & Hwf' & Hsets'); [|done|].
    { intros a b Ha Hb. rewrite Hsets1, !Hsets by done. symmetry. apply rtsc_add_edge.
      intros x y. rewrite elem_of_app, list_elem_of_singleton. split.
      - intros [Hin|[= -> ->]]; [by left | by right].
      - intros [Hin|[-> ->]]; [by left | by right]. }
    exists u'. split; [|split; [done|]].
    + unfold union_all in *. cbn [foldM_option fst snd]. by rewrite Hunion.
    + intros a b Ha Hb. rewrite (Hsets' a b Ha Hb). by rewrite <- app_assoc.
Qed.

Lemma UnionFind_new_wf (n : nat) :
  uf_wf n (uf_parent (UnionFind_new n)) (uf_rank (UnionFind_new n)).
Proof.
  constructor; simpl.
  - apply length_seq.
  - apply length_replicate.
  - intros x y Hx. apply lookup_seq in Hx. lia.
  - intros x y Hx Hne. apply lookup_seq in Hx. lia.
Qed.

(** X16: after any run of [union] calls on a fresh union-find of [n] elements,
    every [find] returns, and [find(a)] and [find(b)] agree exactly when
    the unions connect [a] and [b]. *)
Theorem UnionFind_connects (n : nat) (pairs : list (nat * nat)) :
  Forall (fun p => p.1 < n /\ p.2 < n) pairs ->
  exists u,
    union_all pairs (UnionFind_new n) = Some u
    /\ forall a b, a < n -> b < n ->
         (same_root u a b <-> rtsc (fun x y => (x, y) ∈ pairs) a b).
Proof.
  intros Hall.
  destruct (union_all_inv n pairs [] (UnionFind_new n)) as (u & Hrun & Hwf & Hsets);
    [apply UnionFind_new_wf | | done |].
  { intros a b Ha Hb. split.
    - intros (r & Hra & Hrb). apply root_of_fresh in Hra as [-> _], Hrb as [-> _]. reflexivity.
    - intros Hab. assert (a = b) as ->.
      { induction Hab as [|a c b Hac Hcb IH]; [done|].
        destruct Hac as [Hin|Hin]; by apply elem_of_nil in Hin. }
      exists b. split; constructor; by apply lookup_seq. }
  exists u. split; [done|]. intros a b Ha Hb.
  rewrite (same_root_same_set n u a b Hwf Ha Hb). by apply Hsets.
Qed.

(** ** mcp/tools/export.ts *)

Lemma gather_loop (es : list Entity) (acc : list EntityData) (w : World) :
  forM es acc (fun entitiesData entity =>
    observations <- getObservationsByEntity (e_id entity) ;;
    relationships <- getRelationshipsByEntity (e_id entity) ;;
    ret (entitiesData ++ [mkEntityData entity observations relationships])) w
  = (Ok (acc ++ (gathered w <$> es)), w).
Proof.
  revert acc. induction es as [|e es IH]; intros acc.
  - simpl. unfold ret. by rewrite app_nil_r.
  - cbn [forM]. unfold bind at 1. unfold getObservationsByEntity, getRelationshipsByEntity.
    run. rewrite IH. by rewrite <- app_assoc.
Qed.

Lemma foldl_total (l : list EntityData) (n : nat) :
  foldl (fun total ed => total + length (ed_observations ed)) n l
  = n + sum_list ((fun ed => length (ed_observations ed)) <$> l).
Proof.
  revert n. induction l as [|ed l IH]; intros n; [simpl; lia|].
  cbn [foldl]. rewrite IH, fmap_cons. cbn [sum_list sum_list_with]. unfold id. lia.
Qed.

Lemma length_filter_split {A} (P : A -> Prop) `{forall x, Decision (P x)} (l : list A) :
  length (filter P l) + length (filter (fun x => ¬ P x) l) = length l.
Proof.
  induction l as [|x l IH]; [done|].
  destruct (decide (P x)).
  - rewrite filter_cons_True, filter_cons_False by tauto. simpl. lia.
  - rewrite filter_cons_False, filter_cons_True by tauto. simpl. lia.
Qed.

(** Every observation belongs to exactly one entity. *)
Lemma count_by_entity (es : list Entity) (obs : list Observation) :
  NoDup (e_id <$> es) ->
  (forall o, o ∈ obs -> o_entity_id o ∈ e_id <$> es) ->
  sum_list ((fun e => length (filter (fun o => o_entity_id o = e_id e) obs)) <$> es)
  = length obs.
Proof.
  forget_parameters.
  revert obs. induction es as [|e es IH]; intros obs Hnd Hfk.
  - destruct obs as [|o obs]; [done|].
    assert (o_entity_id o ∈ e_id <$> []) as Hin by (apply Hfk; left).
    by apply elem_of_nil in Hin.
  - rewrite fmap_cons in Hnd. apply NoDup_cons in Hnd as [He Hnd].
    rewrite fmap_cons. cbn [sum_list sum_list_with]. unfold id at 1.
    rewrite <- (length_filter_split (fun o => o_entity_id o = e_id e) obs). f_equal.
    rewrite <- (IH (filter (fun o => ¬ o_entity_id o = e_id e) obs) Hnd).
    + f_equal. apply list_fmap_ext. intros i e' He'. f_equal.
      rewrite list_filter_filter. apply filter_iff_elem. intros o _.
      assert (e_id e' ≠ e_id e).
      { intros Heq. apply He. rewrite <- Heq. apply elem_of_key.
        by eapply list_elem_of_lookup_2. }
      split; [|tauto]. intros Ho. split; [done|]. congruence.
    + intros o Ho. apply list_elem_of_filter in Ho as [Hne Ho].
      pose proof (Hfk o Ho) as Hin. rewrite fmap_cons in Hin.
      apply elem_of_cons in Hin as [|]; [done | done].
Qed.

(** X17: an export of the whole store counts every entity and every observation
    once and changes nothing; an export of one entity counts the
    observations of that entity; an unknown entity gives [success: false]
    with empty data. *)
Theorem exportMemories_counts
    (formatClaudeMd : list EntityData -> string)
    (formatMarkdown formatJson : list EntityData -> list RelationshipWithNames -> string)
    (format : ExportFormat) (w : World) :
  (forall name, name <> "" -> select_entity_by_name w name = None ->
   exists message,
     exportMemories formatClaudeMd formatMarkdown formatJson
       (mkExportInput format (Some name) None) w
     = (Ok (mkExportResult false (format_name format) 0 0 "" message), w))
  /\ (forall name e, name <> "" -> select_entity_by_name w name = Some e ->
      exists data message,
        exportMemories formatClaudeMd formatMarkdown formatJson
          (mkExportInput format (Some name) None) w
        = (Ok (mkExportResult true (format_name format) 1
                 (length (filter (fun o => o_entity_id o = e_id e) (observations w)))
                 data message), w))
  /\ (store_ok w -> length (entities w) <= 10000 ->
      exists data message,
        exportMemories formatClaudeMd formatMarkdown formatJson
          (mkExportInput format None None) w
        = (Ok (mkExportResult true (format_name format) (length (entities w))
                 (length (observations w)) data message), w)).
Proof.
  split_and!.
  - intros name Hname Hsel. unfold exportMemories. cbn [ei_entity ei_type ei_format].
    rewrite (truthy_Some name Hname). cbn [default from_option id].
    unfold findEntityByName. run. unfold id. rewrite Hsel. simpl. eauto.
  - intros name e Hname Hsel. unfold exportMemories. cbn [ei_entity ei_type ei_format].
    rewrite (truthy_Some name Hname). cbn [default from_option id].
    unfold findEntityByName. unfold bind at 1. unfold bind at 1. unfold bind at 1.
    unfold get, ret at 1. unfold id. rewrite Hsel. unfold ret at 1.
    cbn [length bool_decide decide_rel]. rewrite bool_decide_eq_false_2 by done.
    unfold gatherEntityData. rewrite (bind_Ok _ _ _ _ _ (gather_loop _ _ _)).
    unfold ret. cbn [app fmap list_fmap foldl gathered ed_observations Nat.add].
    unfold order_by_desc. rewrite sort_by_length. eauto.
  - intros Hok Hlen. unfold exportMemories. cbn [ei_entity ei_type ei_format truthy].
    assert (listEntities None (Some 10000) w
            = (Ok (take 10000 (order_by_desc e_updated_at (entities w))), w)) as Hlist
      by reflexivity.
    rewrite take_ge in Hlist by (unfold order_by_desc; by rewrite sort_by_length).
    unfold bind at 1. rewrite (bind_Ok _ _ _ _ _ Hlist). unfold ret at 1.
    assert (length (order_by_desc e_updated_at (entities w)) = length (entities w)) as Hsame
      by (unfold order_by_desc; by rewrite sort_by_length).
    rewrite Hsame. case_bool_decide as Hempty.
    + apply nil_length_inv in Hempty.
      assert (observations w = []) as Hnone.
      { pose proof (fk_observations _ Hok) as Hfk. rewrite Hempty in Hfk.
        destruct (observations w) as [|o os]; [done|].
        apply Forall_cons in Hfk as [Hin _]. by apply elem_of_nil in Hin. }
      rewrite Hempty, Hnone. unfold ret. simpl. eauto.
    + unfold gatherEntityData. rewrite (bind_Ok _ _ _ _ _ (gather_loop _ _ _)).
      unfold ret. cbn [app]. rewrite foldl_total. cbn [Nat.add].
      rewrite <- list_fmap_compose.
      assert (sum_list ((fun ed => length (ed_observations ed)) ∘ gathered w
                          <$> order_by_desc e_updated_at (entities w))
              = length (observations w)) as ->; [|eauto].
      rewrite <- (count_by_entity (order_by_desc e_updated_at (entities w)) (observations w)).
      * f_equal. apply list_fmap_ext. intros _ e _. cbn [compose gathered ed_observations].
        unfold order_by_desc. by rewrite sort_by_length.
      * unfold order_by_desc. rewrite sort_by_Permutation. apply Hok.
      * intros o Ho. pose proof (fk_observations _ Hok) as Hfk. rewrite Forall_forall in Hfk.
        unfold order_by_desc. rewrite sort_by_Permutation. by apply Hfk.
Qed.

Lemma dedup_relationship_loop (l : list RelationshipWithNames)
    (st : gset string * list RelationshipWithNames) :
  (forall id, id ∈ st.1 <-> id ∈ relationship_ids st.2) ->
  NoDup (relationship_ids st.2) ->
  let st' := foldl dedup_relationship st l in
  (forall id, id ∈ st'.1 <-> id ∈ relationship_ids st'.2)
  /\ NoDup (relationship_ids st'.2)
  /\ (forall rel, rel ∈ st'.2 -> rel ∈ st.2 \/ rel ∈ l)
  /\ (forall id, id ∈ relationship_ids st.2 \/ id ∈ relationship_ids l ->
        id ∈ relationship_ids st'.2).
Proof.
  forget_parameters.
  revert st. induction l as [|rel l IH]; intros st Hseen Hnd; cbn [foldl].
  - split_and!; try done.
    + intros rel' ?. by left.
    + intros id [?|Hin]; [done|]. by apply elem_of_nil in Hin.
  - set (st1 := dedup_relationship st rel).
    assert ((forall id, id ∈ st1.1 <-> id ∈ relationship_ids st1.2)
            /\ NoDup (relationship_ids st1.2)
            /\ (forall rel', rel' ∈ st1.2 -> rel' ∈ st.2 \/ rel' = rel)
            /\ (forall id, id ∈ relationship_ids st.2 \/ id = r_id (rn_relationship rel) ->
                  id ∈ relationship_ids st1.2)) as (Hseen1 & Hnd1 & Hfrom1 & Hall1).
    { unfold st1, dedup_relationship. case_bool_decide as Hin.
      - split_and!; try done; [by left|]. intros id [?| ->]; [done|]. by apply Hseen.
      - cbn [fst snd]. unfold relationship_ids in *. rewrite fmap_app. cbn [fmap list_fmap].
        split_and!.
        + intros id. rewrite elem_of_union, elem_of_singleton, elem_of_app,
            list_elem_of_singleton, Hseen. tauto.
        + apply NoDup_app. split; [done|]. split; [|apply NoDup_singleton].
          intros id Hid ->%list_elem_of_singleton. by apply Hin, Hseen.
        + intros rel'. rewrite elem_of_app, list_elem_of_singleton. tauto.
        + intros id. rewrite elem_of_app, list_elem_of_singleton. tauto. }
    destruct (IH st1 Hseen1 Hnd1) as (Hseen' & Hnd' & Hfrom' & Hall').
    split_and!; try done.
    + intros rel' Hrel'. destruct (Hfrom' rel' Hrel') as [Hin|Hin].
      * destruct (Hfrom1 rel' Hin) as [?| ->]; [by left | right; left].
      * right. by right.
    + intros id [Hid|Hid].
      * apply Hall'. left. apply Hall1. by left.
      * unfold relationship_ids in Hid. rewrite fmap_cons in Hid.
        apply elem_of_cons in Hid as [->|Hid].
        -- apply Hall'. left. apply Hall1. by right.
        -- apply Hall'. by right.
Qed.

Lemma foldl_bind {A B C} (f : C -> B -> C) (g : A -> list B) (l : list A) (c : C) :
  foldl (fun st x => foldl f st (g x)) c l = foldl f c (l ≫= g).
Proof.
  revert c. induction l as [|x l IH]; intros c; [done|].
  cbn [foldl mbind list_bind]. by rewrite foldl_app, IH.
Qed.

(** X18: [deduplicateRelationships] keeps one row for each relationship id: no id
    comes twice in its result, every row of its result is a row of some
    entity, and every relationship id of some entity is in its result. *)
Theorem deduplicateRelationships_unique (entitiesData : list EntityData) :
  let all := entitiesData ≫= ed_relationships in
  let unique := deduplicateRelationships entitiesData in
  NoDup (relationship_ids unique)
  /\ (forall rel, rel ∈ unique -> rel ∈ all)
  /\ (forall id, id ∈ relationship_ids all <-> id ∈ relationship_ids unique).
Proof.
  forget_parameters.
  intros all unique. unfold unique, deduplicateRelationships. rewrite foldl_bind. fold all.
  destruct (dedup_relationship_loop all (∅, [])) as (_ & Hnd & Hfrom & Hall).
  - intros id. cbn. rewrite elem_of_nil. set_solver.
  - constructor.
  - split_and!; [done | |].
    + intros rel Hrel. destruct (Hfrom rel Hrel) as [Hin|Hin]; [|done].
      by apply elem_of_nil in Hin.
    + intros id. split.
      * intros Hid. apply Hall. by right.
      * intros Hid. unfold relationship_ids in *.
        apply list_elem_of_fmap in Hid as (rel & -> & Hrel).
        destruct (Hfrom rel Hrel) as [Hin|Hin]; [by apply elem_of_nil in Hin|].
        apply list_elem_of_fmap. by exists rel.
Qed.

(** ** context *)







(** X20: the entity [context] works on is looked up by exact name first, then by
    [LIKE], then by meaning.  An entity with the topic as its name is the
    one found, without the embedder being asked.  When no name equals or
    contains the topic, a failure of the embedder is not an error: [context]
    answers that nothing was found; and when the embedder answers, the best
    semantic hit is taken exactly when its similarity is at least 0.2, and
    its entity is then found. *)
Theorem context_lookup_order (w : World) (topic : string) :
  (forall e, select_entity_by_name w topic = Some e -> context_entity w topic = Some e)
  /\ (select_entity_by_name w topic = None ->
      (forall e, e ∈ entities w -> like ("%" +:+ topic +:+ "%") (e_name e) = false) ->
      (embedder topic = None ->
         forall depth, context w (mkContextInput topic depth) = Some (context_not_found topic))
      /\ (forall queryVector, embedder topic = Some queryVector ->
            match select_scored w queryVector 5 None None with
            | [] => context_entity w topic = None
            | r :: _ =>
                if Qge_bool (ss_similarity r) (2 # 10)
                then exists e, context_entity w topic = Some e /\ e_id e = ss_entity_id r
                                /\ e ∈ entities w
                else context_entity w topic = None
            end)).
Proof.
  split.
  { intros e He. unfold context_entity. by rewrite He. }
  intros Hname Hlike.
  assert (select_entities_like w topic = []) as Hnone.
  { unfold select_entities_like.
    destruct (filter (fun e => like ("%" +:+ topic +:+ "%") (e_name e) = true) (entities w))
      as [|e l] eqn:Hfilter; [done|].
    assert (e ∈ filter (fun e => like ("%" +:+ topic +:+ "%") (e_name e) = true) (entities w))
      as Hin by (rewrite Hfilter; left).
    apply list_elem_of_filter in Hin as [Htrue Hin]. rewrite (Hlike e Hin) in Htrue. done. }
  split.
  - intros Hembedder depth. unfold context, context_entity.
    cbn [cx_topic]. by rewrite Hname, Hnone, Hembedder.
  - intros queryVector Hembedder. unfold context_entity.
    rewrite Hname, Hnone, Hembedder.
    destruct (select_scored w queryVector 5 None None) as [|r rest] eqn:Hscored; [done|].
    unfold SEMANTIC_THRESHOLD. destruct (Qge_bool (ss_similarity r) (2 # 10)); [|done].
    assert (r ∈ select_scored w queryVector 5 None None) as Hin by (rewrite Hscored; left).
    unfold select_scored, slice0, sort_by_similarity in Hin.
    apply elem_of_take in Hin as (i & Hin & _). apply list_elem_of_lookup_2 in Hin.
    apply elem_of_sort_by in Hin. apply list_elem_of_fmap in Hin as ([[m o] e] & -> & Hrow).
    apply list_elem_of_filter in Hrow as [_ Hrow].
    apply elem_of_embedding_rows in Hrow as (_ & _ & He & Hid).
    cbn [score ss_entity_id].
    destruct (select_entity_by_id_Some w (emb_entity_id m)) as (e' & He' & Hid' & Hin').
    { apply list_elem_of_fmap. by exists e. }
    exists e'. done.
Qed.

End Engine.

(** * Concrete runs *)

(** ** Schema versioning *)

(** C2 (as amended): with one row in [schema_version], [initializeSchema]
    always succeeds; a version below 2 is migrated (the version-2 tables are
    created) and becomes exactly 2; a version of 2 or more, also one above
    [SCHEMA_VERSION], is left as it is. *)
Theorem initializeSchema_single_row (t1 t2 : bool) (v : Z) :
  initializeSchema (mkDatabase t1 t2 [v])
  = (Ok tt, mkDatabase true (if (v <? 2)%Z then true else t2) [Z.max v 2]).
Proof.
  unfold initializeSchema; simpl.
  destruct (Z.ltb_spec v 2).
  - unfold update_version; simpl. by rewrite Z.max_r by lia.
  - unfold exec_SCHEMA_V1; simpl. by rewrite Z.max_l by lia.
Qed.

(** C2, counterexample: a database written by a later release (version 3) is
    opened without any error and keeps its version. *)
Lemma initializeSchema_accepts_version_3 :
  (SCHEMA_VERSION < getSchemaVersion (mkDatabase true true [3%Z]))%Z
  /\ initializeSchema (mkDatabase true true [3%Z]) = (Ok tt, mkDatabase true true [3%Z]).
Proof. split; reflexivity. Qed.

(** ** forget *)

Lemma forget_both_or_neither_witness :
  forget (mkForgetInput None None) sample_world = (Ok forget_rejected, sample_world)
  /\ forget (mkForgetInput (Some "k") (Some "id-1")) sample_world
     = forget (mkForgetInput None (Some "id-1")) sample_world.
Proof.
  pose proof (forget_both_or_neither (mkForgetInput None None) sample_world) as (_ & H1 & _).
  pose proof (forget_both_or_neither (mkForgetInput (Some "k") (Some "id-1")) sample_world)
    as (_ & _ & H2).
  split; [apply H1 | apply H2]; reflexivity.
Defined.

(** C3, counterexample: with both an entity name and an observation id, the
    call succeeds and deletes the observation and its embedding. *)
Lemma forget_both_given_deletes :
  forget (mkForgetInput (Some "k") (Some "id-1")) sample_world
  = (Ok (mkForgetResult true "Deleted observation id-1." (mkDeleted 1 1 0 false)),
     mkWorld (entities sample_world)
       [ mkObservation "id-4" "id-3" "likes tea" None t0 ]
       [ mkStoredEmbedding "id-5" "id-3" "id-4" [0; 1]%Q "likes tea" t0 ]
       (relationships sample_world) 7 t0).
Proof. vm_compute. reflexivity. Qed.

(** ** The sample data satisfies the constraints *)

Lemma sample_uuid_ok : uuid_ok sample_uuid.
Proof.
  split.
  - intros j k H. unfold sample_uuid in H.
    apply (inj (String.app "id-")) in H. by apply (inj pretty) in H.
  - intros k. unfold sample_uuid. simpl. discriminate.
Qed.

Ltac decide_by_computation := apply (bool_decide_unpack _); vm_compute; exact I.

Lemma sample_world_ok : store_ok sample_world.
Proof. constructor; decide_by_computation. Qed.

Lemma sample_world_generated : ids_generated sample_uuid sample_world.
Proof. unfold ids_generated. decide_by_computation. Qed.

(** ** merge *)

Lemma merge_all_or_nothing_witness :
  (exists e, merge sample_uuid sample_embedder (mkMergeInput ["id-1"; "id-9"] "unified") sample_world
             = (Throw e, sample_world))
  /\ (exists e, merge sample_uuid sample_embedder (mkMergeInput ["id-1"; "id-4"] "unified") sample_world
                = (Throw e, sample_world))
  /\ (exists r w', merge sample_uuid sample_embedder (mkMergeInput ["id-1"] "unified") sample_world
                   = (Ok r, w')).
Proof.
  split_and!.
  - apply (merge_all_or_nothing sample_uuid sample_embedder
             (mkMergeInput ["id-1"; "id-9"] "unified") sample_world sample_world_ok).
    left. exists "id-9". split; decide_by_computation.
  - apply (merge_all_or_nothing sample_uuid sample_embedder
             (mkMergeInput ["id-1"; "id-4"] "unified") sample_world sample_world_ok).
    right. exists (mkObservation "id-1" "id-0" "PhD in atmospheric physics" (Some "chat") t0),
                  (mkObservation "id-4" "id-3" "likes tea" None t0).
    split_and!; [decide_by_computation | decide_by_computation | discriminate].
  - destruct (merge_all_or_nothing sample_uuid sample_embedder
                (mkMergeInput ["id-1"] "unified") sample_world sample_world_ok) as [_ H].
    destruct (H [1; 0]%Q) as (originals & entity & Hids & Horig & Hent & message & Hrun).
    + discriminate.
    + exact sample_uuid_ok.
    + exact sample_world_generated.
    + reflexivity.
    + intros id Hid. apply list_elem_of_singleton in Hid as ->. decide_by_computation.
    + intros (o1 & o2 & H1 & H2 & Hne).
      assert (requested sample_world ["id-1"]
              = [mkObservation "id-1" "id-0" "PhD in atmospheric physics" (Some "chat") t0])
        as Hreq by (vm_compute; reflexivity).
      cbn [mi_observation_ids] in H1, H2. rewrite Hreq in H1, H2.
      apply list_elem_of_singleton in H1, H2. congruence.
    + eexists _, _. exact Hrun.
Defined.

(** The same call, run: the merged observation replaces the original and
    keeps its source. *)
Example merge_sample_run :
  exists r w', merge sample_uuid sample_embedder (mkMergeInput ["id-1"] "unified") sample_world
               = (Ok r, w')
    /\ mr_new_observation_id r = "id-7"
    /\ observations w' = [ mkObservation "id-4" "id-3" "likes tea" None t0;
                           mkObservation "id-7" "id-0" "unified" (Some "chat") t0 ]
    /\ embeddings w' = [ mkStoredEmbedding "id-5" "id-3" "id-4" [0; 1]%Q "likes tea" t0;
                         mkStoredEmbedding "id-8" "id-0" "id-7" [1; 0]%Q "unified" t0 ].
Proof. eexists _, _. split; [vm_compute; reflexivity|]. split_and!; reflexivity. Qed.

(** C6, counterexample: with an empty list of ids nothing is missing and no
    two observations differ in their entity, yet [merge] raises and creates
    nothing. *)
Lemma merge_empty_ids_creates_nothing :
  (forall id, id ∈ ([] : list string) -> id ∈ o_id <$> observations sample_world)
  /\ ~ spans_entities sample_world []
  /\ merge sample_uuid sample_embedder (mkMergeInput [] "unified") sample_world
     = (Throw (TypeError "Cannot read properties of undefined (reading 'entity_id')"),
        sample_world).
Proof.
  split_and!.
  - intros id Hid. by apply elem_of_nil in Hid.
  - intros (o1 & o2 & H1 & _). unfold requested in H1.
    apply list_elem_of_filter in H1 as [H1 _]. by apply elem_of_nil in H1.
  - reflexivity.
Qed.

(** ** remember *)




(** The replacing call, run: the shorter observation and its embedding are
    gone, the longer ones are stored. *)
Example remember_replace_sample_run :
  exists r w',
    remember sample_uuid sample_embedder sample_mentions sample_print
      (mkRememberInput "PhD in atmospheric physics from TU Delft" (Some "k") None None)
      sample_world
    = (Ok r, w')
    /\ rr_replaced_observation r = Some "PhD in atmospheric physics"
    /\ o_content <$> observations w'
       = ["likes tea"; "PhD in atmospheric physics from TU Delft"]
    /\ emb_observation_id <$> embeddings w' = ["id-4"; "id-7"].
Proof. eexists _, _. split; [vm_compute; reflexivity|]. split_and!; reflexivity. Qed.

(** ** getRelatedEntities *)

Lemma getRelatedEntities_shortest_paths_witness :
  exists result,
    getRelatedEntities sample_world "id-0" 1 = Some result
    /\ result !! "id-0" = None
    /\ result !! "id-3" = Some (mkRelated 1 "m" None).
Proof.
  destruct (getRelatedEntities_shortest_paths sample_world "id-0" 1 sample_world_ok)
    as (result & Hrun & _ & _ & Hseed & _).
  exists result. split_and!; [exact Hrun | exact Hseed |].
  assert (getRelatedEntities sample_world "id-0" 1 = Some {["id-3" := mkRelated 1 "m" None]})
    as Hcomputed by (vm_compute; reflexivity).
  rewrite Hcomputed in Hrun. injection Hrun as <-. reflexivity.
Defined.

(** ** recall *)


(** With the embedder up, both observations are semantic hits; the one the
    keyword search finds again is not repeated. *)
Example recall_sample_run :
  recall sample_embedder sample_like (mkRecallInput "likes tea" 10 None None) sample_world
  = (Ok (mkRecallResult true 1
           [mkMemoryResult "id-4" "m" None "likes tea" None t0 (Some (round3 1))]),
     sample_world).
Proof. vm_compute. reflexivity. Qed.

(** ** consolidate *)


(** At threshold 0.6 the chain is one cluster of three, and the orthogonal
    pair counts in its mean: (0.6 + 0 + 0.8) / 3 rounds to 0.467.  At the
    default threshold only the last two observations cluster. *)
Example consolidate_chain_run :
  (fun r => (fun c => (co_content <$> cl_observations c, cl_avg_similarity c)) <$> cr_clusters r)
    <$> consolidate sample_print chain_world (mkConsolidateInput (Some "k") (Some (6 # 10)))
  = Some [(["north"; "north-east"; "east"], (467 # 1000)%Q)].
Proof. vm_compute. reflexivity. Qed.

Example consolidate_default_threshold_run :
  (fun r => (fun c => (co_content <$> cl_observations c, cl_avg_similarity c)) <$> cr_clusters r)
    <$> consolidate sample_print chain_world (mkConsolidateInput None None)
  = Some [(["north-east"; "east"], (800 # 1000)%Q)].
Proof. vm_compute. reflexivity. Qed.

Example consolidate_single_run :
  cr_clusters <$> consolidate sample_print sample_world (mkConsolidateInput (Some "k") None)
  = Some [].
Proof. vm_compute. reflexivity. Qed.

(** * The rate limiter *)

Lemma ceil_div_bounds (x : Z) :
  (0 <= x <= WINDOW_MS)%Z -> (0 <= ceil_div x 1000 <= 60)%Z.
Proof.
  unfold WINDOW_MS, ceil_div. intros [Hlo Hhi].
  assert ((- x) / 1000 <= 0 / 1000)%Z by (apply Z.div_le_mono; lia).
  assert ((- 60000) / 1000 <= (- x) / 1000)%Z by (apply Z.div_le_mono; lia).
  change (0 / 1000)%Z with 0%Z in *. change (- 60000 / 1000)%Z with (- 60)%Z in *. lia.
Qed.

Lemma serve_all_counts (maxRequests : Z) (req : LimitedRequest) (times : list Z)
    (windows : gmap string RateLimitEntry) (count resetAt : Z) :
  windows !! rate_limit_key req = Some (mkRateLimitEntry count resetAt) ->
  Forall (fun t => (t <= resetAt)%Z) times ->
  forall i r, (serve_all maxRequests req times windows).1 !! i = Some r ->
    (lo_outcome r = PassedOn <-> (count + Z.of_nat i < maxRequests)%Z)
    /\ X_RateLimit_Remaining r = Z.max 0 (maxRequests - (count + Z.of_nat i + 1)).
Proof.
  revert windows count. induction times as [|t times IH]; intros windows count Hentry Hall i r.
  - simpl. by rewrite lookup_nil.
  - apply Forall_cons in Hall as [Ht Hall]. cbv beta in Ht. cbn [serve_all].
    destruct (createRateLimiter maxRequests req t windows) as [r0 windows1] eqn:Hfirst.
    destruct (serve_all maxRequests req times windows1) as [rs windows2] eqn:Hrest.
    unfold createRateLimiter in Hfirst. rewrite Hentry in Hfirst. cbn [rl_resetAt] in Hfirst.
    rewrite (proj2 (Z.ltb_ge resetAt t)) in Hfirst by lia. cbn [rl_count rl_resetAt] in Hfirst.
    injection Hfirst as <- <-. cbn [fst]. destruct i as [|i]; cbn [lookup list_lookup].
    + intros [= <-]. cbn [lo_outcome X_RateLimit_Remaining]. split.
      * destruct (Z.ltb_spec maxRequests (count + 1)); [split; [done | lia] | split; [lia | done]].
      * f_equal. lia.
    + intros Hr.
      destruct (IH (<[rate_limit_key req := mkRateLimitEntry (count + 1) resetAt]> windows)
                  (count + 1)%Z (lookup_insert_eq _ _ _) Hall i r) as [Hout Hrem].
      { by rewrite Hrest. }
      split; [rewrite Hout; lia | rewrite Hrem; f_equal; lia].
Qed.

(** X21: within one window the limiter hands on the first [maxRequests] requests
    of a client on a path and refuses every later one: when the client has
    no window, or one that has ended, and the requests come before the new
    window ends, the request of rank [i] (from 0) is handed on exactly when
    [i < maxRequests], and the header [X-RateLimit-Remaining] counts down
    to 0. *)
Theorem rate_limit_window (maxRequests : Z) (req : LimitedRequest) (t0 : Z) (times : list Z)
    (windows : gmap string RateLimitEntry) :
  (forall entry, windows !! rate_limit_key req = Some entry -> (rl_resetAt entry < t0)%Z) ->
  Forall (fun t => (t <= t0 + WINDOW_MS)%Z) times ->
  forall i r, (serve_all maxRequests req (t0 :: times) windows).1 !! i = Some r ->
    (lo_outcome r = PassedOn <-> (Z.of_nat i < maxRequests)%Z)
    /\ X_RateLimit_Remaining r = Z.max 0 (maxRequests - (Z.of_nat i + 1)).
Proof.
  intros Hexpired Hall i r. cbn [serve_all].
  destruct (createRateLimiter maxRequests req t0 windows) as [r0 windows1] eqn:Hfirst.
  destruct (serve_all maxRequests req times windows1) as [rs windows2] eqn:Hrest.
  assert (r0 = mkLimitResponse
                 (if (maxRequests <? 1)%Z
                  then TooManyRequests (ceil_div (t0 + WINDOW_MS - t0) 1000) else PassedOn)
                 maxRequests (Z.max 0 (maxRequests - 1)) (ceil_div (t0 + WINDOW_MS) 1000)
          /\ windows1 = <[rate_limit_key req := mkRateLimitEntry 1 (t0 + WINDOW_MS)]> windows)
    as [-> ->].
  { unfold createRateLimiter in Hfirst.
    destruct (windows !! rate_limit_key req) as [entry|] eqn:Hentry.
    - rewrite (proj2 (Z.ltb_lt _ _) (Hexpired entry eq_refl)) in Hfirst.
      cbn [rl_count rl_resetAt] in Hfirst. by injection Hfirst as <- <-.
    - cbn [rl_count rl_resetAt] in Hfirst. by injection Hfirst as <- <-. }
  cbn [fst]. destruct i as [|i]; cbn [lookup list_lookup].
  - intros [= <-]. cbn [lo_outcome X_RateLimit_Remaining]. split; [|done].
    destruct (Z.ltb_spec maxRequests 1); [split; [done | lia] | split; [lia | done]].
  - intros Hr.
    destruct (serve_all_counts maxRequests req times
                (<[rate_limit_key req := mkRateLimitEntry 1 (t0 + WINDOW_MS)]> windows)
                1 (t0 + WINDOW_MS) (lookup_insert_eq _ _ _) Hall i r) as [Hout Hrem].
    { by rewrite Hrest. }
    split; [rewrite Hout; lia | rewrite Hrem; f_equal; lia].
Qed.

(** X22: whatever the state, the header [X-RateLimit-Remaining] is never
    negative, the window of every other client and path is left as it was,
    and, with a clock that does not go back, a refused request is told to
    retry within 0 to 60 seconds and the windows still end within one
    window length of any later time. *)
Theorem rate_limit_response (maxRequests : Z) (req : LimitedRequest) (now : Z)
    (windows : gmap string RateLimitEntry) :
  windows_ok now windows ->
  let '(r, windows') := createRateLimiter maxRequests req now windows in
  (0 <= X_RateLimit_Remaining r)%Z
  /\ (forall retryAfter, lo_outcome r = TooManyRequests retryAfter -> (0 <= retryAfter <= 60)%Z)
  /\ (forall key, key ≠ rate_limit_key req -> windows' !! key = windows !! key)
  /\ (forall later, (now <= later)%Z -> windows_ok later windows').
Proof.
  intros Hok. unfold createRateLimiter.
  set (entry := match windows !! rate_limit_key req with
                | Some entry =>
                    if (rl_resetAt entry <? now)%Z
                    then mkRateLimitEntry 0 (now + WINDOW_MS) else entry
                | None => mkRateLimitEntry 0 (now + WINDOW_MS)
                end).
  assert ((now <= rl_resetAt entry <= now + WINDOW_MS)%Z /\ (0 <= rl_count entry)%Z) as Hentry.
  { unfold entry. destruct (windows !! rate_limit_key req) as [e|] eqn:He.
    - destruct (Hok _ _ He) as [Hreset Hcount].
      destruct (Z.ltb_spec (rl_resetAt e) now); cbn [rl_resetAt rl_count];
        unfold WINDOW_MS in *; lia.
    - cbn [rl_resetAt rl_count]. unfold WINDOW_MS. lia. }
  cbn [rl_count rl_resetAt X_RateLimit_Remaining lo_outcome]. split_and!.
  - lia.
  - intros retryAfter. destruct (maxRequests <? rl_count entry + 1)%Z; [|done].
    intros [= <-]. apply ceil_div_bounds. lia.
  - intros key Hkey. by rewrite lookup_insert_ne.
  - intros later Hlater. apply map_Forall_insert_2.
    + cbn [rl_count rl_resetAt]. lia.
    + intros k e He. destruct (Hok k e He). lia.
Qed.

(** X23: the periodic cleanup never changes how a later request is answered: it
    only drops windows that have ended, which the limiter would start anew
    anyway. *)
Theorem rate_limit_cleanup_transparent (maxRequests : Z) (req : LimitedRequest)
    (cleaned now : Z) (windows : gmap string RateLimitEntry) :
  (cleaned <= now)%Z ->
  (createRateLimiter maxRequests req now (rate_limit_cleanup cleaned windows)).1
  = (createRateLimiter maxRequests req now windows).1
  /\ (createRateLimiter maxRequests req now (rate_limit_cleanup cleaned windows)).2
       !! rate_limit_key req
     = (createRateLimiter maxRequests req now windows).2 !! rate_limit_key req
  /\ forall key entry, rate_limit_cleanup cleaned windows !! key = Some entry ->
       windows !! key = Some entry /\ (cleaned <= rl_resetAt entry)%Z.
Proof.
  intros Hle.
  assert (match rate_limit_cleanup cleaned windows !! rate_limit_key req with
          | Some entry =>
              if (rl_resetAt entry <? now)%Z
              then mkRateLimitEntry 0 (now + WINDOW_MS) else entry
          | None => mkRateLimitEntry 0 (now + WINDOW_MS)
          end
          = match windows !! rate_limit_key req with
            | Some entry =>
                if (rl_resetAt entry <? now)%Z
                then mkRateLimitEntry 0 (now + WINDOW_MS) else entry
            | None => mkRateLimitEntry 0 (now + WINDOW_MS)
            end) as Hentry.
  { unfold rate_limit_cleanup.
    destruct (windows !! rate_limit_key req) as [e|] eqn:He.
    - destruct (decide (rl_resetAt e < cleaned)%Z) as [Hgone|Hkept].
      + rewrite map_lookup_filter_None_2 by (right; intros e' He'; simpl; naive_solver).
        by rewrite (proj2 (Z.ltb_lt _ _)) by lia.
      + by rewrite (map_lookup_filter_Some_2 _ _ _ e).
    - by rewrite map_lookup_filter_None_2 by by left. }
  unfold createRateLimiter. cbn [fst snd]. rewrite !lookup_insert_eq, Hentry.
  split; [done|]. split; [done|].
  intros key entry Hkey. unfold rate_limit_cleanup in Hkey.
  apply map_lookup_filter_Some in Hkey as [Hkey Hkept]. simpl in Hkept. split; [done | lia].
Qed.

(** * Schema versioning, again *)

(** X24: opening a database is idempotent: on a database file with at most one
    version row, [initializeSchema] succeeds, and running it again on the
    result succeeds and changes nothing; afterwards the version-1 tables
    exist and the stored version is at least 2.  A fresh file gets all the
    tables and version 2. *)
Theorem initializeSchema_idempotent (db : Database) :
  length (schema_version db) <= 1 ->
  exists db',
    initializeSchema db = (Ok tt, db')
    /\ initializeSchema db' = (Ok tt, db')
    /\ v1_tables db' = true
    /\ (2 <= getSchemaVersion db')%Z
    /\ (schema_version db = [] -> db' = mkDatabase true true [2%Z]).
Proof.
  destruct db as [t1 t2 [|v [|v' rows]]]; simpl; intros Hlen; [| |lia].
  - eexists. split; [reflexivity|]. split_and!; done.
  - unfold initializeSchema. cbn [exec_SCHEMA_V1 schema_version first_row head v2_tables].
    destruct (Z.ltb_spec v 2) as [Hlt|Hge].
    + eexists. split; [reflexivity|]. split_and!; done.
    + eexists. split; [reflexivity|].
      cbn [exec_SCHEMA_V1 schema_version first_row head v2_tables v1_tables].
      rewrite (proj2 (Z.ltb_ge v 2) Hge). split_and!; done.
Qed.

(** * The sanitiser *)

Lemma strip_control_props (s : string) :
  characters (strip_control s) = filter (fun c => is_control c = false) (characters s)
  /\ strip_control (strip_control s) = strip_control s
  /\ String.length (strip_control s) <= String.length s
  /\ (Forall (fun c => is_control c = false) (characters s) -> strip_control s = s)
  /\ (Forall (fun c => is_control c = true) (characters s) -> strip_control s = "").
Proof.
  induction s as [|c s (IH1 & IH2 & IH3 & IH4 & IH5)]; [by split_and!|].
  cbn [strip_control characters String.length].
  destruct (is_control c) eqn:Hc.
  - rewrite filter_cons_False by (by rewrite Hc). split_and!; try done.
    + lia.
    + intros Hall. apply Forall_cons in Hall as [Hall _]. congruence.
    + intros Hall. apply Forall_cons in Hall as [_ Hall]. by apply IH5.
  - rewrite filter_cons_True by done. cbn [strip_control characters String.length].
    rewrite Hc. split_and!.
    + by rewrite IH1.
    + by rewrite IH2.
    + lia.
    + intros Hall. apply Forall_cons in Hall as [_ Hall]. by rewrite IH4.
    + intros Hall. apply Forall_cons in Hall as [Hall _]. congruence.
Qed.

(** X25: the sanitiser removes exactly the control characters of its class and
    keeps every other character in order, tab, line feed and carriage
    return included; applying it twice is applying it once; a clean string
    is left as it is, and a string made of such control characters only,
    however long, becomes empty. *)
Theorem strip_control_spec (s : string) :
  characters (strip_control s) = filter (fun c => is_control c = false) (characters s)
  /\ strip_control (strip_control s) = strip_control s
  /\ String.length (strip_control s) <= String.length s
  /\ (Forall (fun c => is_control c = false) (characters s) -> strip_control s = s)
  /\ (Forall (fun c => is_control c = true) (characters s) -> strip_control s = "")
  /\ (forall n, n < 256 ->
        (is_control (Ascii.ascii_of_nat n) = true
         <-> n <= 8 \/ n = 11 \/ n = 12 \/ 14 <= n <= 31)).
Proof.
  destruct (strip_control_props s) as (H1 & H2 & H3 & H4 & H5).
  split_and!; try done.
  intros n Hn. unfold is_control. rewrite (Ascii.nat_ascii_embedding n Hn).
  rewrite !orb_true_iff, andb_true_iff, !Nat.leb_le, !Nat.eqb_eq. lia.
Qed.

(** * OAuth tokens *)

Lemma truthy_Some_nonempty (s : string) : s <> "" -> truthy (Some s) = true.
Proof. intros Hs. simpl. apply negb_true_iff. by apply String.eqb_neq. Qed.

Lemma substring_all (s : string) : String.substring 0 (String.length s) s = s.
Proof. induction s as [|c s IH]; [done|]. simpl. by rewrite IH. Qed.

Lemma bearer_token_append (t : string) : bearer_token ("Bearer " +:+ t) = t.
Proof.
  unfold bearer_token. simpl. change ("" +:+ t) with t.
  rewrite Nat.sub_0_r. apply substring_all.
Qed.

Lemma prefix_empty (s : string) : String.prefix "" s = true.
Proof. by destruct s. Qed.

Lemma bearer_header (t : string) :
  truthy (Some ("Bearer " +:+ t)) = true /\ String.prefix "Bearer " ("Bearer " +:+ t) = true.
Proof. split; [reflexivity|]. simpl. apply prefix_empty. Qed.

(** When [bearerAuth] lets a request through. *)
Lemma bearerAuth_authorized (config : AuthConfig) (auth : option string) (now : Z)
    (st : OAuthStore) :
  (bearerAuth config auth now st).1 = Authorized
  <-> (truthy (oauthIssuer config) = false
       /\ (truthy (config_token config) = false
           \/ (truthy auth = true
               /\ auth = Some ("Bearer " +:+ default "" (config_token config)))))
      \/ (truthy (oauthIssuer config) = true
          /\ exists header stored,
               auth = Some header /\ String.prefix "Bearer " header = true
               /\ accessTokens st !! bearer_token header = Some stored
               /\ (now <= at_expires_at stored)%Z).
Proof.
  unfold bearerAuth. destruct (truthy (oauthIssuer config)) eqn:Hissuer; cbn [negb].
  - split.
    + intros Hrun. right. split; [done|].
      destruct auth as [header|]; [|done]. cbn [default from_option id] in Hrun. unfold id in Hrun.
      destruct (truthy (Some header)); [|done]. cbn [negb orb] in Hrun.
      destruct (String.prefix "Bearer " header) eqn:Hprefix; [|done]. cbn [negb] in Hrun.
      destruct (accessTokens st !! bearer_token header) as [stored|] eqn:Hstored; [|done].
      destruct (Z.ltb_spec (at_expires_at stored) now); [done|]. eauto 10.
    + intros [[? _]|[_ (header & stored & -> & Hprefix & Hstored & Hnow)]]; [done|].
      cbn [default from_option id]. unfold id.
      assert (truthy (Some header) = true) as ->.
      { destruct header; [done|]. done. }
      rewrite Hprefix. cbn [negb orb]. rewrite Hstored.
      by rewrite (proj2 (Z.ltb_ge _ _)) by lia.
  - split.
    + intros Hrun. left. split; [done|].
      destruct (truthy (config_token config)); [right | by left].
      destruct (truthy auth) eqn:Hauth; [|done]. cbn [negb orb] in Hrun.
      destruct (String.eqb (default "" auth) ("Bearer " +:+ default "" (config_token config)))
        eqn:Heq; [|done].
      apply String.eqb_eq in Heq. split; [done|].
      destruct auth as [header|]; [|done]. simpl in Heq. by rewrite Heq.
    + intros [[_ [Hopen|[Hauth ->]]]|[? _]]; [| |done].
      * by rewrite Hopen.
      * destruct (truthy (config_token config)); [|done].
        rewrite Hauth. cbn [negb orb default from_option id]. unfold id.
        by rewrite String.eqb_refl.
Qed.

(** X26: [bearerAuth] lets a request through in three cases only: nothing is
    configured (then every request passes, with or without a header); a
    static token is configured and the header is exactly [Bearer] followed
    by it; OAuth is configured and the header is [Bearer] followed by a
    stored access token that has not expired.  A request that passes leaves
    the store as it was; a token found expired is deleted. *)
Theorem bearerAuth_sound (config : AuthConfig) (auth : option string) (now : Z)
    (st : OAuthStore) :
  ((bearerAuth config auth now st).1 = Authorized
   <-> (truthy (oauthIssuer config) = false
        /\ (truthy (config_token config) = false
            \/ (truthy auth = true
                /\ auth = Some ("Bearer " +:+ default "" (config_token config)))))
       \/ (truthy (oauthIssuer config) = true
           /\ exists header stored,
                auth = Some header /\ String.prefix "Bearer " header = true
                /\ accessTokens st !! bearer_token header = Some stored
                /\ (now <= at_expires_at stored)%Z))
  /\ ((bearerAuth config auth now st).1 = Authorized -> (bearerAuth config auth now st).2 = st)
  /\ (forall header stored,
        truthy (oauthIssuer config) = true -> auth = Some header ->
        String.prefix "Bearer " header = true ->
        accessTokens st !! bearer_token header = Some stored ->
        (at_expires_at stored < now)%Z ->
        accessTokens (bearerAuth config auth now st).2 !! bearer_token header = None).
Proof.
  split; [apply bearerAuth_authorized|]. split.
  - unfold bearerAuth. repeat (case_match; try done).
  - intros header stored Hissuer -> Hprefix Hstored Hexpired. unfold bearerAuth.
    rewrite Hissuer. cbn [negb default from_option id]. unfold id.
    assert (truthy (Some header) = true) as -> by (by destruct header).
    rewrite Hprefix. cbn [negb orb]. rewrite Hstored.
    rewrite (proj2 (Z.ltb_lt _ _) Hexpired). cbn [snd accessTokens].
    apply lookup_delete_eq.
Qed.

(** X27: the cleanup never changes whether a later request is let through: it
    only drops tokens that have expired. *)
Theorem oauth_cleanup_transparent (config : AuthConfig) (auth : option string)
    (cleaned now : Z) (st : OAuthStore) :
  (cleaned <= now)%Z ->
  ((bearerAuth config auth now (oauth_cleanup cleaned st)).1 = Authorized
   <-> (bearerAuth config auth now st).1 = Authorized).
Proof.
  intros Hle. rewrite !bearerAuth_authorized. unfold oauth_cleanup. cbn [accessTokens].
  split.
  - intros [?|[Hissuer (header & stored & -> & Hprefix & Hstored & Hnow)]]; [by left | right].
    split; [done|]. exists header, stored.
    apply map_lookup_filter_Some in Hstored as [Hstored _]. done.
  - intros [?|[Hissuer (header & stored & -> & Hprefix & Hstored & Hnow)]]; [by left | right].
    split; [done|]. exists header, stored. split_and!; try done.
    apply map_lookup_filter_Some. split; [done|]. simpl. lia.
Qed.

Section OAuthProperties.

Variable sha256 : string -> string.
Variable uuid : nat -> string.

(** X28: a stored authorization code, presented before it expires with the
    verifier whose hash is its challenge and with its redirect URI, is
    exchanged for a token pair; the code is single-use: it is deleted, and
    presenting it again is refused whatever the time; the access token
    issued opens [bearerAuth] until it expires, one hour after the clock
    reading it was issued at. *)
Theorem token_exchange (st : OAuthStore) (code verifier : string) (authCode : AuthCode)
    (refresh : option string) (now now1 now2 : Z) :
  authCodes st !! code = Some authCode ->
  ac_code_challenge authCode = Some (sha256 verifier) ->
  (now <= ac_expires_at authCode)%Z ->
  let req := mkTokenRequest (Some "authorization_code") (Some code) (Some verifier)
               (ac_redirect_uri authCode) refresh in
  let access := uuid (drawn st) in
  exists st',
    token sha256 uuid req now now1 now2 st
    = (Ok (Tokens access 3600 (uuid (S (drawn st)))), st')
    /\ authCodes st' !! code = None
    /\ (forall t t1 t2,
          token sha256 uuid req t t1 t2 st'
          = (Ok (BadRequest "invalid_grant" (Some "Invalid or expired authorization code")),
             st'))
    /\ (forall issuer static t, issuer <> "" -> (t <= now1 + ACCESS_TOKEN_TTL)%Z ->
          bearerAuth (mkAuthConfig (Some issuer) static) (Some ("Bearer " +:+ access)) t st'
          = (Authorized, st')).
Proof.
  intros Hcode Hchallenge Hnow req access.
  eexists. split_and!.
  - unfold token, req. cbn [tr_grant_type tr_code tr_code_verifier tr_redirect_uri].
    rewrite bool_decide_eq_true_2 by done. rewrite Hcode, Hchallenge.
    rewrite bool_decide_eq_false_2 by (intros H; by apply H).
    rewrite bool_decide_eq_false_2 by (intros H; by apply H).
    rewrite (proj2 (Z.ltb_ge _ _)) by lia. reflexivity.
  - cbn [authCodes]. apply lookup_delete_eq.
  - intros t t1 t2. unfold token, req. cbn [tr_grant_type tr_code authCodes].
    rewrite bool_decide_eq_true_2 by done. by rewrite lookup_delete_eq.
  - intros issuer static t Hissuer Ht. unfold bearerAuth.
    cbn [oauthIssuer default from_option id]. rewrite (truthy_Some_nonempty issuer Hissuer).
    unfold id. destruct (bearer_header access) as [-> ->]. cbn [negb orb].
    rewrite bearer_token_append. cbn [accessTokens]. rewrite lookup_insert_eq.
    cbn [at_expires_at]. by rewrite (proj2 (Z.ltb_ge _ _)) by lia.
Qed.

(** X29: a refresh rotates both tokens: a stored refresh token presented before
    it expires gives a new pair; the old refresh token is deleted and is
    refused from then on, the access token it came with is deleted and no
    longer opens [bearerAuth], and the new access token does. *)
Theorem token_refresh_rotation (st : OAuthStore) (old : string) (stored : RefreshToken)
    (code verifier redirect : option string) (now now1 now2 : Z) :
  refreshTokens st !! old = Some stored ->
  (now <= rt_expires_at stored)%Z ->
  uuid (drawn st) <> rt_access_token stored ->
  uuid (S (drawn st)) <> old ->
  let req := mkTokenRequest (Some "refresh_token") code verifier redirect (Some old) in
  let access := uuid (drawn st) in
  exists st',
    token sha256 uuid req now now1 now2 st
    = (Ok (Tokens access 3600 (uuid (S (drawn st)))), st')
    /\ refreshTokens st' !! old = None
    /\ accessTokens st' !! rt_access_token stored = None
    /\ (forall t t1 t2,
          token sha256 uuid req t t1 t2 st'
          = (Ok (BadRequest "invalid_grant" (Some "Invalid or expired refresh token")), st'))
    /\ (forall issuer static t, issuer <> "" ->
          (bearerAuth (mkAuthConfig (Some issuer) static)
             (Some ("Bearer " +:+ rt_access_token stored)) t st').1 <> Authorized)
    /\ (forall issuer static t, issuer <> "" -> (t <= now1 + ACCESS_TOKEN_TTL)%Z ->
          bearerAuth (mkAuthConfig (Some issuer) static) (Some ("Bearer " +:+ access)) t st'
          = (Authorized, st')).
Proof.
  intros Hold Hnow Hnew1 Hnew2 req access.
  eexists. split_and!.
  - unfold token, req. cbn [tr_grant_type tr_refresh_token].
    rewrite bool_decide_eq_false_2 by done. rewrite bool_decide_eq_true_2 by done.
    cbn [mbind option_bind]. rewrite Hold. cbn [fmap option_fmap option_map].
    rewrite (proj2 (Z.ltb_ge _ _)) by lia. reflexivity.
  - cbn [refreshTokens]. rewrite lookup_insert_ne by done. apply lookup_delete_eq.
  - cbn [accessTokens]. rewrite lookup_insert_ne by done. apply lookup_delete_eq.
  - intros t t1 t2. unfold token, req. cbn [tr_grant_type tr_refresh_token refreshTokens].
    rewrite bool_decide_eq_false_2 by done. rewrite bool_decide_eq_true_2 by done.
    cbn [mbind option_bind]. rewrite lookup_insert_ne by done. by rewrite lookup_delete_eq.
  - intros issuer static t Hissuer Hrun. apply bearerAuth_authorized in Hrun.
    cbn [oauthIssuer] in Hrun. rewrite (truthy_Some_nonempty issuer Hissuer) in Hrun.
    destruct Hrun as [[? _]|[_ (header & tok & [= <-] & _ & Htok & _)]]; [done|].
    rewrite bearer_token_append in Htok. cbn [accessTokens] in Htok.
    rewrite lookup_insert_ne in Htok by done. by rewrite lookup_delete_eq in Htok.
  - intros issuer static t Hissuer Ht. unfold bearerAuth.
    cbn [oauthIssuer default from_option id]. rewrite (truthy_Some_nonempty issuer Hissuer).
    unfold id. destruct (bearer_header access) as [-> ->]. cbn [negb orb].
    rewrite bearer_token_append. cbn [accessTokens]. rewrite lookup_insert_eq.
    cbn [at_expires_at]. by rewrite (proj2 (Z.ltb_ge _ _)) by lia.
Qed.

(** X30: the token endpoint issues tokens for a verified grant only: for a
    stored authorization code that has not expired, presented with a
    verifier whose hash is its challenge and with its redirect URI, or for
    a stored refresh token that has not expired.  A refusal issues nothing:
    it draws no identifier and adds no token. *)
Theorem token_sound (req : TokenRequest) (now now1 now2 : Z) (st st' : OAuthStore)
    (response : TokenResponse) :
  token sha256 uuid req now now1 now2 st = (Ok response, st') ->
  match response with
  | Tokens access expires_in refresh =>
      (tr_grant_type req = Some "authorization_code"
       /\ exists code authCode verifier,
            tr_code req = Some code /\ authCodes st !! code = Some authCode
            /\ tr_code_verifier req = Some verifier
            /\ ac_code_challenge authCode = Some (sha256 verifier)
            /\ ac_redirect_uri authCode = tr_redirect_uri req
            /\ (now <= ac_expires_at authCode)%Z
            /\ authCodes st' !! code = None)
      \/ (tr_grant_type req = Some "refresh_token"
          /\ exists old stored,
               tr_refresh_token req = Some old /\ refreshTokens st !! old = Some stored
               /\ (now <= rt_expires_at stored)%Z)
  | BadRequest error description =>
      drawn st' = drawn st /\ accessTokens st' = accessTokens st
      /\ refreshTokens st' ⊆ refreshTokens st
  end.
Proof.
  unfold token. intros Hrun.
  case_bool_decide as Hcode.
  - destruct (tr_code req) as [code|]; [|by injection Hrun as <- <-].
    destruct (authCodes st !! code) as [authCode|] eqn:Hstored; [|by injection Hrun as <- <-].
    destruct (tr_code_verifier req) as [verifier|]; [|done].
    case_bool_decide as Hpkce; [by injection Hrun as <- <-|].
    case_bool_decide as Hredirect; [by injection Hrun as <- <-|].
    destruct (Z.ltb_spec (ac_expires_at authCode) now); [by injection Hrun as <- <-|].
    injection Hrun as <- <-. left. split; [done|].
    exists code, authCode, verifier. split_and!; try done.
    cbn [authCodes]. apply lookup_delete_eq.
  - case_bool_decide as Hrefresh; [|by injection Hrun as <- <-].
    destruct (tr_refresh_token req) as [old|]; [|by injection Hrun as <- <-].
    cbn [mbind option_bind] in Hrun.
    destruct (refreshTokens st !! old) as [stored|] eqn:Hstored;
      [|by injection Hrun as <- <-].
    cbn [fmap option_fmap option_map] in Hrun.
    destruct (Z.ltb_spec (rt_expires_at stored) now).
    + injection Hrun as <- <-. split_and!; try done. apply delete_subseteq.
    + injection Hrun as <- <-. right. split; [done|]. by exists old, stored.
Qed.

End OAuthProperties.

(** * Concrete runs of the further properties *)

Lemma sparse_world_ok : store_ok sparse_world.
Proof. constructor; decide_by_computation. Qed.

Lemma sparse_world_generated : ids_generated sample_uuid sparse_world.
Proof. unfold ids_generated. decide_by_computation. Qed.

(** X1, run: the entity [k] is there; asking for it with another type gives it back. *)
Lemma findOrCreateEntity_idempotent_witness :
  exists e w',
    findOrCreateEntity sample_uuid "k" (Some "person") sample_world = (Ok e, w')
    /\ e_name e = "k"
    /\ findOrCreateEntity sample_uuid "k" None w' = (Ok e, w').
Proof.
  destruct (findOrCreateEntity_idempotent sample_uuid "k" (Some "person") sample_world)
    as (e & w' & Hrun & Hname & _ & Hagain & _).
  - decide_by_computation.
  - exists e, w'. split_and!; [exact Hrun | exact Hname | apply Hagain].
Defined.

(** X2, run: a relationship from [m] to [k] is seen from [k]. *)
Lemma createRelationship_round_trip_witness :
  exists r w',
    createRelationship sample_uuid "id-3" "id-0" "knows" sample_world = (Ok r, w')
    /\ relationshipExists "id-0" "id-3" w' = (Ok true, w').
Proof.
  destruct (createRelationship_round_trip sample_uuid "id-3" "id-0" "knows" sample_world)
    as [Hstored _].
  - decide_by_computation.
  - destruct Hstored as (r & w' & Hrun & _ & _ & _ & Hback); [decide_by_computation..|].
    exists r, w'. split; [exact Hrun | exact Hback].
Defined.

(** X4, run: deleting the observation [id-1]. *)
Lemma forget_observation_witness :
  exists result w',
    forget (mkForgetInput None (Some "id-1")) sample_world = (Ok result, w')
    /\ store_ok w'.
Proof.
  pose proof (forget_observation None "id-1" sample_world) as H. cbv zeta in H.
  destruct H as ((message & Hrun) & Hok & _); [discriminate|].
  eexists _, _. split; [exact Hrun | exact (Hok sample_world_ok)].
Defined.

(** X5, run: deleting the entity [k], with its observation, its embedding and its relationship. *)
Lemma forget_entity_witness :
  exists message w',
    forget (mkForgetInput (Some "k") None) sample_world
    = (Ok (mkForgetResult true message (mkDeleted 1 1 1 true)), w')
    /\ select_entity_by_name w' "k" = None
    /\ store_ok w'.
Proof.
  destruct (forget_entity "k" sample_world) as [_ Hknown]; [discriminate | exact sample_world_ok |].
  destruct (Hknown (mkEntity "id-0" "k" None t0 t0) eq_refl)
    as (message & w' & Hrun & _ & _ & _ & _ & Hgone & Hok).
  exists message, w'. split_and!; [exact Hrun | exact Hgone | exact Hok].
Defined.

(** X8, run: the embedder is down. *)
Lemma remember_embedder_failure_witness :
  exists w',
    remember sample_uuid embedder_down sample_mentions sample_print
      (mkRememberInput "plays chess" (Some "k") None None) sample_world
    = (Throw EmbedderError, w')
    /\ observations w' = observations sample_world.
Proof.
  destruct (remember_embedder_failure sample_uuid embedder_down sample_mentions sample_print
              (mkRememberInput "plays chess" (Some "k") None None) sample_world)
    as (w' & Hrun & Hobs & _).
  - reflexivity.
  - decide_by_computation.
  - exists w'. split; [exact Hrun | exact Hobs].
Defined.

(** X9, run: the embedder is down. *)
Lemma merge_embedder_failure_witness :
  merge sample_uuid embedder_down (mkMergeInput ["id-1"] "unified") sample_world
  = (Throw EmbedderError, sample_world).
Proof.
  apply (merge_embedder_failure sample_uuid embedder_down
           (mkMergeInput ["id-1"] "unified") sample_world sample_world_ok).
  - discriminate.
  - intros id Hid. apply list_elem_of_singleton in Hid as ->. decide_by_computation.
  - intros (o1 & o2 & H1 & H2 & Hne).
    assert (requested sample_world ["id-1"]
            = [mkObservation "id-1" "id-0" "PhD in atmospheric physics" (Some "chat") t0])
      as Hreq by (vm_compute; reflexivity).
    cbn [mi_observation_ids] in H1, H2. rewrite Hreq in H1, H2.
    apply list_elem_of_singleton in H1, H2. congruence.
  - reflexivity.
Defined.

(** X10, run: an entity that is not stored. *)
Lemma update_not_found_witness :
  exists message,
    update sample_uuid sample_embedder (mkUpdateInput "nobody" "likes tea" "likes coffee")
      sample_world
    = (Ok (mkUpdateResult false message None), sample_world).
Proof.
  apply (proj1 (update_not_found sample_uuid sample_embedder
                  (mkUpdateInput "nobody" "likes tea" "likes coffee") sample_world)).
  reflexivity.
Defined.

(** X11, run: the observation of [m] is replaced. *)
Lemma update_replaces_target_witness :
  exists message w',
    update sample_uuid sample_embedder (mkUpdateInput "m" "likes tea" "likes coffee")
      sample_world
    = (Ok (mkUpdateResult true message (Some (sample_uuid 7))), w')
    /\ o_content <$> observations w' = ["PhD in atmospheric physics"; "likes coffee"].
Proof.
  pose proof (update_replaces_target sample_uuid sample_embedder
                (mkUpdateInput "m" "likes tea" "likes coffee") sample_world
                (mkEntity "id-3" "m" None t0 t0)
                (mkObservation "id-4" "id-3" "likes tea" None t0) [1; 0]%Q
                sample_uuid_ok sample_world_generated eq_refl eq_refl eq_refl) as H.
  cbv zeta in H. destruct H as (_ & _ & message & Hrun).
  eexists message, _. split; [exact Hrun | reflexivity].
Defined.

(** X12, run: the embedder is down; the new observation is stored beside the old one. *)
Lemma update_embedder_failure_witness :
  exists w',
    update sample_uuid embedder_down (mkUpdateInput "m" "likes tea" "likes coffee") sample_world
    = (Throw EmbedderError, w')
    /\ o_content <$> observations w'
       = ["PhD in atmospheric physics"; "likes tea"; "likes coffee"]
    /\ embeddings w' = embeddings sample_world.
Proof.
  eexists. split.
  - apply (update_embedder_failure sample_uuid embedder_down
             (mkUpdateInput "m" "likes tea" "likes coffee") sample_world
             (mkEntity "id-3" "m" None t0 t0)
             (mkObservation "id-4" "id-3" "likes tea" None t0)
             sample_uuid_ok sample_world_generated eq_refl eq_refl eq_refl).
  - split; reflexivity.
Defined.



(** X15, run: one observation has no embedding. *)
Lemma backfillEmbeddings_completes_witness :
  exists w',
    backfillEmbeddings sample_uuid sample_embedder sparse_world = (Ok 1, w')
    /\ emb_observation_id <$> embeddings w' = ["id-2"]
    /\ backfillEmbeddings sample_uuid sample_embedder w' = (Ok 0, w').
Proof.
  pose proof (backfillEmbeddings_completes sample_uuid sample_embedder sparse_world
                sparse_world_ok sample_uuid_ok sparse_world_generated) as H.
  cbv zeta in H. destruct H as (Hrun & Hids & _ & Hagain).
  - intros o _. unfold sample_embedder. destruct (String.eqb _ _); eauto.
  - eexists. split_and!; [exact Hrun | exact Hids | exact Hagain].
Defined.

(** X16, run: two unions connect 0 and 2. *)
Lemma UnionFind_connects_witness :
  exists u,
    union_all [(0, 1); (1, 2)] (UnionFind_new 4) = Some u
    /\ same_root u 0 2.
Proof.
  destruct (UnionFind_connects 4 [(0, 1); (1, 2)]) as (u & Hrun & Hsame).
  - repeat constructor; simpl; lia.
  - exists u. split; [exact Hrun|]. apply Hsame; [lia | lia |].
    apply rtc_l with 1; [left; left | apply rtc_once; left; right; left].
Defined.

(** X17, run: the whole store. *)
Lemma exportMemories_counts_witness :
  exists data message,
    exportMemories (fun _ => "") (fun _ _ => "") (fun _ _ => "")
      (mkExportInput json None None) sample_world
    = (Ok (mkExportResult true "json" 2 2 data message), sample_world).
Proof.
  destruct (exportMemories_counts (fun _ => "") (fun _ _ => "") (fun _ _ => "") json sample_world)
    as (_ & _ & Hall).
  destruct Hall as (data & message & Hrun); [exact sample_world_ok | apply Nat.leb_le; reflexivity |].
  exists data, message. exact Hrun.
Defined.


(** X20, run: an exact name, and a topic nothing matches while the embedder is down. *)
Lemma context_lookup_order_witness :
  context_entity embedder_down sample_like sample_world "m" = Some (mkEntity "id-3" "m" None t0 t0)
  /\ context embedder_down sample_like sample_world (mkContextInput "nobody" (Some 2%Z))
     = Some (context_not_found "nobody").
Proof.
  destruct (context_lookup_order embedder_down sample_like sample_world "m") as [Hexact _].
  destruct (context_lookup_order embedder_down sample_like sample_world "nobody") as [_ Hother].
  split; [by apply Hexact|].
  apply Hother; [reflexivity | | reflexivity].
  apply Forall_forall. decide_by_computation.
Defined.

(** X21, run: the third request of a window of two. *)
Lemma rate_limit_window_witness :
  exists r,
    (serve_all 2 sample_request [0; 10; 20]%Z ∅).1 !! 2 = Some r
    /\ lo_outcome r <> PassedOn
    /\ X_RateLimit_Remaining r = 0%Z.
Proof.
  eassert ((serve_all 2 sample_request [0; 10; 20]%Z ∅).1 !! 2 = Some _) as Hr
    by (vm_compute; reflexivity).
  destruct (fun H1 H2 => rate_limit_window 2 sample_request 0 [10; 20]%Z ∅ H1 H2 2 _ Hr)
    as [Hpassed Hremaining].
  - intros entry Hentry. by rewrite lookup_empty in Hentry.
  - repeat constructor; unfold WINDOW_MS; lia.
  - eexists. split; [exact Hr|]. split; [|exact Hremaining].
    intros Hp. apply Hpassed in Hp. simpl in Hp. lia.
Defined.

(** X22, run: the first request of a client. *)
Lemma rate_limit_response_witness :
  (0 <= X_RateLimit_Remaining (createRateLimiter 2 sample_request 0 ∅).1)%Z
  /\ windows_ok 5 (createRateLimiter 2 sample_request 0 ∅).2.
Proof.
  pose proof (rate_limit_response 2 sample_request 0 ∅) as H.
  destruct (createRateLimiter 2 sample_request 0 ∅) as [r windows'].
  destruct H as (Hremaining & _ & _ & Hlater); [apply map_Forall_empty|].
  split; [exact Hremaining | apply Hlater; lia].
Defined.

(** X23, run: a window that has ended. *)
Lemma rate_limit_cleanup_transparent_witness :
  (createRateLimiter 2 sample_request 10
     (rate_limit_cleanup 5 {[ "203.0.113.7:/mcp" := mkRateLimitEntry 9 3 ]})).1
  = (createRateLimiter 2 sample_request 10 {[ "203.0.113.7:/mcp" := mkRateLimitEntry 9 3 ]}).1.
Proof.
  apply (rate_limit_cleanup_transparent 2 sample_request 5 10). lia.
Defined.

(** X24, run: a fresh file. *)
Lemma initializeSchema_idempotent_witness :
  exists db',
    initializeSchema (mkDatabase false false []) = (Ok tt, db')
    /\ initializeSchema db' = (Ok tt, db')
    /\ db' = mkDatabase true true [2%Z].
Proof.
  destruct (initializeSchema_idempotent (mkDatabase false false []))
    as (db' & Hrun & Hagain & _ & _ & Hfresh); [simpl; lia|].
  exists db'. split_and!; [exact Hrun | exact Hagain | by apply Hfresh].
Defined.

(** X26, run: a stored token before and after it expires. *)
Lemma bearerAuth_sound_witness :
  (bearerAuth (mkAuthConfig (Some "https://memory.example") None) (Some "Bearer access-1")
     4000 sample_oauth).1 = Authorized
  /\ accessTokens
       (bearerAuth (mkAuthConfig (Some "https://memory.example") None) (Some "Bearer access-1")
          6000 sample_oauth).2 !! "access-1" = None.
Proof.
  split.
  - apply (bearerAuth_sound (mkAuthConfig (Some "https://memory.example") None)
             (Some "Bearer access-1") 4000 sample_oauth).
    right. split; [reflexivity|].
    exists "Bearer access-1", (mkAccessToken (Some "client") 5000).
    split_and!; [reflexivity | reflexivity | vm_compute; reflexivity | simpl; lia].
  - destruct (bearerAuth_sound (mkAuthConfig (Some "https://memory.example") None)
             (Some "Bearer access-1") 6000 sample_oauth) as (_ & _ & Hexpired).
    apply (Hexpired "Bearer access-1" (mkAccessToken (Some "client") 5000));
      [reflexivity | reflexivity | reflexivity | vm_compute; reflexivity | simpl; lia].
Defined.

(** X27, run: a token that has not expired. *)
Lemma oauth_cleanup_transparent_witness :
  (bearerAuth (mkAuthConfig (Some "https://memory.example") None) (Some "Bearer access-1")
     4000 (oauth_cleanup 3000 sample_oauth)).1 = Authorized.
Proof.
  apply (oauth_cleanup_transparent (mkAuthConfig (Some "https://memory.example") None)
           (Some "Bearer access-1") 3000 4000 sample_oauth); [lia|].
  vm_compute. reflexivity.
Defined.

(** X28, run: the stored code with its verifier. *)
Lemma token_exchange_witness :
  exists st',
    token sample_sha256 sample_uuid
      (mkTokenRequest (Some "authorization_code") (Some "code-1") (Some "verifier")
         (Some "https://app/cb") None) 500 501 502 sample_oauth
    = (Ok (Tokens (sample_uuid 0) 3600 (sample_uuid 1)), st')
    /\ authCodes st' !! "code-1" = None
    /\ bearerAuth (mkAuthConfig (Some "https://memory.example") None)
         (Some ("Bearer " +:+ sample_uuid 0)) 3600501 st' = (Authorized, st').
Proof.
  pose proof (token_exchange sample_sha256 sample_uuid sample_oauth "code-1" "verifier"
                (mkAuthCode (Some "client") (Some "sha256:verifier") (Some "https://app/cb") 1000)
                None 500 501 502) as H.
  cbv zeta in H. destruct H as (st' & Hrun & Hgone & _ & Hopens).
  - vm_compute. reflexivity.
  - reflexivity.
  - simpl. lia.
  - exists st'. split_and!; [exact Hrun | exact Hgone |].
    apply Hopens; [discriminate | unfold ACCESS_TOKEN_TTL; lia].
Defined.

(** X29, run: the stored refresh token. *)
Lemma token_refresh_rotation_witness :
  exists st',
    token sample_sha256 sample_uuid
      (mkTokenRequest (Some "refresh_token") None None None (Some "refresh-1"))
      500 501 502 sample_oauth
    = (Ok (Tokens (sample_uuid 0) 3600 (sample_uuid 1)), st')
    /\ refreshTokens st' !! "refresh-1" = None
    /\ accessTokens st' !! "access-1" = None.
Proof.
  pose proof (token_refresh_rotation sample_sha256 sample_uuid sample_oauth "refresh-1"
                (mkRefreshToken (Some "client") "access-1" 9000) None None None 500 501 502) as H.
  cbv zeta in H. destruct H as (st' & Hrun & Hold & Haccess & _).
  - vm_compute. reflexivity.
  - simpl. lia.
  - vm_compute. discriminate.
  - vm_compute. discriminate.
  - exists st'. split_and!; [exact Hrun | exact Hold | exact Haccess].
Defined.

(** X30, run: tokens were issued, so the code was stored and verified. *)
Lemma token_sound_witness :
  exists code authCode,
    authCodes sample_oauth !! code = Some authCode
    /\ ac_code_challenge authCode = Some (sample_sha256 "verifier")
    /\ (500 <= ac_expires_at authCode)%Z.
Proof.
  eassert (token sample_sha256 sample_uuid
             (mkTokenRequest (Some "authorization_code") (Some "code-1") (Some "verifier")
                (Some "https://app/cb") None) 500 501 502 sample_oauth
           = (Ok (Tokens _ _ _), _)) as Hrun by (vm_compute; reflexivity).
  destruct (token_sound _ _ _ _ _ _ _ _ _ Hrun)
    as [(_ & code & authCode & verifier & Hcode & Hstored & Hverifier & Hchallenge & _ & Hnow & _)
       |(Hgrant & _)].
  - injection Hverifier as <-. exists code, authCode. done.
  - discriminate.
Defined.
